(** * TankX real-time triangular-arbitrage monitor: the detector

    A shallow embedding of [arbitrage_detector.py] (class
    [ArbitrageDetector]) and the properties of its triangle finder, its
    leg search, its evaluator and its tick dispatcher.

    Python values are embedded as follows.
    - A trading pair ("capsule", a dict with the keys "symbol", "left" and
      "right") is a record of three strings.
    - A tuple of trading pairs is a list; [itertools.combinations] keeps the
      order of the input list.
    - [self.book_ticker_data] and [self.result] are finite maps keyed by
      strings.
    - A raised exception is the [Raise] outcome of a small error monad.
    - [decimal.Decimal] values are sign/coefficient/exponent triples and the
      operations the detector uses are those of the default context
      (precision 28, ROUND_HALF_EVEN, Emax 999999, Emin -999999, traps on
      InvalidOperation, DivisionByZero and Overflow). *)

From Stdlib Require Import ZArith QArith Qpower String Ascii List Lia Bool.
From stdpp Require Import base tactics option list gmap sets strings.

Local Open Scope string_scope.
Local Open Scope list_scope.
Local Open Scope Z_scope.

(** ** Trading pairs *)

(** A capsule [{"symbol": AB, "left": A, "right": B}] built by
    [fetch_trading_pairs]. *)
Record capsule : Type := Capsule {
  symbol : string;
  left : string;
  right : string
}.

(** One element of [initial_data["symbols"]], as far as the detector reads
    it. *)
Record exchange_symbol : Type := ExchangeSymbol {
  es_symbol : string;
  baseAsset : string;
  quoteAsset : string
}.

(** Python's [x in xs] for a list of strings. *)
Definition str_in (x : string) (xs : list string) : bool :=
  existsb (String.eqb x) xs.

(** [fetch_trading_pairs], after the HTTP request: the loop over
    [initial_data["symbols"]] that fills [capsules] until [limit] is
    reached. [capsules] is threaded as an accumulator. *)
Fixpoint fetch_loop (target_assets : list string) (limit : nat)
    (elements : list exchange_symbol) (capsules : list capsule)
    : list capsule :=
  match elements with
  | [] => capsules
  | element :: rest =>
      if (limit <=? length capsules)%nat then capsules
      else if str_in (baseAsset element) target_assets
              || str_in (quoteAsset element) target_assets
      then fetch_loop target_assets limit rest
             (capsules ++ [Capsule (es_symbol element) (baseAsset element)
                                   (quoteAsset element)])
      else fetch_loop target_assets limit rest capsules
  end.

Definition fetch_trading_pairs (target_assets : list string) (limit : nat)
    (symbols : list exchange_symbol) : list capsule :=
  fetch_loop target_assets limit symbols [].

(** ** The triangle finder *)

(** [itertools.combinations(data, r)]: the sub-tuples of length [r], in the
    lexicographic order of their positions. *)
Fixpoint combinations {A : Type} (data : list A) (r : nat) {struct data}
    : list (list A) :=
  match r with
  | O => [[]]
  | S r' =>
      match data with
      | [] => []
      | x :: rest =>
          map (cons x) (combinations rest r') ++ combinations rest (S r')
      end
  end.

Definition find_combinations_of_3 (data : list capsule) : list (list capsule) :=
  combinations data 3.

(** [check_if_triangle]: the number of unique assets, computed as the size
    of the union of the set of left assets and the set of right assets. *)
Definition check_if_triangle (data : list capsule) : nat :=
  size ((list_to_set (map left data) : gset string)
          ∪ list_to_set (map right data)).

(** The test of the inner [if] of [check_circular_pairs]. *)
Definition circular (x y : capsule) : bool :=
  String.eqb (left x) (right y) && String.eqb (right x) (left y).

(** [check_circular_pairs]: [data[i]] is compared with every later
    [data[j]]; the first circular couple returns [False]. *)
Fixpoint check_circular_pairs (data : list capsule) : bool :=
  match data with
  | [] => true
  | x :: rest =>
      if existsb (circular x) rest then false else check_circular_pairs rest
  end.

Definition find_correct_triangles (all_trading_pairs : list capsule)
    : list (list capsule) :=
  List.filter
    (fun combination =>
       Nat.eqb (check_if_triangle combination) 3
       && check_circular_pairs combination)
    (find_combinations_of_3 all_trading_pairs).

(** The assets a tuple of pairs spans: every left and every right asset. *)
Definition assets (data : list capsule) : gset string :=
  list_to_set (data ≫= λ p, [left p; right p]).

(** Two pairs are mirror images: the same two assets, left and right
    exchanged. *)
Definition mirror (p q : capsule) : Prop :=
  left p = right q ∧ right p = left q.

(** ** Exceptions *)

(** The exceptions the evaluator can raise. *)
Inductive exn : Type :=
| TypeError          (* subscripting [None] *)
| IndexError         (* tuple index out of range *)
| KeyError           (* missing dictionary key *)
| DivisionByZero     (* decimal.DivisionByZero *)
| InvalidOperation   (* decimal.InvalidOperation *)
| Overflow.          (* decimal.Overflow *)

Inductive res (A : Type) : Type :=
| Ok (x : A)
| Raise (e : exn).
Arguments Ok {A} x.
Arguments Raise {A} e.

(** Sequencing: an exception in [m] skips the rest. [x ← m; k] is stdpp's
    notation for [mbind (λ x, k) m]. *)
#[global] Instance res_bind : MBind res := λ A B k m,
  match m with
  | Ok x => k x
  | Raise e => Raise e
  end.

#[global] Instance res_ret : MRet res := λ A x, Ok x.

(** ** Decimal arithmetic in the default context *)

Module PyDecimal.

(** A finite [Decimal]: [(-1)^_sign * _int * 10^_exp]. The coefficient
    [_int] is a digit string in Python and a natural number here. *)
Record t : Type := mk {
  _sign : bool;
  _int : N;
  _exp : Z
}.

Definition prec : Z := 28.
Definition Emax : Z := 999999.
Definition Emin : Z := -999999.
Definition Etiny : Z := Emin - prec + 1.
Definition Etop : Z := Emax - prec + 1.

(** [len(self._int)]: the number of decimal digits; zero is written "0". *)
Fixpoint len_fuel (fuel : nat) (n : N) : Z :=
  match fuel with
  | O => 1
  | S fuel' =>
      if (n <? 10)%N then 1 else 1 + len_fuel fuel' (n / 10)%N
  end.

Definition len (n : N) : Z := len_fuel (N.to_nat (N.size n)) n.

(** [Decimal(1)], the converted integer operand of [1 / x], [x < 1] and
    [x > 1]. *)
Definition one : t := mk false 1 0.

(** [bool(self)]: a decimal is false exactly when it is zero. *)
Definition nonzero (d : t) : bool := negb (_int d =? 0)%N.

(** [self.adjusted()]: the exponent of the leading digit. *)
Definition adjusted (d : t) : Z := len (_int d) + _exp d - 1.

(** [Decimal._fix]: round to the context precision with ROUND_HALF_EVEN
    and keep the exponent within bounds (clamp = 0). Overflow is trapped;
    Underflow, Subnormal, Inexact, Rounded and Clamped are not. *)
Definition _fix (d : t) : res t :=
  if negb (nonzero d) then
    Ok (mk (_sign d) 0 (Z.min (Z.max (_exp d) Etiny) Emax))
  else
    let exp_min := len (_int d) + _exp d - prec in
    if Etop <? exp_min then Raise Overflow
    else
      let exp_min := if exp_min <? Etiny then Etiny else exp_min in
      if _exp d <? exp_min then
        let unit := (10 ^ Z.to_N (exp_min - _exp d))%N in
        let kept := (_int d / unit)%N in
        let dropped := (_int d mod unit)%N in
        let round_up :=
          (unit <? 2 * dropped)%N
          || ((2 * dropped =? unit)%N && N.odd kept) in
        let coeff := if round_up then (kept + 1)%N else kept in
        let carry := round_up && (prec <? len coeff) in
        let coeff := if carry then (coeff / 10)%N else coeff in
        let exp_min := if carry then exp_min + 1 else exp_min in
        if Etop <? exp_min then Raise Overflow
        else Ok (mk (_sign d) coeff exp_min)
      else Ok d.

(** [Decimal.__mul__] on finite operands. *)
Definition mul (x y : t) : res t :=
  _fix (mk (xorb (_sign x) (_sign y)) (_int x * _int y) (_exp x + _exp y)).

(** The loop [while exp < ideal_exp and coeff % 10 == 0] of
    [Decimal.__truediv__], which drops trailing zeros of an exact quotient;
    each turn raises [exp] by one, so [ideal_exp - exp] turns suffice. *)
Fixpoint strip_zeros (ideal_exp : Z) (fuel : nat) (coeff : N) (exp : Z)
    : N * Z :=
  match fuel with
  | O => (coeff, exp)
  | S fuel' =>
      if (exp <? ideal_exp) && (coeff mod 10 =? 0)%N
      then strip_zeros ideal_exp fuel' (coeff / 10)%N (exp + 1)
      else (coeff, exp)
  end.

(** [Decimal.__truediv__] on finite operands. A zero divisor raises
    DivisionByZero, or InvalidOperation (division undefined) when the
    dividend is zero too. *)
Definition truediv (x y : t) : res t :=
  let sign := xorb (_sign x) (_sign y) in
  if negb (nonzero y) then
    if negb (nonzero x) then Raise InvalidOperation else Raise DivisionByZero
  else if negb (nonzero x) then _fix (mk sign 0 (_exp x - _exp y))
  else
    let shift := len (_int y) - len (_int x) + prec + 1 in
    let exp := _exp x - _exp y - shift in
    let num := if 0 <=? shift then (_int x * 10 ^ Z.to_N shift)%N
               else _int x in
    let den := if 0 <=? shift then _int y
               else (_int y * 10 ^ Z.to_N (- shift))%N in
    let coeff := (num / den)%N in
    let remainder := (num mod den)%N in
    if negb (remainder =? 0)%N then
      let coeff := if (coeff mod 5 =? 0)%N then (coeff + 1)%N else coeff in
      _fix (mk sign coeff exp)
    else
      let ideal_exp := _exp x - _exp y in
      let '(coeff, exp) :=
        strip_zeros ideal_exp (Z.to_nat (ideal_exp - exp)) coeff exp in
      _fix (mk sign coeff exp).

(** The signed coefficient of [d] once written with the exponent [e],
    for [e] not above [_exp d]. *)
Definition scaled (e : Z) (d : t) : Z :=
  let m := Z.of_N (_int d) * 10 ^ (_exp d - e) in
  if _sign d then - m else m.

(** The rational number a finite decimal denotes. *)
Definition value (d : t) : Q :=
  let m := (inject_Z (Z.of_N (_int d)) * inject_Z 10 ^ _exp d)%Q in
  if _sign d then (- m)%Q else m.

(** [Decimal.__lt__] on finite operands: an exact comparison of the two
    values ([_cmp]), no rounding. *)
Definition lt (x y : t) : bool :=
  let e := Z.min (_exp x) (_exp y) in
  scaled e x <? scaled e y.

(** The magnitude of [d] is below [10 ^ (bound + 1)], or [d] is zero. *)
Definition small (d : t) (bound : Z) : Prop :=
  _int d = 0%N ∨ Z.of_N (_int d) < 10 ^ (bound + 1 - _exp d).

(** The magnitude of [d] is at least [10 ^ bound], and [d] is not zero. *)
Definition big (d : t) (bound : Z) : Prop :=
  (0 < _int d)%N ∧ 10 ^ (bound - _exp d) ≤ Z.of_N (_int d).

(** [x > 0] for a finite decimal. *)
Definition positive (d : t) : Prop := _sign d = false ∧ (0 < _int d)%N.

(** A positive decimal between [1E-300000] and [1E+300001]: products and
    quotients of three such numbers stay clear of [Emax]. *)
Definition in_range (d : t) : Prop :=
  positive d ∧ -300000 ≤ adjusted d ≤ 300000.

End PyDecimal.

(** ** The detector's state *)

(** The [data] object of a bookTicker message, as far as the detector reads
    it: the symbol ["s"], the best ask ["a"] and the best bid ["b"]. The two
    prices are the finite decimals [Decimal(data["a"])] and
    [Decimal(data["b"])] denote. *)
Record ticker : Type := Ticker {
  ticker_s : string;
  ticker_a : PyDecimal.t;
  ticker_b : PyDecimal.t
}.

(** One entry of [self.result]: the three ask lines, the three bid lines
    (each line a symbol and a price, rendered ["{symbol}: {price}\n"]) and the
    verdict ["YES"] or ["NO"]. *)
Record row : Type := Row {
  ask_price : list (string * PyDecimal.t);
  bid_price : list (string * PyDecimal.t);
  triangular_arbitrage : string
}.

(** The fields of [ArbitrageDetector] that change or are read after start-up.
    [evaluated] is a ghost field: the arguments of the calls to
    [calculate_triangular_arbitrage], oldest first. *)
Record ArbitrageDetector : Type := Detector {
  book_ticker_data : gmap string ticker;
  result : gmap string row;
  correct_triangles : list (list capsule);
  evaluated : list (list capsule)
}.

Definition trading_pair_limit : nat := 400.

Definition target_assets : list string :=
  ["BTC"; "USDT"; "ETH"; "BNB"; "XRP"; "ADA"; "SOL"; "DOT"; "DOGE"; "LTC";
   "LINK"].

(** [__init__], given the symbols the exchange answered. *)
Definition init (symbols : list exchange_symbol) : ArbitrageDetector :=
  {| book_ticker_data := ∅;
     result := ∅;
     correct_triangles :=
       find_correct_triangles
         (fetch_trading_pairs target_assets trading_pair_limit symbols);
     evaluated := [] |}.

(** ** The evaluator *)

(** [t[k]] on a tuple: a negative index counts from the end, an index out of
    range raises IndexError. *)
Definition tuple_getitem {A : Type} (t : list A) (k : Z) : res A :=
  let n := Z.of_nat (length t) in
  let k := if k <? 0 then k + n else k in
  if (k <? 0) || (n <=? k) then Raise IndexError
  else match t !! Z.to_nat k with
       | Some x => Ok x
       | None => Raise IndexError
       end.

(** [d[k]] on a dictionary: a missing key raises KeyError. *)
Definition dict_getitem {V : Type} (d : gmap string V) (k : string) : res V :=
  match d !! k with
  | Some v => Ok v
  | None => Raise KeyError
  end.

(** [enumerate(t)]. *)
Definition enumerate {A : Type} (t : list A) : list (nat * A) :=
  combine (seq 0 (length t)) t.

(** The variables the search of [calculate_triangular_arbitrage] has
    assigned when it stops at a match. *)
Record legs : Type := Legs {
  count1 : nat;
  count2 : nat;
  AB : capsule;
  BC : capsule;
  AC : capsule
}.

(** The inner [for count2, element2 in enumerate(trading_pairs)], from the
    elements still to visit: at the first [element2] whose left asset is
    the right asset of [element1], AB, BC and AC are assigned and the loop
    breaks. [None] is a loop that ends without a match. *)
Fixpoint search_inner (trading_pairs : list capsule) (count1 : nat)
    (element1 : capsule) (todo : list (nat * capsule)) : res (option legs) :=
  match todo with
  | [] => Ok None
  | (count2, element2) :: todo' =>
      if String.eqb (right element1) (left element2) then
        ac ← tuple_getitem trading_pairs
               (Z.of_nat (length trading_pairs)
                - Z.of_nat count1 - Z.of_nat count2);
        Ok (Some (Legs count1 count2 element1 element2 ac))
      else search_inner trading_pairs count1 element1 todo'
  end.

(** The outer [for count1, element1 in enumerate(trading_pairs)]: it breaks
    as soon as AC is assigned. *)
Fixpoint search_outer (trading_pairs : list capsule)
    (todo : list (nat * capsule)) : res (option legs) :=
  match todo with
  | [] => Ok None
  | (count1, element1) :: todo' =>
      found ← search_inner trading_pairs count1 element1
                (enumerate trading_pairs);
      match found with
      | Some l => Ok (Some l)
      | None => search_outer trading_pairs todo'
      end
  end.

(** Lines 167-176: the search for AB, BC and AC. [Ok None] leaves the three
    variables at [None]. *)
Definition search (trading_pairs : list capsule) : res (option legs) :=
  search_outer trading_pairs (enumerate trading_pairs).

(** [(ask_AB * ask_BC) * (1 / bid_AC)] and [(bid_AB * bid_BC) * (1 / ask_AC)]:
    the product of the first two operands, then the quotient, then their
    product. *)
Definition condition (x_AB x_BC y_AC : PyDecimal.t) : res PyDecimal.t :=
  p ← PyDecimal.mul x_AB x_BC;
  q ← PyDecimal.truediv PyDecimal.one y_AC;
  PyDecimal.mul p q.

(** [f"{AB['left']}-{AB['right']}-{BC['right']}"]. *)
Definition arbitrage_code (ab bc : capsule) : string :=
  left ab +:+ "-" +:+ right ab +:+ "-" +:+ right bc.

(** [calculate_triangular_arbitrage], reading [self.book_ticker_data] and
    returning the new value of [self.result]. *)
Definition calculate_triangular_arbitrage
    (book : gmap string ticker) (result : gmap string row)
    (trading_pairs : list capsule) : res (gmap string row) :=
  found ← search trading_pairs;
  match found with
  | None => Raise TypeError
  | Some l =>
      t_AB ← dict_getitem book (symbol (AB l));
      let ask_AB := ticker_a t_AB in
      let bid_AB := ticker_b t_AB in
      t_BC ← dict_getitem book (symbol (BC l));
      let ask_BC := ticker_a t_BC in
      let bid_BC := ticker_b t_BC in
      t_AC ← dict_getitem book (symbol (AC l));
      let ask_AC := ticker_a t_AC in
      let bid_AC := ticker_b t_AC in
      condition1 ← condition ask_AB ask_BC bid_AC;
      condition2 ← condition bid_AB bid_BC ask_AC;
      let asks := [(symbol (AB l), ask_AB); (symbol (BC l), ask_BC);
                   (symbol (AC l), ask_AC)] in
      let bids := [(symbol (AB l), bid_AB); (symbol (BC l), bid_BC);
                   (symbol (AC l), bid_AC)] in
      let verdict :=
        if PyDecimal.lt condition1 PyDecimal.one
           || PyDecimal.lt PyDecimal.one condition2
        then "YES" else "NO" in
      Ok (<[arbitrage_code (AB l) (BC l) := Row asks bids verdict]> result)
  end.

(** ** The dispatcher *)

(** [key in d]. *)
Definition dict_contains {V : Type} (d : gmap string V) (k : string) : bool :=
  match d !! k with
  | Some _ => true
  | None => false
  end.

(** [sum(1 for trading_pair in target
          if trading_pair["symbol"] in self.book_ticker_data)]. *)
Definition count_quoted (book : gmap string ticker) (target : list capsule)
    : nat :=
  length (List.filter
            (fun trading_pair => dict_contains book (symbol trading_pair))
            target).

(** The state after [calculate_triangular_arbitrage] has been entered with
    [target] (ghost). *)
Definition enter (self : ArbitrageDetector) (target : list capsule)
    : ArbitrageDetector :=
  {| book_ticker_data := book_ticker_data self;
     result := result self;
     correct_triangles := correct_triangles self;
     evaluated := evaluated self ++ [target] |}.

(** The state after the assignment to [self.result]. *)
Definition publish (self : ArbitrageDetector) (result' : gmap string row)
    : ArbitrageDetector :=
  {| book_ticker_data := book_ticker_data self;
     result := result';
     correct_triangles := correct_triangles self;
     evaluated := evaluated self |}.

(** The [for target in self.correct_triangles] loop of [on_message], from
    the targets still to visit. An exception leaves the loop with the state
    reached so far. *)
Fixpoint on_message_loop (todo : list (list capsule))
    (self : ArbitrageDetector) : ArbitrageDetector * option exn :=
  match todo with
  | [] => (self, None)
  | target :: todo' =>
      let count := count_quoted (book_ticker_data self) target in
      if Nat.eqb count 3 then
        match calculate_triangular_arbitrage (book_ticker_data self)
                (result self) target with
        | Ok result' =>
            on_message_loop todo' (publish (enter self target) result')
        | Raise e => (enter self target, Some e)
        end
      else on_message_loop todo' self
  end.

(** [on_message]: the latest ticker of the symbol is stored, then every
    triangle of [self.correct_triangles] is visited. The second component is
    the exception that ended the call, if any. *)
Definition on_message (self : ArbitrageDetector) (data : ticker)
    : ArbitrageDetector * option exn :=
  on_message_loop (correct_triangles self)
    {| book_ticker_data := <[ticker_s data := data]> (book_ticker_data self);
       result := result self;
       correct_triangles := correct_triangles self;
       evaluated := evaluated self |}.

(** The messages of a stream, handled one after the other. An exception
    ends the handling of its message only (the callback wrapper of
    [WebSocketApp] hands it to [on_error], which prints it): the state it
    leaves is the state the next message finds. *)
Definition run (self : ArbitrageDetector) (stream : list ticker)
    : ArbitrageDetector :=
  fold_left (fun self data => fst (on_message self data)) stream self.

(** The test of [on_message] on a target, as a boolean: its three legs are
    quoted in [book]. *)
Definition quoted (book : gmap string ticker) (target : list capsule) : bool :=
  Nat.eqb (count_quoted book target) 3.

(** Every pair of [target] has its symbol among the keys of [book]. *)
Definition legs_quoted (book : gmap string ticker) (target : list capsule)
    : bool :=
  forallb (fun p => bool_decide (is_Some (book !! symbol p))) target.

(** What holds of the detector after the ticks [seen]: the triangles are
    tuples of three pairs, every key of the book is the symbol of a tick
    received, every pair of every evaluated triangle is a key of the book,
    and every evaluated triangle is one of the triangles. *)
Definition consistent (self : ArbitrageDetector) (seen : list ticker) : Prop :=
  (∀ t, In t (correct_triangles self) → length t = 3%nat)
  ∧ (∀ k, is_Some (book_ticker_data self !! k) →
          ∃ data, In data seen ∧ ticker_s data = k)
  ∧ (∀ t p, In t (evaluated self) → In p t →
            is_Some (book_ticker_data self !! symbol p))
  ∧ (∀ t, In t (evaluated self) → In t (correct_triangles self)).

(** ** Chains *)

(** The pair at position [i] chains into the pair at position [j]: the
    right asset of the first is the left asset of the second. *)
Definition chain_at (trading_pairs : list capsule) (i j : nat) : Prop :=
  ∃ p q, trading_pairs !! i = Some p ∧ trading_pairs !! j = Some q
         ∧ right p = left q.

(** [(i, j)] is the first couple of positions, in the order the two nested
    loops visit them, at which a pair chains into a pair. *)
Definition first_chain_at (trading_pairs : list capsule) (i j : nat) : Prop :=
  chain_at trading_pairs i j
  ∧ ∀ i' j', (i' < i ∨ (i' = i ∧ j' < j))%nat → ¬ chain_at trading_pairs i' j'.

(** Some pair chains into another pair of the tuple. *)
Definition chained (trading_pairs : list capsule) : Prop :=
  ∃ i j, i ≠ j ∧ chain_at trading_pairs i j.

(** The three pairs can be ordered into a closed chain: the first chains
    into the second, the second into the third, and the third back into the
    first. *)
Definition closed_chain (trading_pairs : list capsule) : Prop :=
  ∃ i j k, i ≠ j ∧ j ≠ k ∧ i ≠ k
           ∧ chain_at trading_pairs i j ∧ chain_at trading_pairs j k
           ∧ chain_at trading_pairs k i.

(** Two pairs trade the same assets in the same direction. *)
Definition same_direction (p q : capsule) : Prop :=
  left p = left q ∧ right p = right q.

(** ** Display codes *)

(** The code ["A-B-C"] of an ordered triple of assets. *)
Definition display_code (A B C : string) : string :=
  A +:+ "-" +:+ B +:+ "-" +:+ C.

(** The codes of the three rotations of the cycle A, B, C. *)
Definition rotation_codes (A B C : string) : list string :=
  [display_code A B C; display_code B C A; display_code C A B].

(** Modelled from the spec: the parse of a display code, which the
    repository does not have. The code is split at every separator, as
    [code.split("-")] does. *)
Fixpoint split_on (sep : ascii) (s : string) : list string :=
  match s with
  | EmptyString => [EmptyString]
  | String c s' =>
      if Ascii.eqb c sep then EmptyString :: split_on sep s'
      else match split_on sep s' with
           | [] => [String c EmptyString]
           | part :: parts => String c part :: parts
           end
  end.

(** Modelled from the spec: a code of three parts read back as the ordered
    triple of its assets; any other number of parts does not parse. *)
Definition parse_code (code : string) : option (string * string * string) :=
  match split_on "-"%char code with
  | [A; B; C] => Some (A, B, C)
  | _ => None
  end.

(** The string holds no separator. *)
Fixpoint dash_free (s : string) : bool :=
  match s with
  | EmptyString => true
  | String c s' => negb (Ascii.eqb c "-"%char) && dash_free s'
  end.

(** ** Scenarios

    The catalogs, books and streams the examples below are stated on. *)

Definition ETHBTC : capsule := Capsule "ETHBTC" "ETH" "BTC".
Definition BNBETH : capsule := Capsule "BNBETH" "BNB" "ETH".
Definition BNBBTC : capsule := Capsule "BNBBTC" "BNB" "BTC".

(** A second symbol that trades BNB against BTC. *)
Definition BNBBTC_2 : capsule := Capsule "BNBBTC2" "BNB" "BTC".

(** The answer of the exchange in the scenario of the three pairs. *)
Definition scenario_symbols : list exchange_symbol :=
  [ExchangeSymbol "ETHBTC" "ETH" "BTC"; ExchangeSymbol "BNBETH" "BNB" "ETH";
   ExchangeSymbol "BNBBTC" "BNB" "BTC"].

(** The decimal [coefficient * 10^exponent], of sign 0. *)
Definition dec (coefficient : N) (exponent : Z) : PyDecimal.t :=
  PyDecimal.mk false coefficient exponent.

(** The quotes of the scenario: ETHBTC 0.05 / 0.0499, BNBETH 0.15 / 0.149,
    BNBBTC 0.0076 / 0.0075 (ask / bid). *)
Definition scenario_book : gmap string ticker :=
  <["ETHBTC" := Ticker "ETHBTC" (dec 5 (-2)) (dec 499 (-4))]>
    (<["BNBETH" := Ticker "BNBETH" (dec 15 (-2)) (dec 149 (-3))]>
       (<["BNBBTC" := Ticker "BNBBTC" (dec 76 (-4)) (dec 75 (-4))]> ∅)).

(** The scenario's book with the ask of BNBETH at 1E+999999 and the ask of
    ETHBTC at 10: every price is positive. *)
Definition overflow_book : gmap string ticker :=
  <["BNBETH" := Ticker "BNBETH" (dec 1 999999) (dec 149 (-3))]>
    (<["ETHBTC" := Ticker "ETHBTC" (dec 10 0) (dec 499 (-4))]> scenario_book).

(** The scenario's book with the ask of BNBETH, the leg AB, at zero. *)
Definition zero_ask_book : gmap string ticker :=
  <["BNBETH" := Ticker "BNBETH" (dec 0 0) (dec 149 (-3))]> scenario_book.



(** A second triangle, on XRP, ADA and USDT, that shares no symbol with the
    first. *)
Definition two_triangle_symbols : list exchange_symbol :=
  scenario_symbols
  ++ [ExchangeSymbol "XRPUSDT" "XRP" "USDT"; ExchangeSymbol "ADAXRP" "ADA" "XRP";
      ExchangeSymbol "ADAUSDT" "ADA" "USDT"].

Definition XRPUSDT : capsule := Capsule "XRPUSDT" "XRP" "USDT".
Definition ADAXRP : capsule := Capsule "ADAXRP" "ADA" "XRP".
Definition ADAUSDT : capsule := Capsule "ADAUSDT" "ADA" "USDT".

(** One quote for each of the six symbols. *)
Definition six_quotes : list ticker :=
  [Ticker "ETHBTC" (dec 5 (-2)) (dec 499 (-4));
   Ticker "BNBETH" (dec 15 (-2)) (dec 149 (-3));
   Ticker "BNBBTC" (dec 76 (-4)) (dec 75 (-4));
   Ticker "XRPUSDT" (dec 52 (-2)) (dec 51 (-2));
   Ticker "ADAXRP" (dec 71 (-2)) (dec 70 (-2));
   Ticker "ADAUSDT" (dec 37 (-2)) (dec 36 (-2))].

From Stdlib Require Import Lqa.

(** ** The catalog loop, restated *)

(** The capsule [fetch_trading_pairs] appends for an element. *)
Definition to_capsule (element : exchange_symbol) : capsule :=
  Capsule (es_symbol element) (baseAsset element) (quoteAsset element).

(** The test of [fetch_trading_pairs] on an element: its base asset or its
    quote asset is a target asset. *)
Definition targeted (target_assets : list string) (element : exchange_symbol)
    : bool :=
  str_in (baseAsset element) target_assets
  || str_in (quoteAsset element) target_assets.

(** ** The evaluation, restated *)

(** The verdict string of two computed rates. *)
Definition verdict_of (condition1 condition2 : PyDecimal.t) : string :=
  if PyDecimal.lt condition1 PyDecimal.one
     || PyDecimal.lt PyDecimal.one condition2
  then "YES" else "NO".

(** The entry [calculate_triangular_arbitrage] builds from the legs, their
    three tickers and the two computed rates. *)
Definition row_of (l : legs) (t_AB t_BC t_AC : ticker)
    (condition1 condition2 : PyDecimal.t) : row :=
  Row [(symbol (AB l), ticker_a t_AB); (symbol (BC l), ticker_a t_BC);
       (symbol (AC l), ticker_a t_AC)]
      [(symbol (AB l), ticker_b t_AB); (symbol (BC l), ticker_b t_BC);
       (symbol (AC l), ticker_b t_AC)]
      (verdict_of condition1 condition2).

(** ** The book and the result map over a stream *)

(** The last ticker of [stream] that carries the symbol [s], or [before]
    when there is none. *)
Fixpoint latest (s : string) (stream : list ticker) (before : option ticker)
    : option ticker :=
  match stream with
  | [] => before
  | data :: rest =>
      latest s rest (if String.eqb (ticker_s data) s then Some data else before)
  end.

(** [k] is the code of a triangle of the detector whose three legs are
    quoted and for which the search finds the legs. *)
Definition code_of_quoted (self : ArbitrageDetector) (k : string) : Prop :=
  ∃ t l, In t (correct_triangles self)
         ∧ quoted (book_ticker_data self) t = true
         ∧ search t = Ok (Some l)
         ∧ k = arbitrage_code (AB l) (BC l).

(** The three quotes of the scenario, as a stream. *)
Definition three_quotes : list ticker :=
  [Ticker "ETHBTC" (dec 5 (-2)) (dec 499 (-4));
   Ticker "BNBETH" (dec 15 (-2)) (dec 149 (-3));
   Ticker "BNBBTC" (dec 76 (-4)) (dec 75 (-4))].

(** ** Well-formed inputs *)

(** Every pair of the catalog trades two different assets and no two
    pairs, at different positions, trade the same assets in the same
    direction. *)
Definition proper_catalog (all_trading_pairs : list capsule) : Prop :=
  (∀ p, In p all_trading_pairs → left p ≠ right p)
  ∧ (∀ i j p q, i ≠ j → all_trading_pairs !! i = Some p →
                all_trading_pairs !! j = Some q → ¬ same_direction p q).

(** The ask and the bid of the ticker are positive and within range. *)
Definition sane_ticker (data : ticker) : Prop :=
  PyDecimal.in_range (ticker_a data) ∧ PyDecimal.in_range (ticker_b data).

(** ** The accuracy of the rates *)

(** [v] is [exact] up to the relative error [δ]. *)
Definition within (δ v exact : Q) : Prop :=
  ((1 - δ) * exact <= v ∧ v <= (1 + δ) * exact)%Q.

(** Half a unit in the 28th digit, relative to the leading digit: 5E-28. *)
Definition rounding_error : Q := 1 # 2000000000000000000000000000.

(** The truncation of a quotient to its 29 digits, relative to the leading
    digit: 1E-28. *)
Definition division_error : Q := 1 # 10000000000000000000000000000.

(** The truncation and the rounding of a quotient together. *)
Definition inverse_error : Q :=
  (division_error + rounding_error + division_error * rounding_error)%Q.

(** The bound on the relative error of a computed rate: 2E-27. *)
Definition rate_error : Q := 2 # 1000000000000000000000000000.

(** The rational [n * 10^e]. *)
Definition qv (n e : Z) : Q := (inject_Z n * inject_Z 10 ^ e)%Q.

(** The rate [x_AB * x_BC / y_AC] over the rationals, with no rounding. *)
Definition exact_rate (x_AB x_BC y_AC : PyDecimal.t) : Q :=
  (PyDecimal.value x_AB * PyDecimal.value x_BC / PyDecimal.value y_AC)%Q.
(** ** Properties of the finder *)

Lemma combinations_length {A : Type} (data : list A) (r : nat) (c : list A) :
  In c (combinations data r) → length c = r.
Proof.
  revert r c. induction data as [|x rest IH]; intros [|r] c; simpl.
  - intros [<-|[]]. reflexivity.
  - intros [].
  - intros [<-|[]]. reflexivity.
  - rewrite in_app_iff, in_map_iff. intros [(c' & <- & Hc')|Hc].
    + simpl. f_equal. eauto.
    + eauto.
Qed.

Lemma combinations_sublist {A : Type} (data : list A) (r : nat) (c : list A) :
  In c (combinations data r) → sublist c data.
Proof.
  revert r c. induction data as [|x rest IH]; intros [|r] c; simpl.
  - intros [<-|[]]. constructor.
  - intros [].
  - intros [<-|[]]. apply sublist_nil_l.
  - rewrite in_app_iff, in_map_iff. intros [(c' & <- & Hc')|Hc].
    + apply sublist_skip. eauto.
    + apply sublist_cons. eauto.
Qed.

Lemma assets_union (data : list capsule) :
  assets data
  = (list_to_set (map left data) : gset string) ∪ list_to_set (map right data).
Proof.
  unfold assets. induction data as [|p rest IH].
  - simpl. now rewrite (left_id_L ∅ (∪)).
  - rewrite bind_cons, list_to_set_app_L, IH. simpl.
    apply set_eq. intros x.
    rewrite !elem_of_union, !elem_of_singleton, elem_of_empty. tauto.
Qed.

Lemma find_correct_triangles_spec (all_trading_pairs : list capsule)
    (c : list capsule) :
  In c (find_correct_triangles all_trading_pairs) ↔
  In c (combinations all_trading_pairs 3)
  ∧ check_if_triangle c = 3%nat ∧ check_circular_pairs c = true.
Proof.
  unfold find_correct_triangles, find_combinations_of_3.
  rewrite filter_In, andb_true_iff, Nat.eqb_eq. tauto.
Qed.

Lemma circular_mirror (p q : capsule) : circular p q = true ↔ mirror p q.
Proof.
  unfold circular, mirror. rewrite andb_true_iff, !String.eqb_eq. tauto.
Qed.

Lemma mirror_sym (p q : capsule) : mirror p q → mirror q p.
Proof. unfold mirror. intros [-> ->]. split; reflexivity. Qed.

(** [check_circular_pairs] in terms of positions: it answers [True] exactly
    when no couple of positions [i < j] holds a circular couple. *)
Lemma check_circular_pairs_spec (data : list capsule) :
  check_circular_pairs data = true ↔
  ∀ (i j : nat) (p q : capsule),
    (i < j)%nat → data !! i = Some p → data !! j = Some q → ¬ mirror p q.
Proof.
  induction data as [|x rest IH]; simpl.
  - split; [|reflexivity]. intros _ i j p q _ Hi. discriminate.
  - destruct (existsb (circular x) rest) eqn:Hex.
    + split; [discriminate|]. intros Hall. exfalso.
      apply existsb_exists in Hex as (y & Hy & Hxy).
      apply list_elem_of_In, list_elem_of_lookup in Hy as [j Hj].
      apply (Hall 0%nat (S j) x y); [lia|reflexivity|exact Hj|].
      now apply circular_mirror.
    + rewrite IH. split.
      * intros Hall [|i] [|j] p q Hlt Hp Hq; try lia; simpl in *.
        -- injection Hp as ->. intros Hm.
           assert (existsb (circular p) rest = true) as Hc; [|congruence].
           apply existsb_exists. exists q. split.
           ++ apply list_elem_of_In, list_elem_of_lookup. eauto.
           ++ now apply circular_mirror.
        -- apply (Hall i j); [lia|assumption..].
      * intros Hall i j p q Hlt Hp Hq.
        apply (Hall (S i) (S j)); [lia|assumption..].
Qed.

(** C6: every triangle the finder accepts is made of three members of the
    catalog, in catalog order, and the union of the left and right assets of
    its three legs has exactly three elements. *)
Theorem accepted_triangle_has_three_assets
    (all_trading_pairs : list capsule) (triangle : list capsule) :
  In triangle (find_correct_triangles all_trading_pairs) →
  length triangle = 3%nat
  ∧ sublist triangle all_trading_pairs
  ∧ size (assets triangle) = 3%nat.
Proof.
  rewrite find_correct_triangles_spec. intros (Hc & Hsize & _).
  split; [|split].
  - eapply combinations_length, Hc.
  - eapply combinations_sublist, Hc.
  - rewrite assets_union. exact Hsize.
Qed.

Lemma check_circular_pairs_no_mirror (data : list capsule) (i j : nat)
    (p q : capsule) :
  check_circular_pairs data = true →
  i ≠ j → data !! i = Some p → data !! j = Some q → ¬ mirror p q.
Proof.
  rewrite check_circular_pairs_spec. intros Hall Hij Hp Hq Hm.
  destruct (Nat.lt_total i j) as [Hlt|[Heq|Hgt]]; [|contradiction|].
  - exact (Hall i j p q Hlt Hp Hq Hm).
  - exact (Hall j i q p Hgt Hq Hp (mirror_sym _ _ Hm)).
Qed.

(** C7: no triangle the finder accepts holds, at two different positions,
    two legs that are mirror images of each other. *)
Theorem accepted_triangle_has_no_mirror_legs
    (all_trading_pairs : list capsule) (triangle : list capsule)
    (i j : nat) (p q : capsule) :
  In triangle (find_correct_triangles all_trading_pairs) →
  i ≠ j → triangle !! i = Some p → triangle !! j = Some q →
  ¬ mirror p q.
Proof.
  rewrite find_correct_triangles_spec. intros (_ & _ & Hall).
  now apply check_circular_pairs_no_mirror.
Qed.

Lemma accepted_triangle_has_three_assets_witness :
  length [ETHBTC; BNBETH; BNBBTC] = 3%nat
  ∧ sublist [ETHBTC; BNBETH; BNBBTC] [ETHBTC; BNBETH; BNBBTC; BNBBTC_2]
  ∧ size (assets [ETHBTC; BNBETH; BNBBTC]) = 3%nat.
Proof.
  apply (accepted_triangle_has_three_assets
           [ETHBTC; BNBETH; BNBBTC; BNBBTC_2] [ETHBTC; BNBETH; BNBBTC]).
  vm_compute. auto.
Defined.

Lemma accepted_triangle_has_no_mirror_legs_witness : ¬ mirror BNBETH BNBBTC.
Proof.
  apply (accepted_triangle_has_no_mirror_legs
           [ETHBTC; BNBETH; BNBBTC; BNBBTC_2] [ETHBTC; BNBETH; BNBBTC]
           1 2 BNBETH BNBBTC).
  - vm_compute. auto.
  - discriminate.
  - reflexivity.
  - reflexivity.
Defined.

(** The scenario of C7: with the mirrors ABAB = (A, B) and BABA = (B, A) and
    a third pair ABC = (A, C), the finder produces no triangle. *)
Example mirror_scenario_yields_no_triangle :
  find_correct_triangles
    [Capsule "ABAB" "A" "B"; Capsule "BABA" "B" "A"; Capsule "ABC" "A" "C"]
  = [].
Proof. reflexivity. Qed.

(** ** Properties of the leg search *)

Lemma tuple_getitem_lookup {A : Type} (t : list A) (k : nat) (x : A) :
  t !! k = Some x → tuple_getitem t (Z.of_nat k) = Ok x.
Proof.
  intros Hk. pose proof (lookup_lt_Some _ _ _ Hk) as Hlt.
  unfold tuple_getitem.
  destruct (Z.ltb_spec (Z.of_nat k) 0) as [?|_]; [lia|].
  destruct (Z.ltb_spec (Z.of_nat k) 0) as [?|_]; [lia|].
  destruct (Z.leb_spec (Z.of_nat (length t)) (Z.of_nat k)) as [?|_]; [lia|].
  simpl. now rewrite Nat2Z.id, Hk.
Qed.

Lemma search_inner_none (tp : list capsule) (c1 : nat) (e1 : capsule)
    (l : list capsule) (k : nat) :
  (∀ j q, l !! j = Some q → right e1 ≠ left q) →
  search_inner tp c1 e1 (combine (seq k (length l)) l) = Ok None.
Proof.
  revert k. induction l as [|q l IH]; intros k Hno; simpl; [reflexivity|].
  destruct (String.eqb_spec (right e1) (left q)) as [Heq|_].
  - now destruct (Hno 0%nat q eq_refl).
  - apply IH. intros j q' Hj. exact (Hno (S j) q' Hj).
Qed.

Lemma search_inner_first (tp : list capsule) (c1 : nat) (e1 : capsule)
    (l : list capsule) (k j : nat) (q : capsule) :
  l !! j = Some q → right e1 = left q →
  (∀ j' q', (j' < j)%nat → l !! j' = Some q' → right e1 ≠ left q') →
  search_inner tp c1 e1 (combine (seq k (length l)) l)
  = (ac ← tuple_getitem tp
            (Z.of_nat (length tp) - Z.of_nat c1 - Z.of_nat (k + j));
     Ok (Some (Legs c1 (k + j) e1 q ac))).
Proof.
  revert k j. induction l as [|q0 l IH]; intros k j Hj Hq Hmin; [discriminate|].
  simpl. destruct j as [|j]; simpl in Hj.
  - injection Hj as ->. rewrite Hq, String.eqb_refl, Nat.add_0_r. reflexivity.
  - destruct (String.eqb_spec (right e1) (left q0)) as [Heq|_].
    + now destruct (Hmin 0%nat q0 ltac:(lia) eq_refl).
    + rewrite (IH (S k) j Hj Hq).
      * now replace (S k + j)%nat with (k + S j)%nat by lia.
      * intros j' q' Hlt Hj'. apply (Hmin (S j') q'); [lia|exact Hj'].
Qed.

Lemma search_outer_first (tp l : list capsule) (k i j : nat) (p q : capsule) :
  l !! i = Some p → tp !! j = Some q → right p = left q →
  (∀ j' q', (j' < j)%nat → tp !! j' = Some q' → right p ≠ left q') →
  (∀ i' p' j' q', (i' < i)%nat → l !! i' = Some p' → tp !! j' = Some q' →
                  right p' ≠ left q') →
  search_outer tp (combine (seq k (length l)) l)
  = (ac ← tuple_getitem tp
            (Z.of_nat (length tp) - Z.of_nat (k + i) - Z.of_nat j);
     Ok (Some (Legs (k + i) j p q ac))).
Proof.
  revert k i. induction l as [|p0 l IH]; intros k i Hi Hj Hq Hrow Hrows;
    [discriminate|].
  simpl. destruct i as [|i]; simpl in Hi.
  - injection Hi as ->. unfold enumerate.
    rewrite (search_inner_first tp k p tp 0 j q Hj Hq Hrow), Nat.add_0_r.
    simpl. now destruct (tuple_getitem tp _).
  - unfold enumerate. rewrite search_inner_none.
    + simpl. rewrite (IH (S k) i Hi Hj Hq Hrow).
      * now replace (S k + i)%nat with (k + S i)%nat by lia.
      * intros i' p' j' q' Hlt Hi' Hj'.
        apply (Hrows (S i') p' j' q'); [lia|exact Hi'|exact Hj'].
    + intros j' q' Hj'. apply (Hrows 0%nat p0 j' q'); [lia|reflexivity|exact Hj'].
Qed.

Lemma search_outer_none (tp l : list capsule) (k : nat) :
  (∀ i p j q, l !! i = Some p → tp !! j = Some q → right p ≠ left q) →
  search_outer tp (combine (seq k (length l)) l) = Ok None.
Proof.
  revert k. induction l as [|p0 l IH]; intros k Hno; simpl; [reflexivity|].
  unfold enumerate. rewrite search_inner_none.
  - simpl. apply IH. intros i p j q Hi. exact (Hno (S i) p j q Hi).
  - intros j q. exact (Hno 0%nat p0 j q eq_refl).
Qed.

(** The search stops at the first chaining couple of positions and indexes
    the tuple at [len(trading_pairs) - count1 - count2]. *)
Lemma search_first (tp : list capsule) (i j : nat) (p q : capsule) :
  first_chain_at tp i j → tp !! i = Some p → tp !! j = Some q →
  search tp
  = (ac ← tuple_getitem tp
            (Z.of_nat (length tp) - Z.of_nat i - Z.of_nat j);
     Ok (Some (Legs i j p q ac))).
Proof.
  intros [(p0 & q0 & Hp0 & Hq0 & Hpq) Hmin] Hp Hq.
  assert (p0 = p) as -> by congruence. assert (q0 = q) as -> by congruence.
  unfold search, enumerate.
  apply (search_outer_first tp tp 0 i j p q Hp Hq Hpq).
  - intros j' q' Hlt Hj' Heq. apply (Hmin i j'); [lia|].
    exists p, q'. auto.
  - intros i' p' j' q' Hlt Hi' Hj' Heq. apply (Hmin i' j'); [lia|].
    exists p', q'. auto.
Qed.

(** Without any chaining couple the search leaves AB, BC and AC at [None]. *)
Lemma search_none (tp : list capsule) :
  (∀ i j, ¬ chain_at tp i j) → search tp = Ok None.
Proof.
  intros Hno. unfold search, enumerate. apply search_outer_none.
  intros i p j q Hi Hj Heq. apply (Hno i j). exists p, q. auto.
Qed.

Lemma first_in_row (e1 : capsule) (l : list capsule) :
  (∀ j q, l !! j = Some q → right e1 ≠ left q)
  ∨ (∃ j q, l !! j = Some q ∧ right e1 = left q
            ∧ ∀ j' q', (j' < j)%nat → l !! j' = Some q' → right e1 ≠ left q').
Proof.
  induction l as [|q0 l IH].
  - left. intros j q Hj. discriminate.
  - destruct (decide (right e1 = left q0)) as [Heq|Hne].
    + right. exists 0%nat, q0. repeat split; [exact Heq|]. intros j' q' Hlt. lia.
    + destruct IH as [Hno|(j & q & Hj & Hq & Hmin)].
      * left. intros [|j] q Hj; simpl in Hj; [congruence|eauto].
      * right. exists (S j), q. repeat split; [exact Hj|exact Hq|].
        intros [|j'] q' Hlt Hj'; simpl in Hj'; [congruence|].
        apply (Hmin j' q'); [lia|exact Hj'].
Qed.

Lemma first_row (tp l : list capsule) :
  (∀ i p j q, l !! i = Some p → tp !! j = Some q → right p ≠ left q)
  ∨ (∃ i p j q,
       l !! i = Some p ∧ tp !! j = Some q ∧ right p = left q
       ∧ (∀ j' q', (j' < j)%nat → tp !! j' = Some q' → right p ≠ left q')
       ∧ (∀ i' p' j' q', (i' < i)%nat → l !! i' = Some p' →
                         tp !! j' = Some q' → right p' ≠ left q')).
Proof.
  induction l as [|p0 l IH].
  - left. intros i p j q Hi. discriminate.
  - destruct (first_in_row p0 tp) as [Hrow|(j & q & Hj & Hq & Hmin)].
    + destruct IH as [Hno|(i & p & j & q & Hi & Hj & Hq & Hmin & Hrows)].
      * left. intros [|i] p j q Hi Hj; simpl in Hi; [|eauto].
        injection Hi as <-. eauto.
      * right. exists (S i), p, j, q. repeat split; try assumption.
        intros [|i'] p' j' q' Hlt Hi' Hj'; simpl in Hi'.
        -- injection Hi' as <-. eauto.
        -- apply (Hrows i' p' j' q'); [lia|assumption..].
    + right. exists 0%nat, p0, j, q. repeat split; try assumption.
      intros i' p' j' q' Hlt. lia.
Qed.

(** A tuple either has no chaining couple of positions or has a first one. *)
Lemma first_chain_cases (tp : list capsule) :
  (∀ i j, ¬ chain_at tp i j) ∨ (∃ i j, first_chain_at tp i j).
Proof.
  destruct (first_row tp tp) as [Hno|(i & p & j & q & Hi & Hj & Hq & Hmin & Hrows)].
  - left. intros i j (p & q & Hi & Hj & Hq). exact (Hno i p j q Hi Hj Hq).
  - right. exists i, j. split; [exists p, q; auto|].
    intros i' j' Hlt (p' & q' & Hi' & Hj' & Hq').
    destruct Hlt as [Hlt|[-> Hlt]].
    + exact (Hrows i' p' j' q' Hlt Hi' Hj' Hq').
    + assert (p' = p) as -> by congruence.
      exact (Hmin j' q' Hlt Hj' Hq').
Qed.

(** In a tuple of three pairs, a first chaining couple at two different
    positions makes the search index the third position. *)
Lemma search_third (tp : list capsule) (i j : nat) :
  length tp = 3%nat → first_chain_at tp i j → i ≠ j →
  ∃ (k : nat) (p q r : capsule),
    Z.of_nat k = Z.of_nat (length tp) - Z.of_nat i - Z.of_nat j
    ∧ (k < 3)%nat ∧ k ≠ i ∧ k ≠ j
    ∧ tp !! i = Some p ∧ tp !! j = Some q ∧ tp !! k = Some r
    ∧ right p = left q
    ∧ search tp = Ok (Some (Legs i j p q r)).
Proof.
  intros Hlen Hfirst Hij.
  destruct Hfirst as [(p & q & Hp & Hq & Hpq) Hmin].
  pose proof (lookup_lt_Some _ _ _ Hp) as Hi.
  pose proof (lookup_lt_Some _ _ _ Hq) as Hj.
  assert (∃ k : nat, (k < 3)%nat ∧ k ≠ i ∧ k ≠ j
                     ∧ Z.of_nat k = 3 - Z.of_nat i - Z.of_nat j)
    as (k & Hk & Hki & Hkj & Hkz).
  { exists (3 - i - j)%nat. lia. }
  destruct (lookup_lt_is_Some_2 tp k) as [r Hr]; [lia|].
  exists k, p, q, r. rewrite Hlen. repeat split; try assumption.
  rewrite (search_first tp i j p q); try assumption.
  - rewrite Hlen. change (Z.of_nat 3) with 3. rewrite <- Hkz.
    now rewrite (tuple_getitem_lookup _ _ _ Hr).
  - split; [exists p, q; auto|exact Hmin].
Qed.

(** C10: in a tuple of three pairs, when the first chaining couple of
    positions [(i, j)] has [i ≠ j], the index [len(trading_pairs) - i - j]
    is the one position of the tuple that is neither [i] nor [j]; the search
    returns the pair at [i] as AB, the pair at [j] as BC and the pair at that
    third position as AC. *)
Theorem search_selects_third_index (trading_pairs : list capsule) (i j : nat) :
  length trading_pairs = 3%nat →
  first_chain_at trading_pairs i j →
  i ≠ j →
  ∃ (k : nat) (p q r : capsule),
    Z.of_nat k = Z.of_nat (length trading_pairs) - Z.of_nat i - Z.of_nat j
    ∧ (k < 3)%nat ∧ k ≠ i ∧ k ≠ j
    ∧ trading_pairs !! i = Some p
    ∧ trading_pairs !! j = Some q
    ∧ trading_pairs !! k = Some r
    ∧ search trading_pairs = Ok (Some (Legs i j p q r)).
Proof.
  intros Hlen Hfirst Hij.
  destruct (search_third trading_pairs i j Hlen Hfirst Hij)
    as (k & p & q & r & H1 & H2 & H3 & H4 & H5 & H6 & H7 & _ & H8).
  exists k, p, q, r. auto 10.
Qed.

Lemma search_selects_third_index_witness :
  ∃ (k : nat) (p q r : capsule),
    Z.of_nat k = 3 - 1 - 0
    ∧ (k < 3)%nat ∧ k ≠ 1%nat ∧ k ≠ 0%nat
    ∧ [ETHBTC; BNBETH; BNBBTC] !! 1%nat = Some p
    ∧ [ETHBTC; BNBETH; BNBBTC] !! 0%nat = Some q
    ∧ [ETHBTC; BNBETH; BNBBTC] !! k = Some r
    ∧ search [ETHBTC; BNBETH; BNBBTC]
      = Ok (Some (Legs 1 0 p q r)).
Proof.
  apply (search_selects_third_index [ETHBTC; BNBETH; BNBBTC] 1 0).
  - reflexivity.
  - split.
    + eexists _, _. repeat split; reflexivity.
    + intros i' j' Hlt (p & q & Hp & Hq & Hpq).
      assert (i' = 0%nat) as -> by lia.
      destruct j' as [|[|[|j']]]; simpl in Hp, Hq;
        simplify_eq; discriminate.
  - discriminate.
Defined.

(** ** Chaining of the accepted triangles *)

Lemma size3_elem (S : gset string) (a b c x : string) :
  size S = 3%nat → a ∈ S → b ∈ S → c ∈ S → a ≠ b → b ≠ c → a ≠ c →
  x ∈ S → x = a ∨ x = b ∨ x = c.
Proof.
  intros Hsize Ha Hb Hc Hab Hbc Hac Hx.
  assert (({[a]} ∪ ({[b]} ∪ {[c]}) : gset string) ≡ S) as Heq.
  { apply set_subseteq_size_equiv.
    - intros y. rewrite !elem_of_union, !elem_of_singleton.
      intros [->|[->| ->]]; assumption.
    - rewrite Hsize, size_union, size_union, !size_singleton; [lia| |].
      + intros y. rewrite !elem_of_singleton. congruence.
      + intros y. rewrite elem_of_union, !elem_of_singleton.
        intros -> [?|?]; congruence. }
  apply Heq in Hx. revert Hx. rewrite !elem_of_union, !elem_of_singleton. tauto.
Qed.

Lemma elem_of_assets (data : list capsule) (p : capsule) :
  p ∈ data → left p ∈ assets data ∧ right p ∈ assets data.
Proof.
  intros Hp. unfold assets. rewrite !elem_of_list_to_set, !list_elem_of_bind.
  split; exists p; (split; [|exact Hp]); rewrite !elem_of_cons; auto.
Qed.

(** The third pair of a chain over three assets trades the two ends of the
    chain. The pairs are AB = (a, b), BC = (b, c) and the third (x, y). *)
Lemma closing_pair (S : gset string) (a b c x y : string) :
  size S = 3%nat → a ∈ S → b ∈ S → c ∈ S → x ∈ S → y ∈ S →
  a ≠ b → b ≠ c → x ≠ y → a ≠ c →
  ¬ (a = y ∧ b = x) → ¬ (b = y ∧ c = x) →
  ¬ (a = x ∧ b = y) → ¬ (b = x ∧ c = y) →
  (x = a ∧ y = c) ∨ (x = c ∧ y = a).
Proof.
  intros Hsize Ha Hb Hc Hx Hy Hab Hbc Hxy Hac M1 M2 D1 D2.
  destruct (size3_elem S a b c x) as [->|[->| ->]]; try assumption;
  destruct (size3_elem S a b c y) as [->|[->| ->]]; try assumption;
  tauto.
Qed.

(** Three pairs over three assets of which none trades an asset with
    itself and no two trade the same (left, right) always hold a chaining
    couple. *)
Lemma some_chain (S : gset string) (l0 r0 l1 r1 l2 r2 : string) :
  size S = 3%nat →
  l0 ∈ S → r0 ∈ S → l1 ∈ S → r1 ∈ S → l2 ∈ S → r2 ∈ S →
  l0 ≠ r0 →
  ¬ (l0 = l1 ∧ r0 = r1) → ¬ (l0 = l2 ∧ r0 = r2) → ¬ (l1 = l2 ∧ r1 = r2) →
  r0 ≠ l1 → r0 ≠ l2 → r1 ≠ l0 → r1 ≠ l1 → r1 ≠ l2 → r2 ≠ l0 → r2 ≠ l1 →
  r2 ≠ l2 → False.
Proof.
  intros Hsize H0 H0' H1 H1' H2 H2' L0 D01 D02 D12 ? ? ? ? ? ? ? ?.
  destruct (decide (l0 = l1)) as [Hl|Hl].
  - assert (r0 ≠ r1) as Hr by tauto.
    assert (l0 ≠ r1) by congruence.
    destruct (size3_elem S l0 r0 r1 l2) as [E|[E|E]];
      try assumption; try congruence.
    destruct (size3_elem S l0 r0 r1 r2) as [E'|[E'|E']];
      try assumption; try congruence; subst; tauto.
  - destruct (size3_elem S l0 l1 r0 r1) as [E|[E|E]];
      try assumption; try congruence.
    destruct (size3_elem S l0 l1 r0 r2) as [E'|[E'|E']];
      try assumption; try congruence.
    destruct (size3_elem S l0 l1 r0 l2) as [E''|[E''|E'']];
      try assumption; try congruence; subst; tauto.
Qed.

Lemma lookup3 {A : Type} (x0 x1 x2 : A) (i : nat) (x : A) :
  [x0; x1; x2] !! i = Some x →
  (i = 0%nat ∧ x = x0) ∨ (i = 1%nat ∧ x = x1) ∨ (i = 2%nat ∧ x = x2).
Proof.
  destruct i as [|[|[|i]]]; simpl; intros H; simplify_eq; auto.
Qed.

(** The finder accepts combinations that cannot be chained. In the catalog
    ETHBTC, BNBETH, BNBBTC, BNBBTC2 it accepts (ETHBTC, BNBETH, BNBBTC), which
    has no closed chain (BNBETH chains into ETHBTC, but BNBBTC runs from BNB
    to BTC and closes nothing), and it accepts (ETHBTC, BNBBTC, BNBBTC2), in
    which no pair chains into any pair: there the search leaves AB, BC and AC
    at [None] and the evaluation raises TypeError. *)
Lemma finder_accepts_unchained :
  In [ETHBTC; BNBETH; BNBBTC]
     (find_correct_triangles [ETHBTC; BNBETH; BNBBTC; BNBBTC_2])
  ∧ ¬ closed_chain [ETHBTC; BNBETH; BNBBTC]
  ∧ In [ETHBTC; BNBBTC; BNBBTC_2]
       (find_correct_triangles [ETHBTC; BNBETH; BNBBTC; BNBBTC_2])
  ∧ ¬ chained [ETHBTC; BNBBTC; BNBBTC_2]
  ∧ search [ETHBTC; BNBBTC; BNBBTC_2] = Ok None
  ∧ ∀ book result,
      calculate_triangular_arbitrage book result [ETHBTC; BNBBTC; BNBBTC_2]
      = Raise TypeError.
Proof.
  split; [vm_compute; auto|]. split.
  { intros (i & j & k & Hij & Hjk & Hik
            & (p & q & Hp & Hq & Hpq) & (q' & r & Hq' & Hr & Hqr)
            & (r' & p' & Hr' & Hp' & Hrp)).
    apply lookup3 in Hp, Hq, Hq', Hr, Hr', Hp'.
    destruct Hp as [[-> ->]|[[-> ->]|[-> ->]]];
      destruct Hq as [[-> ->]|[[-> ->]|[-> ->]]]; try discriminate Hpq;
      destruct Hr as [[-> ->]|[[-> ->]|[-> ->]]]; try discriminate Hqr;
      try contradiction;
      destruct Hq' as [[? ->]|[[? ->]|[? ->]]]; try discriminate;
      destruct Hr' as [[? ->]|[[? ->]|[? ->]]]; try discriminate;
      destruct Hp' as [[? ->]|[[? ->]|[? ->]]]; discriminate. }
  split; [vm_compute; auto|]. split.
  { intros (i & j & _ & (p & q & Hp & Hq & Hpq)).
    apply lookup3 in Hp, Hq.
    destruct Hp as [[-> ->]|[[-> ->]|[-> ->]]];
      destruct Hq as [[-> ->]|[[-> ->]|[-> ->]]]; discriminate Hpq. }
  split; [reflexivity|]. intros book result. reflexivity.
Qed.

(** A pair that trades an asset with itself can be accepted too, and it
    ends the search with an exception: the first match is the pair with
    itself at position 0, and the index 3 - 0 - 0 is out of range. *)
Example self_trading_pair_breaks_search :
  In [Capsule "XX" "X" "X"; Capsule "XY" "X" "Y"; Capsule "YZ" "Y" "Z"]
     (find_correct_triangles
        [Capsule "XX" "X" "X"; Capsule "XY" "X" "Y"; Capsule "YZ" "Y" "Z"])
  ∧ search [Capsule "XX" "X" "X"; Capsule "XY" "X" "Y"; Capsule "YZ" "Y" "Z"]
    = Raise IndexError.
Proof. split; [vm_compute; auto|reflexivity]. Qed.

(** C1, as the code has it: the finder tests the number of assets and the
    circular couples only. Every combination it accepts in which each pair
    trades two different assets and no two pairs trade the same assets in
    the same direction is chained: the search stops at two different
    positions, AB chains into BC, AC is the third member, and AC trades the
    left asset of AB and the right asset of BC, in one direction or the
    other. *)
Theorem accepted_proper_triangle_is_chained
    (all_trading_pairs : list capsule) (triangle : list capsule) :
  In triangle (find_correct_triangles all_trading_pairs) →
  (∀ p, p ∈ triangle → left p ≠ right p) →
  (∀ i j p q, i ≠ j → triangle !! i = Some p → triangle !! j = Some q →
              ¬ same_direction p q) →
  ∃ l k,
    search triangle = Ok (Some l)
    ∧ first_chain_at triangle (count1 l) (count2 l)
    ∧ count1 l ≠ count2 l ∧ k ≠ count1 l ∧ k ≠ count2 l
    ∧ triangle !! count1 l = Some (AB l)
    ∧ triangle !! count2 l = Some (BC l)
    ∧ triangle !! k = Some (AC l)
    ∧ right (AB l) = left (BC l)
    ∧ ((left (AC l) = left (AB l) ∧ right (AC l) = right (BC l))
       ∨ (left (AC l) = right (BC l) ∧ right (AC l) = left (AB l))).
Proof.
  rewrite find_correct_triangles_spec. intros (Hcomb & Hsize & Hcirc) Hloop Hdup.
  pose proof (combinations_length _ _ _ Hcomb) as Hlen.
  unfold check_if_triangle in Hsize. rewrite <- assets_union in Hsize.
  assert (∀ i p, triangle !! i = Some p →
                 left p ∈ assets triangle ∧ right p ∈ assets triangle
                 ∧ left p ≠ right p) as Hin.
  { intros i p Hp. apply list_elem_of_lookup_2 in Hp.
    destruct (elem_of_assets _ _ Hp). auto. }
  destruct (first_chain_cases triangle) as [Hno|(i & j & Hfirst)].
  - exfalso.
    destruct triangle as [|p0 [|p1 [|p2 [|]]]]; try discriminate Hlen.
    assert (∀ i j p q, [p0; p1; p2] !! i = Some p → [p0; p1; p2] !! j = Some q →
                       right p ≠ left q) as Hne.
    { intros i j p q Hp Hq Heq. apply (Hno i j). exists p, q. auto. }
    destruct (Hin 0%nat p0 eq_refl) as (? & ? & ?).
    destruct (Hin 1%nat p1 eq_refl) as (? & ? & ?).
    destruct (Hin 2%nat p2 eq_refl) as (? & ? & ?).
    apply (some_chain (assets [p0; p1; p2])
             (left p0) (right p0) (left p1) (right p1) (left p2) (right p2));
      try assumption.
    + apply (Hdup 0%nat 1%nat); [lia|reflexivity..].
    + apply (Hdup 0%nat 2%nat); [lia|reflexivity..].
    + apply (Hdup 1%nat 2%nat); [lia|reflexivity..].
    + apply (Hne 0%nat 1%nat); reflexivity.
    + apply (Hne 0%nat 2%nat); reflexivity.
    + apply (Hne 1%nat 0%nat); reflexivity.
    + apply (Hne 1%nat 1%nat); reflexivity.
    + apply (Hne 1%nat 2%nat); reflexivity.
    + apply (Hne 2%nat 0%nat); reflexivity.
    + apply (Hne 2%nat 1%nat); reflexivity.
    + apply (Hne 2%nat 2%nat); reflexivity.
  - assert (i ≠ j) as Hij.
    { intros ->. destruct Hfirst as [(p & q & Hp & Hq & Hpq) _].
      assert (q = p) as -> by congruence.
      destruct (Hin j p Hp) as (_ & _ & Hl). congruence. }
    destruct (search_third triangle i j Hlen Hfirst Hij)
      as (k & p & q & r & _ & _ & Hki & Hkj & Hp & Hq & Hr & Hpq & Hsearch).
    exists (Legs i j p q r), k. simpl.
    split; [exact Hsearch|]. split; [exact Hfirst|].
    repeat (split; [assumption|]).
    destruct (Hin i p Hp) as (? & ? & ?).
    destruct (Hin j q Hq) as (? & ? & ?).
    destruct (Hin k r Hr) as (? & ? & ?).
    pose proof (check_circular_pairs_no_mirror _ i j p q Hcirc Hij Hp Hq) as M0.
    pose proof (check_circular_pairs_no_mirror _ i k p r Hcirc
                  (not_eq_sym Hki) Hp Hr) as M1.
    pose proof (check_circular_pairs_no_mirror _ j k q r Hcirc
                  (not_eq_sym Hkj) Hq Hr) as M2.
    pose proof (Hdup i k p r (not_eq_sym Hki) Hp Hr) as D1.
    pose proof (Hdup j k q r (not_eq_sym Hkj) Hq Hr) as D2.
    unfold mirror, same_direction in *.
    apply (closing_pair (assets triangle) (left p) (right p) (right q));
      try assumption; try congruence.
    intros E. apply M0. split; congruence.
Qed.

Lemma accepted_proper_triangle_is_chained_witness :
  ∃ l k,
    search [ETHBTC; BNBETH; BNBBTC] = Ok (Some l)
    ∧ first_chain_at [ETHBTC; BNBETH; BNBBTC] (count1 l) (count2 l)
    ∧ count1 l ≠ count2 l ∧ k ≠ count1 l ∧ k ≠ count2 l
    ∧ [ETHBTC; BNBETH; BNBBTC] !! count1 l = Some (AB l)
    ∧ [ETHBTC; BNBETH; BNBBTC] !! count2 l = Some (BC l)
    ∧ [ETHBTC; BNBETH; BNBBTC] !! k = Some (AC l)
    ∧ right (AB l) = left (BC l)
    ∧ ((left (AC l) = left (AB l) ∧ right (AC l) = right (BC l))
       ∨ (left (AC l) = right (BC l) ∧ right (AC l) = left (AB l))).
Proof.
  apply (accepted_proper_triangle_is_chained
           [ETHBTC; BNBETH; BNBBTC; BNBBTC_2] [ETHBTC; BNBETH; BNBBTC]).
  - vm_compute. auto.
  - intros p Hp. apply list_elem_of_lookup in Hp as [i Hp].
    apply lookup3 in Hp as [[_ ->]|[[_ ->]|[_ ->]]]; discriminate.
  - intros i j p q Hij Hp Hq [Hl Hr].
    apply lookup3 in Hp as [[-> ->]|[[-> ->]|[-> ->]]];
      apply lookup3 in Hq as [[-> ->]|[[-> ->]|[-> ->]]];
      try contradiction; discriminate.
Defined.

(** ** Triangle codes *)

Lemma arbitrage_code_display (ab bc : capsule) :
  arbitrage_code ab bc = display_code (left ab) (right ab) (right bc).
Proof. reflexivity. Qed.

(** The code the detector derives in the scenario of the three pairs is
    none of the rotations of ETH-BNB-BTC: it is BNB-ETH-BTC, the same three
    assets in the opposite orientation. *)
Lemma scenario_code_is_no_rotation :
  find_correct_triangles
    (fetch_trading_pairs ["BTC"; "ETH"; "BNB"] trading_pair_limit
       scenario_symbols)
  = [[ETHBTC; BNBETH; BNBBTC]]
  ∧ search [ETHBTC; BNBETH; BNBBTC]
    = Ok (Some (Legs 1 0 BNBETH ETHBTC BNBBTC))
  ∧ ¬ In (arbitrage_code BNBETH ETHBTC) (rotation_codes "ETH" "BNB" "BTC").
Proof.
  split; [reflexivity|]. split; [reflexivity|].
  simpl. intros [H|[H|[H|[]]]]; discriminate H.
Qed.

(** C8, as the code has it: from the catalog ETHBTC, BNBETH, BNBBTC with
    the target assets BTC, ETH and BNB the finder produces exactly one
    triangle; the search makes BNBETH the leg AB, ETHBTC the leg BC and
    BNBBTC the leg AC, and the code derived is "BNB-ETH-BTC": with the
    quotes of the scenario that is the one key of the published result. *)
Theorem scenario_yields_one_triangle :
  fetch_trading_pairs ["BTC"; "ETH"; "BNB"] trading_pair_limit scenario_symbols
  = [ETHBTC; BNBETH; BNBBTC]
  ∧ find_correct_triangles [ETHBTC; BNBETH; BNBBTC]
    = [[ETHBTC; BNBETH; BNBBTC]]
  ∧ search [ETHBTC; BNBETH; BNBBTC]
    = Ok (Some (Legs 1 0 BNBETH ETHBTC BNBBTC))
  ∧ arbitrage_code BNBETH ETHBTC = "BNB-ETH-BTC"
  ∧ calculate_triangular_arbitrage scenario_book ∅ [ETHBTC; BNBETH; BNBBTC]
    = Ok (<["BNB-ETH-BTC" :=
              Row [("BNBETH", dec 15 (-2)); ("ETHBTC", dec 5 (-2));
                   ("BNBBTC", dec 76 (-4))]
                  [("BNBETH", dec 149 (-3)); ("ETHBTC", dec 499 (-4));
                   ("BNBBTC", dec 75 (-4))] "YES"]> ∅).
Proof.
  repeat (split; [reflexivity|]). vm_compute. reflexivity.
Qed.

Lemma split_on_dash_free (s : string) :
  dash_free s = true → split_on "-"%char s = [s].
Proof.
  induction s as [|c s IH]; simpl; [reflexivity|].
  rewrite andb_true_iff, negb_true_iff. intros [-> Hs].
  now rewrite (IH Hs).
Qed.

Lemma split_on_append (s t : string) :
  dash_free s = true →
  split_on "-"%char (s +:+ "-" +:+ t) = s :: split_on "-"%char t.
Proof.
  induction s as [|c s IH]; simpl; [reflexivity|].
  rewrite andb_true_iff, negb_true_iff. intros [-> Hs].
  now rewrite (IH Hs).
Qed.

(** The code of a triangle does not always parse back to its assets. With
    the asset "A-B" the code of the legs (A-B, C), (C, D) is "A-B-C-D", which
    has four parts; it is also the code of the legs (A, B-C), (B-C, D) of
    another accepted triangle, so no parse can recover both triples. *)
Lemma code_with_separator_does_not_parse :
  In [Capsule "s1" "A-B" "C"; Capsule "s2" "C" "D"; Capsule "s3" "A-B" "D"]
     (find_correct_triangles
        [Capsule "s1" "A-B" "C"; Capsule "s2" "C" "D"; Capsule "s3" "A-B" "D"])
  ∧ search [Capsule "s1" "A-B" "C"; Capsule "s2" "C" "D";
            Capsule "s3" "A-B" "D"]
    = Ok (Some (Legs 0 1 (Capsule "s1" "A-B" "C") (Capsule "s2" "C" "D")
                  (Capsule "s3" "A-B" "D")))
  ∧ parse_code (arbitrage_code (Capsule "s1" "A-B" "C") (Capsule "s2" "C" "D"))
    ≠ Some ("A-B", "C", "D")
  ∧ search [Capsule "t1" "A" "B-C"; Capsule "t2" "B-C" "D";
            Capsule "t3" "A" "D"]
    = Ok (Some (Legs 0 1 (Capsule "t1" "A" "B-C") (Capsule "t2" "B-C" "D")
                  (Capsule "t3" "A" "D")))
  ∧ arbitrage_code (Capsule "t1" "A" "B-C") (Capsule "t2" "B-C" "D")
    = arbitrage_code (Capsule "s1" "A-B" "C") (Capsule "s2" "C" "D").
Proof.
  split; [vm_compute; auto|]. split; [reflexivity|].
  split; [discriminate|]. split; reflexivity.
Qed.

(** C9, as the code has it: when none of the three assets of the legs holds
    the separator, splitting the code derived from the legs at the
    separators gives back the ordered triple (left of AB, right of AB, right
    of BC) the code was built from. *)
Theorem code_round_trip (l : legs) :
  dash_free (left (AB l)) = true →
  dash_free (right (AB l)) = true →
  dash_free (right (BC l)) = true →
  parse_code (arbitrage_code (AB l) (BC l))
  = Some (left (AB l), right (AB l), right (BC l)).
Proof.
  intros HA HB HC. unfold parse_code, arbitrage_code.
  rewrite (split_on_append _ _ HA), (split_on_append _ _ HB).
  now rewrite (split_on_dash_free _ HC).
Qed.

Lemma code_round_trip_witness :
  parse_code (arbitrage_code BNBETH ETHBTC) = Some ("BNB", "ETH", "BTC").
Proof.
  apply (code_round_trip (Legs 1 0 BNBETH ETHBTC BNBBTC)); reflexivity.
Defined.

(** ** Bounds on decimal arithmetic *)

Module PyDecimalFacts.
Import PyDecimal.

Lemma pow10_pos (k : Z) : 0 ≤ k → 0 < 10 ^ k.
Proof. intros Hk. apply Z.pow_pos_nonneg; lia. Qed.

Lemma pow10_le (a b : Z) : 0 ≤ a ≤ b → 10 ^ a ≤ 10 ^ b.
Proof. intros H. apply Z.pow_le_mono_r; lia. Qed.

Lemma pow10_lt (a b : Z) : 0 ≤ a < b → 10 ^ a < 10 ^ b.
Proof. intros H. apply Z.pow_lt_mono_r; lia. Qed.

Lemma pow10_succ (k : Z) : 0 ≤ k → 10 ^ (k + 1) = 10 * 10 ^ k.
Proof. intros Hk. rewrite Z.pow_add_r by lia. lia. Qed.

(** A number below a power of ten has a nonnegative exponent there. *)
Lemma pow10_gt_exponent (n k : Z) : 0 < n → n < 10 ^ k → 1 ≤ k.
Proof.
  intros Hn Hlt. destruct (Z.lt_ge_cases k 1) as [Hk|Hk]; [|exact Hk].
  exfalso. destruct (Z.eq_dec k 0) as [->|Hk0].
  - change (10 ^ 0) with 1 in Hlt. lia.
  - rewrite Z.pow_neg_r in Hlt by lia. lia.
Qed.

Lemma pow10_quotient (m n k e : Z) :
  0 ≤ k ≤ e → m * 10 ^ k ≤ n → n < 10 ^ e → m < 10 ^ (e - k).
Proof.
  intros Hk Hm Hn. pose proof (pow10_pos k ltac:(lia)) as Hpos.
  apply (Z.mul_lt_mono_pos_r (10 ^ k)); [exact Hpos|].
  rewrite <- Z.pow_add_r by lia. replace (e - k + k) with e by lia. lia.
Qed.

Lemma len_fuel_spec (fuel : nat) (n : N) :
  (n < 2 ^ N.of_nat fuel)%N → (0 < n)%N →
  1 ≤ len_fuel fuel n
  ∧ 10 ^ (len_fuel fuel n - 1) ≤ Z.of_N n < 10 ^ len_fuel fuel n.
Proof.
  revert n. induction fuel as [|fuel IH]; intros n Hfuel Hpos.
  - simpl in Hfuel. lia.
  - simpl len_fuel. destruct (N.ltb_spec n 10) as [Hlt|Hge].
    + change (10 ^ (1 - 1)) with 1. change (10 ^ 1) with 10. lia.
    + assert (n / 10 < 2 ^ N.of_nat fuel)%N as Hdiv.
      { rewrite Nat2N.inj_succ, N.pow_succ_r' in Hfuel.
        apply N.Div0.div_lt_upper_bound. lia. }
      assert (0 < n / 10)%N as Hq.
      { apply N.div_str_pos. lia. }
      destruct (IH (n / 10)%N Hdiv Hq) as (H1 & Hlo & Hhi).
      rewrite N2Z.inj_div in Hlo, Hhi. change (Z.of_N 10) with 10 in *.
      set (l := len_fuel fuel (n / 10)) in *.
      replace (1 + l - 1) with (l - 1 + 1) by lia.
      replace (1 + l) with (l + 1) by lia.
      rewrite !pow10_succ by lia.
      pose proof (Z.div_mod (Z.of_N n) 10 ltac:(lia)).
      pose proof (Z.mod_pos_bound (Z.of_N n) 10 ltac:(lia)).
      lia.
Qed.

Lemma len_spec (n : N) :
  (0 < n)%N →
  1 ≤ len n ∧ 10 ^ (len n - 1) ≤ Z.of_N n < 10 ^ len n.
Proof.
  intros Hpos. apply len_fuel_spec; [|exact Hpos].
  rewrite N2Nat.id. apply N.size_gt.
Qed.

Lemma len_le (n : N) (m : Z) : (0 < n)%N → Z.of_N n < 10 ^ m → len n ≤ m.
Proof.
  intros Hpos Hlt. destruct (len_spec n Hpos) as (H1 & Hlo & _).
  destruct (Z.le_gt_cases (len n) m) as [H|H]; [exact H|]. exfalso.
  assert (1 ≤ m) by (apply (pow10_gt_exponent (Z.of_N n)); lia).
  pose proof (pow10_le m (len n - 1) ltac:(lia)). lia.
Qed.

Lemma small_mono (d : t) (b b' : Z) : b ≤ b' → small d b → small d b'.
Proof.
  intros Hb [Hz|Hlt]; [left; exact Hz|].
  destruct (N.eq_0_gt_0_cases (_int d)) as [Hz|Hpos]; [left; exact Hz|].
  right. assert (1 ≤ b + 1 - _exp d)
    by (apply (pow10_gt_exponent (Z.of_N (_int d))); lia).
  pose proof (pow10_le (b + 1 - _exp d) (b' + 1 - _exp d) ltac:(lia)). lia.
Qed.

Lemma adjusted_small (d : t) (b : Z) :
  (0 < _int d)%N → adjusted d ≤ b → small d b.
Proof.
  intros Hpos Hadj. right. unfold adjusted in Hadj.
  destruct (len_spec _ Hpos) as (H1 & _ & Hhi).
  pose proof (pow10_le (len (_int d)) (b + 1 - _exp d) ltac:(lia)). lia.
Qed.

Lemma adjusted_big (d : t) (b : Z) :
  (0 < _int d)%N → b ≤ adjusted d → big d b.
Proof.
  intros Hpos Hadj. split; [exact Hpos|]. unfold adjusted in Hadj.
  destruct (len_spec _ Hpos) as (H1 & Hlo & _).
  destruct (Z.lt_ge_cases (b - _exp d) 0) as [Hneg|Hnn].
  - rewrite Z.pow_neg_r by lia. lia.
  - pose proof (pow10_le (b - _exp d) (len (_int d) - 1) ltac:(lia)). lia.
Qed.

Lemma fix_small (d : t) (b : Z) :
  small d b → b < Emax →
  ∃ d', _fix d = Ok d' ∧ small d' (b + 1) ∧ _sign d' = _sign d.
Proof.
  intros Hsmall Hb. unfold _fix, nonzero.
  destruct (N.eqb_spec (_int d) 0) as [Hz|Hnz]; simpl.
  { eexists. split; [reflexivity|]. split; [left|]; reflexivity. }
  assert (0 < _int d)%N as Hpos by lia.
  destruct Hsmall as [Hz|Hlt]; [contradiction|].
  set (e := b + 1 - _exp d) in *.
  pose proof (pow10_gt_exponent (Z.of_N (_int d)) e ltac:(lia) Hlt) as He.
  pose proof (len_le _ _ Hpos Hlt) as Hlen.
  destruct (len_spec _ Hpos) as (Hlen1 & _ & _).
  unfold Etop, Etiny, Emin, Emax, prec in *.
  destruct (Z.ltb_spec (999999 - 28 + 1) (len (_int d) + _exp d - 28))
    as [?|_]; [lia|].
  set (exp_min := if len (_int d) + _exp d - 28 <? -999999 - 28 + 1
                  then -999999 - 28 + 1 else len (_int d) + _exp d - 28).
  assert (exp_min < 999999 - 28 + 1 ∧ len (_int d) + _exp d - 28 ≤ exp_min)
    as [Htop Hmin].
  { subst exp_min. destruct (Z.ltb_spec (len (_int d) + _exp d - 28)
                               (-999999 - 28 + 1)); lia. }
  clearbody exp_min.
  destruct (Z.ltb_spec (_exp d) exp_min) as [Hround|Hkeep].
  2:{ exists d. split; [reflexivity|]. split; [|reflexivity].
      right. fold e. replace (b + 1 + 1 - _exp d) with (e + 1) by lia.
      rewrite pow10_succ by lia. lia. }
  set (k := exp_min - _exp d) in *.
  set (unit := (10 ^ Z.to_N k)%N).
  assert (Z.of_N unit = 10 ^ k) as Hunit.
  { subst unit. rewrite N2Z.inj_pow, Z2N.id by lia. reflexivity. }
  pose proof (pow10_pos k ltac:(lia)) as Hupos.
  set (kept := (_int d / unit)%N).
  set (dropped := (_int d mod unit)%N).
  assert (Z.of_N (_int d) = Z.of_N kept * 10 ^ k + Z.of_N dropped
          ∧ 0 ≤ Z.of_N dropped < 10 ^ k) as [Hdiv Hrem].
  { subst kept dropped. rewrite N2Z.inj_div, N2Z.inj_mod, Hunit.
    pose proof (Z.div_mod (Z.of_N (_int d)) (10 ^ k) ltac:(lia)).
    pose proof (Z.mod_pos_bound (Z.of_N (_int d)) (10 ^ k) ltac:(lia)).
    lia. }
  clearbody kept dropped.
  set (round_up := (unit <? 2 * dropped)%N
                   || (2 * dropped =? unit)%N && N.odd kept).
  assert (round_up = true → 10 ^ k ≤ 2 * Z.of_N dropped) as Hup.
  { subst round_up. rewrite orb_true_iff, andb_true_iff.
    rewrite N.ltb_lt, N.eqb_eq. lia. }
  clearbody round_up.
  (* the kept digits stay below the bound *)
  assert (k ≤ e → Z.of_N kept < 10 ^ (e - k)) as Hkept.
  { intros Hke. apply (pow10_quotient _ (Z.of_N (_int d)) k e); lia. }
  assert (e < k → kept = 0%N) as Hkept0.
  { intros Hke. pose proof (pow10_lt e k ltac:(lia)).
    assert (Z.of_N kept * 10 ^ k < 1 * 10 ^ k) as Hm by lia.
    apply Z.mul_lt_mono_pos_r in Hm; lia. }
  destruct round_up; simpl.
  - assert (k ≤ e) as Hke.
    { destruct (Z.le_gt_cases k e) as [?|Hgt]; [assumption|exfalso].
      pose proof (pow10_le (e + 1) k ltac:(lia)) as Hp.
      rewrite pow10_succ in Hp by lia. specialize (Hup eq_refl). lia. }
    specialize (Hkept Hke).
    destruct (Z.ltb_spec 28 (len (kept + 1))) as [Hcarry|Hnocarry].
    + destruct (Z.ltb_spec (999999 - 28 + 1) (exp_min + 1)) as [?|_]; [lia|].
      eexists. split; [reflexivity|]. split; [|reflexivity]. unfold small. simpl.
      right. replace (b + 1 + 1 - (exp_min + 1)) with (e - k) by lia.
      rewrite N2Z.inj_div. change (Z.of_N 10) with 10.
      pose proof (Z.div_lt (Z.of_N (kept + 1)) 10 ltac:(lia) ltac:(lia)).
      lia.
    + destruct (Z.ltb_spec (999999 - 28 + 1) exp_min) as [?|_]; [lia|].
      eexists. split; [reflexivity|]. split; [|reflexivity]. unfold small. simpl.
      right. replace (b + 1 + 1 - exp_min) with (e - k + 1) by lia.
      rewrite pow10_succ by lia.
      pose proof (pow10_pos (e - k) ltac:(lia)). lia.
  - destruct (Z.ltb_spec (999999 - 28 + 1) exp_min) as [?|_]; [lia|].
    eexists. split; [reflexivity|]. split; [|reflexivity]. unfold small. simpl.
    destruct (Z.le_gt_cases k e) as [Hke|Hke].
    + right. replace (b + 1 + 1 - exp_min) with (e - k + 1) by lia.
      rewrite pow10_succ by lia. specialize (Hkept Hke).
      pose proof (pow10_pos (e - k) ltac:(lia)). lia.
    + left. apply Hkept0. lia.
Qed.

Lemma mul_small (x y : t) (bx by_ : Z) :
  small x bx → small y by_ → bx + by_ + 1 < Emax →
  ∃ z, mul x y = Ok z ∧ small z (bx + by_ + 2)
       ∧ _sign z = xorb (_sign x) (_sign y).
Proof.
  intros Hx Hy Hb. unfold mul.
  destruct (fix_small (mk (xorb (_sign x) (_sign y)) (_int x * _int y)
                         (_exp x + _exp y)) (bx + by_ + 1))
    as (z & Hz & Hsmall & Hsign); [|exact Hb|].
  - unfold small in *. simpl.
    destruct Hx as [->|Hx]; [left; reflexivity|].
    destruct Hy as [->|Hy]; [left; lia|].
    destruct (N.eq_0_gt_0_cases (_int x)) as [->|Hxpos]; [left; reflexivity|].
    destruct (N.eq_0_gt_0_cases (_int y)) as [->|Hypos]; [left; lia|].
    right.
    pose proof (pow10_gt_exponent (Z.of_N (_int x)) _ ltac:(lia) Hx).
    pose proof (pow10_gt_exponent (Z.of_N (_int y)) _ ltac:(lia) Hy).
    replace (bx + by_ + 1 + 1 - (_exp x + _exp y))
      with ((bx + 1 - _exp x) + (by_ + 1 - _exp y)) by lia.
    rewrite Z.pow_add_r, N2Z.inj_mul by lia.
    apply Z.mul_lt_mono_nonneg; lia.
  - exists z. split; [exact Hz|]. split; [|exact Hsign].
    now replace (bx + by_ + 2) with (bx + by_ + 1 + 1) by lia.
Qed.

Lemma strip_zeros_small (sign : bool) (ideal_exp : Z) (fuel : nat)
    (coeff : N) (exp : Z) (b : Z) :
  small (mk sign coeff exp) b →
  small (mk sign (fst (strip_zeros ideal_exp fuel coeff exp))
            (snd (strip_zeros ideal_exp fuel coeff exp))) b.
Proof.
  revert coeff exp. induction fuel as [|fuel IH]; intros coeff exp Hsmall;
    simpl; [exact Hsmall|].
  destruct (Z.ltb_spec exp ideal_exp) as [_|_]; simpl; [|exact Hsmall].
  destruct (N.eqb_spec (coeff mod 10) 0) as [Hmod|_]; [|exact Hsmall].
  apply IH. unfold small in *. simpl in *.
  destruct Hsmall as [->|Hlt]; [left; reflexivity|].
  destruct (N.eq_0_gt_0_cases coeff) as [->|Hpos]; [left; reflexivity|].
  right. rewrite N2Z.inj_div. change (Z.of_N 10) with 10.
  pose proof (pow10_gt_exponent (Z.of_N coeff) _ ltac:(lia) Hlt).
  replace (b + 1 - exp) with (b + 1 - (exp + 1) + 1) in Hlt by lia.
  rewrite pow10_succ in Hlt by lia.
  apply Z.div_lt_upper_bound; lia.
Qed.

Lemma len_one : len 1 = 1.
Proof. reflexivity. Qed.

Lemma inverse_small (y : t) (b : Z) :
  big y b → - b < Emax →
  ∃ z, truediv one y = Ok z ∧ small z (- b + 1) ∧ _sign z = _sign y.
Proof.
  intros [Hpos Hbig] Hb. unfold truediv, nonzero.
  destruct (N.eqb_spec (_int y) 0) as [?|_]; [lia|].
  change (_int one) with 1%N. change (_exp one) with 0.
  change (_sign one) with false. rewrite len_one. simpl negb. cbv iota.
  destruct (len_spec _ Hpos) as (Hlen1 & Hlo & Hhi).
  unfold prec.
  set (shift := len (_int y) - 1 + 28 + 1).
  assert (29 ≤ shift ∧ shift = len (_int y) + 28) as [Hshift Hshift'].
  { subst shift. lia. }
  destruct (Z.leb_spec 0 shift) as [_|?]; [|lia].
  set (num := (1 * 10 ^ Z.to_N shift)%N).
  assert (Z.of_N num = 10 ^ shift) as Hnum.
  { subst num. rewrite N.mul_1_l, N2Z.inj_pow, Z2N.id by lia. reflexivity. }
  set (coeff := (num / _int y)%N).
  (* the quotient is at most [10 ^ (shift - m)] when [y ≥ 10 ^ m] *)
  set (m := Z.max (b - _exp y) 0).
  assert (10 ^ m ≤ Z.of_N (_int y)) as Hm.
  { subst m. destruct (Z.max_spec (b - _exp y) 0) as [[_ ->]|[_ ->]].
    - change (10 ^ 0) with 1. lia.
    - exact Hbig. }
  assert (0 ≤ m < len (_int y)) as Hmlen.
  { split; [subst m; lia|].
    destruct (Z.lt_ge_cases m (len (_int y))) as [?|Hge]; [assumption|].
    pose proof (pow10_le (len (_int y)) m ltac:(lia)). lia. }
  assert (Z.of_N coeff ≤ 10 ^ (shift - m)) as Hcoeff.
  { subst coeff. rewrite N2Z.inj_div, Hnum.
    pose proof (pow10_pos m ltac:(lia)) as Hmpos.
    apply (Z.mul_le_mono_pos_r _ _ (10 ^ m)); [exact Hmpos|].
    rewrite <- Z.pow_add_r by lia. replace (shift - m + m) with shift by lia.
    pose proof (Z.mul_div_le (10 ^ shift) (Z.of_N (_int y)) ltac:(lia)).
    pose proof (Z.div_pos (10 ^ shift) (Z.of_N (_int y))
                  ltac:(pose proof (pow10_pos shift); lia) ltac:(lia)).
    nia. }
  assert (Z.of_N coeff + 1 < 10 ^ (- b + 1 - (0 - _exp y - shift))) as Hraw.
  { pose proof (pow10_pos (shift - m) ltac:(lia)).
    pose proof (pow10_le (shift - m + 1) (- b + 1 - (0 - _exp y - shift))
                  ltac:(subst m; lia)) as Hle.
    rewrite pow10_succ in Hle by lia. lia. }
  clearbody coeff.
  destruct (N.eqb_spec (num mod _int y) 0) as [_|_]; simpl negb; cbv iota.
  - destruct (strip_zeros (0 - _exp y) (Z.to_nat (0 - _exp y - (0 - _exp y - shift)))
                coeff (0 - _exp y - shift)) as [coeff' exp'] eqn:Hstrip.
    pose proof (strip_zeros_small (xorb false (_sign y)) (0 - _exp y)
                  (Z.to_nat (0 - _exp y - (0 - _exp y - shift)))
                  coeff (0 - _exp y - shift) (- b)) as Hs.
    rewrite Hstrip in Hs. simpl fst in Hs. simpl snd in Hs.
    destruct (fix_small (mk (xorb false (_sign y)) coeff' exp') (- b))
      as (z & Hz & Hsmall & Hsign); [|exact Hb|].
    + apply Hs. right. simpl. lia.
    + exists z. split; [exact Hz|]. split; [exact Hsmall|].
      rewrite Hsign. reflexivity.
  - destruct (fix_small
                (mk (xorb false (_sign y))
                   (if (coeff mod 5 =? 0)%N then (coeff + 1)%N else coeff)
                   (0 - _exp y - shift)) (- b))
      as (z & Hz & Hsmall & Hsign); [|exact Hb|].
    + right. simpl. destruct (coeff mod 5 =? 0)%N; lia.
    + exists z. split; [exact Hz|]. split; [exact Hsmall|].
      rewrite Hsign. reflexivity.
Qed.

Lemma fix_raise (d : t) (e : exn) : _fix d = Raise e → e = Overflow.
Proof.
  unfold _fix. cbv zeta.
  repeat match goal with
         | |- context [if ?c then _ else _] => destruct c
         end; congruence.
Qed.

Lemma mul_raise (x y : t) (e : exn) : mul x y = Raise e → e = Overflow.
Proof. apply fix_raise. Qed.


Lemma inverse_raise (y : t) (e : exn) :
  truediv one y = Raise e → e = DivisionByZero ∨ e = Overflow.
Proof.
  unfold truediv. cbv zeta. change (negb (nonzero one)) with false. cbv iota.
  destruct (negb (nonzero y)); [left; congruence|].
  destruct (negb _).
  - intros H. right. eapply fix_raise. exact H.
  - destruct (strip_zeros _ _ _ _). intros H. right. eapply fix_raise. exact H.
Qed.

Lemma value_scaled (e : Z) (d : t) :
  e ≤ _exp d →
  (value d == inject_Z (scaled e d) * inject_Z 10 ^ e)%Q.
Proof.
  intros He. unfold value, scaled.
  assert (inject_Z (Z.of_N (_int d)) * inject_Z 10 ^ _exp d
          == inject_Z (Z.of_N (_int d) * 10 ^ (_exp d - e)) * inject_Z 10 ^ e)%Q
    as Heq.
  { rewrite inject_Z_mult, Zpower_Qpower by lia.
    rewrite <- Qmult_assoc, <- Qpower_plus by discriminate.
    now replace (_exp d - e + e) with (_exp d) by lia. }
  destruct (_sign d).
  - rewrite Heq, inject_Z_opp. ring.
  - exact Heq.
Qed.

(** [lt] compares the values. *)
Lemma lt_value (x y : t) : lt x y = true ↔ (value x < value y)%Q.
Proof.
  unfold lt. set (e := Z.min (_exp x) (_exp y)).
  rewrite (value_scaled e x), (value_scaled e y) by (subst e; lia).
  rewrite Qmult_lt_r by (apply Qpower_0_lt; reflexivity).
  rewrite <- Zlt_Qlt. apply Z.ltb_lt.
Qed.

End PyDecimalFacts.

(** ** Properties of the evaluator *)

Section Evaluator.
Import PyDecimal PyDecimalFacts.

Lemma in_range_small (d : t) : in_range d → small d 300000.
Proof. intros [[_ Hpos] [_ Hhi]]. now apply adjusted_small. Qed.

Lemma in_range_big (d : t) : in_range d → big d (-300000).
Proof. intros [[_ Hpos] [Hlo _]]. now apply adjusted_big. Qed.

(** Within the range no operation of a rate overflows and no divisor is
    zero: the rate is computed. *)
Lemma condition_in_range (x_AB x_BC y_AC : t) :
  in_range x_AB → in_range x_BC → in_range y_AC →
  ∃ rate, condition x_AB x_BC y_AC = Ok rate.
Proof.
  intros Hx Hy Hw. unfold condition.
  destruct (mul_small x_AB x_BC 300000 300000)
    as (p & Hmul & Hp & _);
    [now apply in_range_small|now apply in_range_small|unfold Emax; lia|].
  destruct (inverse_small y_AC (-300000))
    as (q & Hdiv & Hq & _); [now apply in_range_big|unfold Emax; lia|].
  destruct (mul_small p q (300000 + 300000 + 2) (- -300000 + 1))
    as (rate & Hrate & _); [exact Hp|exact Hq|unfold Emax; lia|].
  exists rate. rewrite Hmul. simpl. rewrite Hdiv. simpl. exact Hrate.
Qed.

Lemma condition_raise (x_AB x_BC y_AC : t) (e : exn) :
  condition x_AB x_BC y_AC = Raise e → e = DivisionByZero ∨ e = Overflow.
Proof.
  unfold condition.
  destruct (mul x_AB x_BC) as [p|e1] eqn:Hp; simpl.
  - destruct (truediv one y_AC) as [q|e2] eqn:Hq; simpl.
    + intros H. right. eapply mul_raise. exact H.
    + intros [= <-]. eapply inverse_raise. exact Hq.
  - intros [= <-]. right. eapply mul_raise. exact Hp.
Qed.


Lemma value_one : (value one == 1)%Q.
Proof. reflexivity. Qed.

(** The evaluation once the legs are found and their three tickers are
    in the book. *)
Lemma calculate_with_legs (book : gmap string ticker)
    (result : gmap string row) (trading_pairs : list capsule) (l : legs)
    (t_AB t_BC t_AC : ticker) :
  search trading_pairs = Ok (Some l) →
  book !! symbol (AB l) = Some t_AB →
  book !! symbol (BC l) = Some t_BC →
  book !! symbol (AC l) = Some t_AC →
  calculate_triangular_arbitrage book result trading_pairs
  = (condition1 ← condition (ticker_a t_AB) (ticker_a t_BC) (ticker_b t_AC);
     condition2 ← condition (ticker_b t_AB) (ticker_b t_BC) (ticker_a t_AC);
     Ok (<[arbitrage_code (AB l) (BC l) :=
             Row [(symbol (AB l), ticker_a t_AB);
                  (symbol (BC l), ticker_a t_BC);
                  (symbol (AC l), ticker_a t_AC)]
                 [(symbol (AB l), ticker_b t_AB);
                  (symbol (BC l), ticker_b t_BC);
                  (symbol (AC l), ticker_b t_AC)]
                 (if lt condition1 one || lt one condition2
                  then "YES" else "NO")]> result)).
Proof.
  intros Hsearch HAB HBC HAC. unfold calculate_triangular_arbitrage.
  rewrite Hsearch. simpl. unfold dict_getitem.
  rewrite HAB. simpl. rewrite HBC. simpl. rewrite HAC. reflexivity.
Qed.

End Evaluator.

(** The rates of the scenario. The forward rate, 0.15 × 0.05 × (1 / 0.0075),
    is computed as 0.9999999999999999999999999998: the quotient 1 / 0.0075 is
    rounded to 28 digits before the last product. *)
Example scenario_rates :
  condition (dec 15 (-2)) (dec 5 (-2)) (dec 75 (-4))
  = Ok (dec 9999999999999999999999999998 (-28))
  ∧ condition (dec 149 (-3)) (dec 499 (-4)) (dec 76 (-4))
    = Ok (dec 9783026315789473684210526318 (-28)).
Proof. split; vm_compute; reflexivity. Qed.

(** The rates the evaluation works with are not the exact ones, and
    positive prices do not suffice for a result. In the scenario the exact
    forward rate 0.15 × 0.05 × (1 / 0.0075) is 1 and the exact backward rate
    is below 1, so that neither is beyond 1 on the profitable side, yet the
    verdict published is "YES". With the ask of BNBETH at 1E+999999 and the
    ask of ETHBTC at 10 the first product exceeds Emax: the evaluation raises
    Overflow and publishes nothing. *)
Lemma rates_are_rounded_and_can_overflow :
  search [ETHBTC; BNBETH; BNBBTC] = Ok (Some (Legs 1 0 BNBETH ETHBTC BNBBTC))
  ∧ (PyDecimal.value (dec 15 (-2)) * PyDecimal.value (dec 5 (-2))
     * (1 / PyDecimal.value (dec 75 (-4))) == 1)%Q
  ∧ (PyDecimal.value (dec 149 (-3)) * PyDecimal.value (dec 499 (-4))
     * (1 / PyDecimal.value (dec 76 (-4))) < 1)%Q
  ∧ calculate_triangular_arbitrage scenario_book ∅ [ETHBTC; BNBETH; BNBBTC]
    = Ok (<["BNB-ETH-BTC" :=
              Row [("BNBETH", dec 15 (-2)); ("ETHBTC", dec 5 (-2));
                   ("BNBBTC", dec 76 (-4))]
                  [("BNBETH", dec 149 (-3)); ("ETHBTC", dec 499 (-4));
                   ("BNBBTC", dec 75 (-4))] "YES"]> ∅)
  ∧ overflow_book !! "BNBETH"
    = Some (Ticker "BNBETH" (dec 1 999999) (dec 149 (-3)))
  ∧ overflow_book !! "ETHBTC" = Some (Ticker "ETHBTC" (dec 10 0) (dec 499 (-4)))
  ∧ overflow_book !! "BNBBTC"
    = Some (Ticker "BNBBTC" (dec 76 (-4)) (dec 75 (-4)))
  ∧ Forall PyDecimal.positive
      [dec 1 999999; dec 149 (-3); dec 10 0; dec 499 (-4); dec 76 (-4);
       dec 75 (-4)]
  ∧ calculate_triangular_arbitrage overflow_book ∅ [ETHBTC; BNBETH; BNBBTC]
    = Raise Overflow.
Proof.
  split; [reflexivity|]. split; [reflexivity|]. split; [reflexivity|].
  split; [vm_compute; reflexivity|].
  repeat (split; [reflexivity|]).
  split; [|vm_compute; reflexivity].
  repeat (constructor; [split; reflexivity|]). constructor.
Qed.




(** ** Properties of the dispatcher *)

Lemma on_message_loop_spec (todo : list (list capsule))
    (self self' : ArbitrageDetector) (out : option exn) :
  on_message_loop todo self = (self', out) →
  book_ticker_data self' = book_ticker_data self
  ∧ correct_triangles self' = correct_triangles self
  ∧ ∃ called,
      evaluated self' = evaluated self ++ called
      ∧ match out with
        | None => called = List.filter (quoted (book_ticker_data self)) todo
        | Some e =>
            ∃ before target after,
              List.filter (quoted (book_ticker_data self)) todo
              = before ++ target :: after
              ∧ called = before ++ [target]
              ∧ calculate_triangular_arbitrage (book_ticker_data self)
                  (result self') target = Raise e
        end.
Proof.
  revert self. induction todo as [|target todo IH]; intros self; simpl.
  - intros [= <- <-]. repeat split. exists []. now rewrite app_nil_r.
  - change (Nat.eqb (count_quoted (book_ticker_data self) target) 3)
      with (quoted (book_ticker_data self) target).
    destruct (quoted (book_ticker_data self) target).
    + destruct (calculate_triangular_arbitrage _ _ target) as [result'|e] eqn:Hc.
      * intros Hloop. apply IH in Hloop as (Hbook & Htri & called & Hev & Hout).
        simpl in Hbook, Htri, Hev, Hout.
        split; [exact Hbook|]. split; [exact Htri|].
        exists (target :: called). split.
        { rewrite Hev, <- app_assoc. reflexivity. }
        destruct out as [e|].
        -- destruct Hout as (before & t & after & Hready & -> & Hraise).
           exists (target :: before), t, after. rewrite Hready. auto.
        -- now rewrite Hout.
      * intros [= <- <-]. repeat split. exists [target]. split; [reflexivity|].
        exists [], target, (List.filter (quoted (book_ticker_data self)) todo).
        auto.
    + intros Hloop. apply IH in Hloop. exact Hloop.
Qed.

(** A tick that references no leg of a quoted triangle evaluates it all the
    same. After one quote for each of the six symbols of two triangles
    without a common symbol, a tick of ETHBTC calls the evaluator for the
    triangle on XRP, ADA and USDT too. *)
Lemma tick_evaluates_unrelated_triangle :
  correct_triangles (init two_triangle_symbols)
  = [[ETHBTC; BNBETH; BNBBTC]; [XRPUSDT; ADAXRP; ADAUSDT]]
  ∧ Forall (fun p => symbol p ≠ "ETHBTC") [XRPUSDT; ADAXRP; ADAUSDT]
  ∧ evaluated
      (fst (on_message (run (init two_triangle_symbols) six_quotes)
              (Ticker "ETHBTC" (dec 51 (-3)) (dec 5 (-2)))))
    = evaluated (run (init two_triangle_symbols) six_quotes)
      ++ [[ETHBTC; BNBETH; BNBBTC]; [XRPUSDT; ADAXRP; ADAUSDT]].
Proof.
  split; [vm_compute; reflexivity|]. split.
  - repeat (constructor; [discriminate|]). constructor.
  - vm_compute. reflexivity.
Qed.

Lemma filter_all {A : Type} (f : A → bool) (l : list A) :
  length (List.filter f l) = length l → ∀ x, In x l → f x = true.
Proof.
  induction l as [|y l IH]; simpl; [intros _ x []|].
  pose proof (List.filter_length_le f l) as Hle.
  destruct (f y) eqn:Hy; simpl; intros Hlen x [<-|Hx]; try lia; auto.
Qed.

(** A target of three pairs passes the test of the dispatcher only when
    each of its pairs is quoted. *)
Lemma quoted_all (book : gmap string ticker) (target : list capsule)
    (p : capsule) :
  length target = 3%nat → quoted book target = true → In p target →
  is_Some (book !! symbol p).
Proof.
  unfold quoted, count_quoted. rewrite Nat.eqb_eq. intros Hlen Hcount Hp.
  rewrite <- Hlen in Hcount.
  pose proof (filter_all _ _ Hcount p Hp) as Hq. unfold dict_contains in Hq.
  destruct (book !! symbol p); [eauto|discriminate].
Qed.

Lemma init_consistent (symbols : list exchange_symbol) :
  consistent (init symbols) [].
Proof.
  split; [|split; [|split]]; simpl.
  - intros t Ht. apply find_correct_triangles_spec in Ht as (Hc & _).
    eapply combinations_length, Hc.
  - intros k [v Hv]. rewrite lookup_empty in Hv. discriminate.
  - intros t p [].
  - intros t [].
Qed.

Lemma on_message_consistent (self : ArbitrageDetector) (seen : list ticker)
    (data : ticker) :
  consistent self seen →
  consistent (fst (on_message self data)) (seen ++ [data]).
Proof.
  intros (Hlen & Hbook & Hev & Hsub).
  destruct (on_message self data) as [self' out] eqn:Hmsg. simpl.
  unfold on_message in Hmsg.
  apply on_message_loop_spec in Hmsg as (Hb & Ht & called & Hcalled & Hout).
  simpl in Hb, Ht, Hcalled, Hout.
  assert (∀ t, In t called →
               In t (correct_triangles self)
               ∧ quoted (book_ticker_data self') t = true) as Hready.
  { rewrite Hb. intros t Hin. apply filter_In.
    destruct out as [e|].
    - destruct Hout as (before & target & after & -> & -> & _).
      rewrite in_app_iff in *. simpl in *. tauto.
    - now rewrite <- Hout. }
  split; [|split; [|split]].
  - rewrite Ht. exact Hlen.
  - rewrite Hb. intros k [v Hv]. destruct (decide (ticker_s data = k)) as [Heq|Hne].
    + exists data. rewrite in_app_iff. simpl. auto.
    + rewrite lookup_insert_ne in Hv by exact Hne.
      destruct (Hbook k (mk_is_Some _ _ Hv)) as (d & Hd & Hk).
      exists d. rewrite in_app_iff. auto.
  - rewrite Hcalled. intros t p Hin Hp. apply in_app_iff in Hin as [Hold|Hnew].
    + rewrite Hb. destruct (decide (ticker_s data = symbol p)) as [Heq|Hne].
      * rewrite <- Heq, lookup_insert_eq. eauto.
      * rewrite lookup_insert_ne by exact Hne. eapply Hev; eassumption.
    + destruct (Hready t Hnew) as [Htri Hq].
      eapply quoted_all; [apply Hlen, Htri|exact Hq|exact Hp].
  - rewrite Hcalled, Ht. intros t Hin. apply in_app_iff in Hin as [Hold|Hnew].
    + apply Hsub, Hold.
    + apply Hready, Hnew.
Qed.

Lemma on_message_triangles (self : ArbitrageDetector) (data : ticker) :
  correct_triangles (fst (on_message self data)) = correct_triangles self.
Proof.
  destruct (on_message self data) as [self' out] eqn:Hmsg. simpl.
  unfold on_message in Hmsg.
  now apply on_message_loop_spec in Hmsg as (_ & Ht & _).
Qed.

Lemma run_triangles (stream : list ticker) (self : ArbitrageDetector) :
  correct_triangles (run self stream) = correct_triangles self.
Proof.
  revert self. induction stream as [|data stream IH]; intros self;
    [reflexivity|].
  change (run self (data :: stream))
    with (run (fst (on_message self data)) stream).
  rewrite IH. apply on_message_triangles.
Qed.

Lemma run_consistent (stream : list ticker) (self : ArbitrageDetector)
    (seen : list ticker) :
  consistent self seen → consistent (run self stream) (seen ++ stream).
Proof.
  revert self seen. induction stream as [|data stream IH]; intros self seen Hc.
  - now rewrite app_nil_r.
  - simpl. replace (seen ++ data :: stream) with ((seen ++ [data]) ++ stream)
      by now rewrite <- app_assoc.
    apply IH, on_message_consistent, Hc.
Qed.

Lemma filter_id {A : Type} (f : A → bool) (l : list A) :
  (∀ x, In x l → f x = true) → List.filter f l = l.
Proof.
  induction l as [|y l IH]; simpl; intros Hall; [reflexivity|].
  rewrite (Hall y) by auto. f_equal. apply IH. auto.
Qed.

Lemma dict_contains_is_Some {V : Type} (d : gmap string V) (k : string) :
  dict_contains d k = bool_decide (is_Some (d !! k)).
Proof.
  unfold dict_contains. destruct (d !! k) as [v|]; symmetry.
  - apply bool_decide_eq_true_2. eauto.
  - apply bool_decide_eq_false_2. intros [v Hv]. discriminate.
Qed.

Lemma legs_quoted_spec (book : gmap string ticker) (target : list capsule) :
  legs_quoted book target = true
  ↔ ∀ p, In p target → is_Some (book !! symbol p).
Proof.
  unfold legs_quoted. rewrite forallb_forall. split; intros H p Hp.
  - apply (bool_decide_eq_true_1 _ (H p Hp)).
  - apply bool_decide_eq_true_2, H, Hp.
Qed.

(** On a target of three pairs the count of the dispatcher is 3 exactly
    when every pair of the target is quoted. *)
Lemma quoted_legs_quoted (book : gmap string ticker) (target : list capsule) :
  length target = 3%nat → quoted book target = legs_quoted book target.
Proof.
  intros Hlen. destruct (legs_quoted book target) eqn:Hq.
  - unfold quoted, count_quoted. apply Nat.eqb_eq. rewrite <- Hlen. f_equal.
    apply filter_id. intros p Hp. rewrite dict_contains_is_Some.
    apply bool_decide_eq_true_2. exact (proj1 (legs_quoted_spec _ _) Hq p Hp).
  - destruct (quoted book target) eqn:Hq'; [|reflexivity].
    assert (legs_quoted book target = true) as Hq''; [|congruence].
    apply legs_quoted_spec. intros p Hp. eapply quoted_all; eassumption.
Qed.

(** C4, as the code has it: a tick is stored under its symbol, then the
    triangles are visited in order and the evaluator is called for every
    triangle whose three legs are all keys of the updated book, whether the
    triangle references the symbol of the tick or not. Whatever the catalog
    and the ticks before: every triangle the tick evaluates is one of the
    triangles, has three pairs and has each of them quoted in the updated
    book; a triangle with a leg that is not quoted is not evaluated; and the
    calls of the tick are, in order, all the triangles with their legs
    quoted when no evaluation raises, and these triangles up to the one whose
    evaluation raises otherwise. *)
Theorem tick_evaluates_every_quoted_triangle
    (symbols : list exchange_symbol) (stream : list ticker) (data : ticker)
    (self' : ArbitrageDetector) (out : option exn) :
  on_message (run (init symbols) stream) data = (self', out) →
  book_ticker_data self'
  = <[ticker_s data := data]> (book_ticker_data (run (init symbols) stream))
  ∧ ∃ called,
      evaluated self' = evaluated (run (init symbols) stream) ++ called
      ∧ (∀ target, In target called →
           In target (correct_triangles (run (init symbols) stream))
           ∧ length target = 3%nat
           ∧ ∀ p, In p target →
                  is_Some (book_ticker_data self' !! symbol p))
      ∧ (∀ target p, In p target →
           book_ticker_data self' !! symbol p = None → ¬ In target called)
      ∧ match out with
        | None =>
            called = List.filter (legs_quoted (book_ticker_data self'))
                       (correct_triangles (run (init symbols) stream))
        | Some e =>
            ∃ before target after,
              List.filter (legs_quoted (book_ticker_data self'))
                (correct_triangles (run (init symbols) stream))
              = before ++ target :: after
              ∧ called = before ++ [target]
              ∧ calculate_triangular_arbitrage (book_ticker_data self')
                  (result self') target = Raise e
        end.
Proof.
  intros Hloop.
  destruct (run_consistent stream (init symbols) [] (init_consistent symbols))
    as (Hlen & _).
  set (self := run (init symbols) stream) in *.
  unfold on_message in Hloop.
  apply on_message_loop_spec in Hloop as (Hbook & _ & called & Hev & Hout).
  simpl in Hbook, Hev, Hout. rewrite Hbook. split; [reflexivity|].
  set (book' := <[ticker_s data := data]> (book_ticker_data self)) in *.
  assert (List.filter (quoted book') (correct_triangles self)
          = List.filter (legs_quoted book') (correct_triangles self)) as Hfilter.
  { apply filter_ext_in. intros t Ht. apply quoted_legs_quoted, Hlen, Ht. }
  rewrite Hfilter in Hout.
  assert (∀ t, In t called →
               In t (correct_triangles self) ∧ legs_quoted book' t = true)
    as Hcalled.
  { intros t Ht. apply filter_In. destruct out as [e|].
    - destruct Hout as (before & target & after & -> & -> & _).
      rewrite in_app_iff in *. simpl in *. tauto.
    - now rewrite <- Hout. }
  exists called. split; [exact Hev|]. split; [|split; [|exact Hout]].
  - intros t Ht. destruct (Hcalled t Ht) as [Hin Hq].
    split; [exact Hin|]. split; [apply Hlen, Hin|].
    apply legs_quoted_spec, Hq.
  - intros t p Hp Hnone Ht. destruct (Hcalled t Ht) as [_ Hq].
    destruct (proj1 (legs_quoted_spec _ _) Hq p Hp) as [v Hv]. congruence.
Qed.

Lemma tick_evaluates_every_quoted_triangle_witness :
  book_ticker_data
    (fst (on_message (run (init two_triangle_symbols) six_quotes)
            (Ticker "ETHBTC" (dec 51 (-3)) (dec 5 (-2)))))
  = <["ETHBTC" := Ticker "ETHBTC" (dec 51 (-3)) (dec 5 (-2))]>
      (book_ticker_data (run (init two_triangle_symbols) six_quotes))
  ∧ ∃ called,
      evaluated
        (fst (on_message (run (init two_triangle_symbols) six_quotes)
                (Ticker "ETHBTC" (dec 51 (-3)) (dec 5 (-2)))))
      = evaluated (run (init two_triangle_symbols) six_quotes) ++ called
      ∧ (∀ target, In target called →
           In target
             (correct_triangles (run (init two_triangle_symbols) six_quotes))
           ∧ length target = 3%nat
           ∧ ∀ p, In p target →
                  is_Some
                    (book_ticker_data
                       (fst (on_message
                               (run (init two_triangle_symbols) six_quotes)
                               (Ticker "ETHBTC" (dec 51 (-3)) (dec 5 (-2)))))
                     !! symbol p))
      ∧ (∀ target p, In p target →
           book_ticker_data
             (fst (on_message (run (init two_triangle_symbols) six_quotes)
                     (Ticker "ETHBTC" (dec 51 (-3)) (dec 5 (-2)))))
           !! symbol p = None → ¬ In target called)
      ∧ called
        = List.filter
            (legs_quoted
               (book_ticker_data
                  (fst (on_message (run (init two_triangle_symbols) six_quotes)
                          (Ticker "ETHBTC" (dec 51 (-3)) (dec 5 (-2)))))))
            (correct_triangles (run (init two_triangle_symbols) six_quotes)).
Proof.
  apply (tick_evaluates_every_quoted_triangle two_triangle_symbols six_quotes
           (Ticker "ETHBTC" (dec 51 (-3)) (dec 5 (-2)))
           (fst (on_message (run (init two_triangle_symbols) six_quotes)
                   (Ticker "ETHBTC" (dec 51 (-3)) (dec 5 (-2)))))
           None).
  vm_compute. reflexivity.
Defined.

(** C5: whatever the catalog and the stream of ticks, a triangle the
    dispatcher has evaluated by the end of the stream is a tuple of three
    pairs and each of its three pairs has received a tick in the stream: a
    triangle with a leg never quoted is never evaluated. *)
Theorem evaluation_waits_for_three_quotes
    (symbols : list exchange_symbol) (stream : list ticker)
    (target : list capsule) :
  In target (evaluated (run (init symbols) stream)) →
  length target = 3%nat
  ∧ In target (correct_triangles (init symbols))
  ∧ ∀ p, In p target → ∃ data, In data stream ∧ ticker_s data = symbol p.
Proof.
  intros Hin.
  destruct (run_consistent stream (init symbols) [] (init_consistent symbols))
    as (Hlen & Hbook & Hev & Hsub).
  pose proof (Hsub target Hin) as Htri.
  split; [exact (Hlen target Htri)|]. split.
  - now rewrite run_triangles in Htri.
  - intros p Hp. exact (Hbook _ (Hev target p Hin Hp)).
Qed.

Lemma evaluation_waits_for_three_quotes_witness :
  length [ETHBTC; BNBETH; BNBBTC] = 3%nat
  ∧ In [ETHBTC; BNBETH; BNBBTC] (correct_triangles (init scenario_symbols))
  ∧ ∀ p, In p [ETHBTC; BNBETH; BNBBTC] →
         ∃ data,
           In data
             [Ticker "ETHBTC" (dec 5 (-2)) (dec 499 (-4));
              Ticker "BNBETH" (dec 15 (-2)) (dec 149 (-3));
              Ticker "BNBBTC" (dec 76 (-4)) (dec 75 (-4))]
           ∧ ticker_s data = symbol p.
Proof.
  apply (evaluation_waits_for_three_quotes scenario_symbols
           [Ticker "ETHBTC" (dec 5 (-2)) (dec 499 (-4));
            Ticker "BNBETH" (dec 15 (-2)) (dec 149 (-3));
            Ticker "BNBBTC" (dec 76 (-4)) (dec 75 (-4))]
           [ETHBTC; BNBETH; BNBBTC]).
  vm_compute. auto.
Defined.

(** Two of the three legs quoted, any number of times, evaluate nothing. *)
Example two_quoted_legs_evaluate_nothing :
  evaluated
    (run (init scenario_symbols)
       [Ticker "ETHBTC" (dec 5 (-2)) (dec 499 (-4));
        Ticker "BNBETH" (dec 15 (-2)) (dec 149 (-3));
        Ticker "ETHBTC" (dec 51 (-3)) (dec 5 (-2));
        Ticker "BNBETH" (dec 15 (-2)) (dec 149 (-3))])
  = [].
Proof. vm_compute. reflexivity. Qed.

(** ** The catalog loop *)

Lemma fetch_loop_take (target_assets : list string) (limit : nat)
    (elements : list exchange_symbol) (capsules : list capsule) :
  (length capsules ≤ limit)%nat →
  fetch_loop target_assets limit elements capsules
  = capsules
    ++ take (limit - length capsules)
         (map to_capsule (List.filter (targeted target_assets) elements)).
Proof.
  revert capsules. induction elements as [|element rest IH];
    intros capsules Hlen; simpl.
  - now rewrite take_nil, app_nil_r.
  - fold (targeted target_assets element).
    destruct (Nat.leb_spec limit (length capsules)) as [Hfull|Hroom].
    + replace (limit - length capsules)%nat with 0%nat by lia.
      now rewrite take_0, app_nil_r.
    + destruct (targeted target_assets element); simpl.
      * rewrite IH by (rewrite length_app; simpl; lia).
        rewrite length_app. simpl. rewrite <- app_assoc. simpl.
        replace (limit - length capsules)%nat
          with (S (limit - (length capsules + 1)))%nat by lia.
        reflexivity.
      * now apply IH.
Qed.

(** X1: [fetch_trading_pairs] returns the capsules of the first [limit]
    elements of the exchange's list that have a target asset as base or as
    quote asset, in the order of the exchange; it never returns more than
    [limit] capsules. *)
Theorem fetch_trading_pairs_first_targeted
    (target_assets : list string) (limit : nat)
    (symbols : list exchange_symbol) :
  fetch_trading_pairs target_assets limit symbols
  = take limit (map to_capsule (List.filter (targeted target_assets) symbols))
  ∧ (length (fetch_trading_pairs target_assets limit symbols) ≤ limit)%nat.
Proof.
  unfold fetch_trading_pairs.
  rewrite fetch_loop_take by (simpl; lia). simpl. rewrite Nat.sub_0_r.
  split; [reflexivity|]. rewrite length_take. lia.
Qed.

(** ** The combinations *)

Lemma combinations_complete {A : Type} (data : list A) (r : nat) (c : list A) :
  sublist c data → length c = r → In c (combinations data r).
Proof.
  intros Hsub. revert r. induction Hsub as [|x c data Hsub IH|x c data Hsub IH];
    intros r Hlen.
  - subst r. simpl. auto.
  - destruct r as [|r]; [discriminate|]. simpl in *.
    apply in_app_iff. left. apply in_map. apply IH. lia.
  - destruct r as [|r].
    + destruct c; [|discriminate]. destruct data; simpl; auto.
    + simpl. apply in_app_iff. right. now apply IH.
Qed.

(** X2: the combinations of three are exactly the tuples of three members
    of the data taken at increasing positions. *)
Theorem find_combinations_of_3_spec (data : list capsule) (c : list capsule) :
  In c (find_combinations_of_3 data) ↔ sublist c data ∧ length c = 3%nat.
Proof.
  unfold find_combinations_of_3. split.
  - intros Hc. split; [eapply combinations_sublist|eapply combinations_length];
      exact Hc.
  - intros [Hsub Hlen]. now apply combinations_complete.
Qed.

Lemma combinations_cons_length {A : Type} (x : A) (data : list A) (r : nat) :
  length (combinations (x :: data) (S r))
  = (length (combinations data r) + length (combinations data (S r)))%nat.
Proof. simpl. now rewrite length_app, length_map. Qed.

Lemma combinations_0_length {A : Type} (data : list A) :
  length (combinations data 0) = 1%nat.
Proof. destruct data; reflexivity. Qed.

Lemma combinations_1_length {A : Type} (data : list A) :
  length (combinations data 1) = length data.
Proof.
  induction data as [|x data IH]; [reflexivity|].
  rewrite combinations_cons_length, combinations_0_length, IH. reflexivity.
Qed.

Lemma combinations_2_length {A : Type} (data : list A) :
  (2 * length (combinations data 2) = length data * (length data - 1))%nat.
Proof.
  induction data as [|x data IH]; [reflexivity|].
  rewrite combinations_cons_length, combinations_1_length. simpl length.
  destruct (length data) as [|n] eqn:Hn; [simpl in *; lia|].
  replace (S n - 1)%nat with n in IH by lia.
  replace (S (S n) - 1)%nat with (S n) by lia. nia.
Qed.

(** X3: a catalog of [n] pairs has [n (n - 1) (n - 2) / 6] combinations of
    three; with fewer than three pairs there is none. *)
Theorem find_combinations_of_3_count (data : list capsule) :
  (6 * length (find_combinations_of_3 data)
   = length data * (length data - 1) * (length data - 2))%nat.
Proof.
  unfold find_combinations_of_3.
  induction data as [|x data IH]; [reflexivity|].
  rewrite combinations_cons_length. simpl length.
  pose proof (combinations_2_length data) as H2.
  destruct (length data) as [|[|n]] eqn:Hn; [simpl in *; lia..|].
  replace (S (S n) - 1)%nat with (S n) in * by lia.
  replace (S (S n) - 2)%nat with n in * by lia.
  replace (S (S (S n)) - 1)%nat with (S (S n)) by lia.
  replace (S (S (S n)) - 2)%nat with (S n) by lia. nia.
Qed.

(** ** The finder, completed *)

(** X4: the finder accepts exactly the tuples of three members of the
    catalog, taken at increasing positions, that span three assets and hold
    no two mirror pairs. *)
Theorem find_correct_triangles_accepts
    (all_trading_pairs : list capsule) (t : list capsule) :
  In t (find_correct_triangles all_trading_pairs) ↔
  sublist t all_trading_pairs
  ∧ length t = 3%nat
  ∧ size (assets t) = 3%nat
  ∧ ∀ i j p q, i ≠ j → t !! i = Some p → t !! j = Some q → ¬ mirror p q.
Proof.
  rewrite find_correct_triangles_spec. unfold check_if_triangle.
  rewrite <- assets_union. split.
  - intros (Hc & Hsize & Hcirc). split; [eapply combinations_sublist, Hc|].
    split; [eapply combinations_length, Hc|]. split; [exact Hsize|].
    intros i j p q. now apply check_circular_pairs_no_mirror.
  - intros (Hsub & Hlen & Hsize & Hmirror).
    split; [now apply combinations_complete|]. split; [exact Hsize|].
    apply check_circular_pairs_spec. intros i j p q Hlt.
    apply Hmirror. lia.
Qed.

(** X5: a catalog of fewer than three pairs, the empty one included, yields
    no triangle. *)
Theorem find_correct_triangles_small_catalog
    (all_trading_pairs : list capsule) :
  (length all_trading_pairs < 3)%nat →
  find_correct_triangles all_trading_pairs = [].
Proof.
  intros Hlen. unfold find_correct_triangles.
  pose proof (find_combinations_of_3_count all_trading_pairs) as Hcount.
  destruct (find_combinations_of_3 all_trading_pairs) as [|c cs]; [reflexivity|].
  exfalso. simpl in Hcount.
  destruct (length all_trading_pairs) as [|[|[|n]]]; simpl in Hcount; lia.
Qed.

Lemma find_correct_triangles_small_catalog_witness :
  find_correct_triangles [ETHBTC; BNBETH] = [].
Proof.
  apply (find_correct_triangles_small_catalog [ETHBTC; BNBETH]). simpl. lia.
Defined.

Lemma circular_sym (x y : capsule) : circular x y = circular y x.
Proof.
  unfold circular.
  rewrite (String.eqb_sym (left x)), (String.eqb_sym (right x)).
  apply andb_comm.
Qed.

Lemma existsb_Permutation {A : Type} (f : A → bool) (l l' : list A) :
  l ≡ₚ l' → existsb f l = existsb f l'.
Proof.
  induction 1 as [|x l l' _ IH|x y l|l l' l'' _ IH1 _ IH2]; simpl.
  - reflexivity.
  - now rewrite IH.
  - destruct (f x), (f y); reflexivity.
  - congruence.
Qed.

Lemma check_circular_pairs_Permutation (data data' : list capsule) :
  data ≡ₚ data' → check_circular_pairs data = check_circular_pairs data'.
Proof.
  induction 1 as [|x l l' Hperm IH|x y l|l l' l'' _ IH1 _ IH2]; simpl.
  - reflexivity.
  - now rewrite (existsb_Permutation _ _ _ Hperm), IH.
  - rewrite (circular_sym y x).
    destruct (circular x y), (existsb (circular x) l),
      (existsb (circular y) l); reflexivity.
  - congruence.
Qed.

Lemma assets_Permutation (data data' : list capsule) :
  data ≡ₚ data' → assets data = assets data'.
Proof.
  intros Hperm. unfold assets. apply set_eq. intros a.
  rewrite !elem_of_list_to_set, !list_elem_of_bind.
  split; intros (p & Ha & Hp); exists p; (split; [exact Ha|]).
  - now rewrite <- Hperm.
  - now rewrite Hperm.
Qed.

Lemma triangle_tests_ignore_order_aux (data data' : list capsule) :
  data ≡ₚ data' →
  check_if_triangle data = check_if_triangle data'
  ∧ check_circular_pairs data = check_circular_pairs data'.
Proof.
  intros Hperm. split.
  - unfold check_if_triangle. rewrite <- !assets_union.
    now rewrite (assets_Permutation _ _ Hperm).
  - now apply check_circular_pairs_Permutation.
Qed.

(** X6: the two tests of the finder do not depend on the order of the pairs
    in the tuple: reordering a tuple changes neither its number of unique
    assets nor the answer of [check_circular_pairs]. *)
Theorem triangle_tests_ignore_order (data data' : list capsule) :
  data ≡ₚ data' →
  check_if_triangle data = check_if_triangle data'
  ∧ check_circular_pairs data = check_circular_pairs data'.
Proof. apply triangle_tests_ignore_order_aux. Qed.

Lemma triangle_tests_ignore_order_witness :
  check_if_triangle [ETHBTC; BNBETH; BNBBTC]
  = check_if_triangle [BNBBTC; ETHBTC; BNBETH]
  ∧ check_circular_pairs [ETHBTC; BNBETH; BNBBTC]
    = check_circular_pairs [BNBBTC; ETHBTC; BNBETH].
Proof.
  apply (triangle_tests_ignore_order [ETHBTC; BNBETH; BNBBTC]
           [BNBBTC; ETHBTC; BNBETH]).
  change [ETHBTC; BNBETH; BNBBTC] with ([ETHBTC; BNBETH] ++ [BNBBTC]).
  change [BNBBTC; ETHBTC; BNBETH] with ([BNBBTC] ++ [ETHBTC; BNBETH]).
  apply Permutation_app_comm.
Defined.

(** X7: the triangles found do not depend on the order of the catalog, up
    to the order of the legs: every triangle found in a catalog is, in any
    reordering of the catalog, found with the same three pairs. *)
Theorem find_correct_triangles_ignores_catalog_order
    (all_trading_pairs all_trading_pairs' : list capsule) (t : list capsule) :
  all_trading_pairs ≡ₚ all_trading_pairs' →
  In t (find_correct_triangles all_trading_pairs) →
  ∃ t', In t' (find_correct_triangles all_trading_pairs') ∧ t ≡ₚ t'.
Proof.
  intros Hperm. rewrite find_correct_triangles_spec.
  intros (Hc & Hsize & Hcirc).
  pose proof (combinations_sublist _ _ _ Hc) as Hsub.
  pose proof (combinations_length _ _ _ Hc) as Hlen.
  assert (t ⊆+ all_trading_pairs') as Hsubm.
  { rewrite <- Hperm. now apply sublist_submseteq. }
  apply submseteq_sublist_r in Hsubm as (t' & Ht & Hsub').
  exists t'. split; [|exact Ht].
  destruct (triangle_tests_ignore_order_aux t t' Ht) as [H1 H2].
  apply find_correct_triangles_spec. split.
  - apply combinations_complete; [exact Hsub'|].
    now rewrite <- (Permutation_length Ht).
  - now rewrite <- H1, <- H2.
Qed.

Lemma find_correct_triangles_ignores_catalog_order_witness :
  ∃ t', In t' (find_correct_triangles [BNBBTC; BNBETH; ETHBTC])
        ∧ [ETHBTC; BNBETH; BNBBTC] ≡ₚ t'.
Proof.
  apply (find_correct_triangles_ignores_catalog_order
           [ETHBTC; BNBETH; BNBBTC] [BNBBTC; BNBETH; ETHBTC]).
  - change [BNBBTC; BNBETH; ETHBTC] with (rev [ETHBTC; BNBETH; BNBBTC]).
    apply Permutation_rev.
  - vm_compute. auto.
Defined.

(** ** The leg search, completed *)

Lemma tuple_getitem_cases {A : Type} (t : list A) (k : Z) :
  (∃ x, tuple_getitem t k = Ok x ∧ In x t
        ∧ - Z.of_nat (length t) ≤ k < Z.of_nat (length t))
  ∨ (tuple_getitem t k = Raise IndexError
     ∧ (k < - Z.of_nat (length t) ∨ Z.of_nat (length t) ≤ k)).
Proof.
  unfold tuple_getitem.
  set (n := Z.of_nat (length t)).
  set (k' := if k <? 0 then k + n else k).
  assert (k' = if k <? 0 then k + n else k) as Hk' by reflexivity.
  clearbody k'.
  destruct (Z.ltb_spec k' 0) as [Hneg|Hnn]; simpl.
  { right. split; [reflexivity|]. destruct (Z.ltb_spec k 0); lia. }
  destruct (Z.leb_spec n k') as [Hbig|Hin].
  { right. split; [reflexivity|]. destruct (Z.ltb_spec k 0); lia. }
  destruct (lookup_lt_is_Some_2 t (Z.to_nat k')) as [x Hx]; [lia|].
  left. exists x. rewrite Hx. split; [reflexivity|]. split.
  - apply list_elem_of_In. eapply list_elem_of_lookup_2, Hx.
  - destruct (Z.ltb_spec k 0); lia.
Qed.

(** The three outcomes of the search, in terms of the chaining couples. *)
Lemma search_cases (tp : list capsule) :
  (search tp = Ok None ∧ ∀ i j, ¬ chain_at tp i j)
  ∨ (∃ i j p q,
       first_chain_at tp i j ∧ tp !! i = Some p ∧ tp !! j = Some q
       ∧ right p = left q
       ∧ search tp
         = (ac ← tuple_getitem tp
                   (Z.of_nat (length tp) - Z.of_nat i - Z.of_nat j);
            Ok (Some (Legs i j p q ac)))).
Proof.
  destruct (first_chain_cases tp) as [Hno|(i & j & Hfirst)].
  - left. split; [now apply search_none|exact Hno].
  - right. pose proof Hfirst as [(p & q & Hp & Hq & Hpq) _].
    exists i, j, p, q. repeat (split; [assumption|]).
    now apply search_first.
Qed.

Lemma search_some_inv (trading_pairs : list capsule) (l : legs) :
  search trading_pairs = Ok (Some l) →
  first_chain_at trading_pairs (count1 l) (count2 l)
  ∧ trading_pairs !! count1 l = Some (AB l)
  ∧ trading_pairs !! count2 l = Some (BC l)
  ∧ right (AB l) = left (BC l)
  ∧ tuple_getitem trading_pairs
      (Z.of_nat (length trading_pairs)
       - Z.of_nat (count1 l) - Z.of_nat (count2 l)) = Ok (AC l)
  ∧ In (AB l) trading_pairs ∧ In (BC l) trading_pairs
  ∧ In (AC l) trading_pairs.
Proof.
  intros Hsearch.
  destruct (search_cases trading_pairs)
    as [[Hnone _]|(i & j & p & q & Hfirst & Hp & Hq & Hpq & Heq)];
    [congruence|].
  rewrite Heq in Hsearch.
  destruct (tuple_getitem_cases trading_pairs
              (Z.of_nat (length trading_pairs) - Z.of_nat i - Z.of_nat j))
    as [(ac & Hac & Hin & _)|[Hac _]]; rewrite Hac in Hsearch;
    simpl in Hsearch; [|discriminate].
  injection Hsearch as <-. simpl.
  repeat (split; [assumption|]). split; [|split; [|exact Hin]];
    apply list_elem_of_In; eapply list_elem_of_lookup_2; eassumption.
Qed.

(** X8: when the search assigns the legs, it has stopped at the first
    chaining couple of positions: AB and BC are the pairs at these two
    positions, the right asset of AB is the left asset of BC, and AC is a
    member of the tuple, the one at index [len - count1 - count2]. *)
Theorem search_returns_first_chain (trading_pairs : list capsule) (l : legs) :
  search trading_pairs = Ok (Some l) →
  first_chain_at trading_pairs (count1 l) (count2 l)
  ∧ trading_pairs !! count1 l = Some (AB l)
  ∧ trading_pairs !! count2 l = Some (BC l)
  ∧ right (AB l) = left (BC l)
  ∧ tuple_getitem trading_pairs
      (Z.of_nat (length trading_pairs)
       - Z.of_nat (count1 l) - Z.of_nat (count2 l)) = Ok (AC l)
  ∧ In (AB l) trading_pairs ∧ In (BC l) trading_pairs
  ∧ In (AC l) trading_pairs.
Proof. apply search_some_inv. Qed.

Lemma search_returns_first_chain_witness :
  first_chain_at [ETHBTC; BNBETH; BNBBTC] 1 0
  ∧ [ETHBTC; BNBETH; BNBBTC] !! 1%nat = Some BNBETH
  ∧ [ETHBTC; BNBETH; BNBBTC] !! 0%nat = Some ETHBTC
  ∧ right BNBETH = left ETHBTC
  ∧ tuple_getitem [ETHBTC; BNBETH; BNBBTC] (3 - 1 - 0) = Ok BNBBTC
  ∧ In BNBETH [ETHBTC; BNBETH; BNBBTC] ∧ In ETHBTC [ETHBTC; BNBETH; BNBBTC]
  ∧ In BNBBTC [ETHBTC; BNBETH; BNBBTC].
Proof.
  apply (search_returns_first_chain [ETHBTC; BNBETH; BNBBTC]
           (Legs 1 0 BNBETH ETHBTC BNBBTC)).
  reflexivity.
Defined.

(** X9: the search leaves AB, BC and AC unassigned exactly when no pair of
    the tuple has as right asset the left asset of a pair of the tuple,
    itself included. *)
Theorem search_finds_nothing_iff_unchained (trading_pairs : list capsule) :
  search trading_pairs = Ok None ↔
  ∀ p q, In p trading_pairs → In q trading_pairs → right p ≠ left q.
Proof.
  split.
  - intros Hsearch p q Hp Hq Hpq.
    apply list_elem_of_In, list_elem_of_lookup in Hp as [i Hi].
    apply list_elem_of_In, list_elem_of_lookup in Hq as [j Hj].
    destruct (search_cases trading_pairs)
      as [[_ Hno]|(i' & j' & p' & q' & _ & _ & _ & _ & Heq)].
    + apply (Hno i j). exists p, q. auto.
    + rewrite Heq in Hsearch.
      destruct (tuple_getitem trading_pairs _); discriminate.
  - intros Hno. apply search_none. intros i j (p & q & Hi & Hj & Hpq).
    apply (Hno p q); [| |exact Hpq]; apply list_elem_of_In;
      eapply list_elem_of_lookup_2; eassumption.
Qed.

Lemma search_raises_iff_first_pair_self_trading_aux (tp : list capsule)
    (e : exn) :
  search tp = Raise e → e = IndexError.
Proof.
  destruct (search_cases tp)
    as [[Hnone _]|(i & j & p & q & _ & _ & _ & _ & Heq)]; [congruence|].
  rewrite Heq.
  destruct (tuple_getitem_cases tp
              (Z.of_nat (length tp) - Z.of_nat i - Z.of_nat j))
    as [(ac & Hac & _)|[Hac _]]; rewrite Hac; simpl; congruence.
Qed.

(** X10: the only exception of the search is IndexError, and it is raised
    exactly when the first pair of the tuple trades an asset against itself:
    the first match is then the couple of positions (0, 0) and the index
    [len - 0 - 0] is out of range. *)
Theorem search_raises_iff_first_pair_self_trading
    (trading_pairs : list capsule) :
  (∀ e, search trading_pairs = Raise e → e = IndexError)
  ∧ (search trading_pairs = Raise IndexError ↔
     ∃ p, trading_pairs !! 0%nat = Some p ∧ right p = left p).
Proof.
  destruct (search_cases trading_pairs)
    as [[Hnone Hno]|(i & j & p & q & Hfirst & Hp & Hq & Hpq & Heq)].
  - rewrite Hnone. split; [discriminate|]. split; [discriminate|].
    intros (p & Hp & Hpp). destruct (Hno 0%nat 0%nat). exists p, p. auto.
  - pose proof (lookup_lt_Some _ _ _ Hp) as Hi.
    pose proof (lookup_lt_Some _ _ _ Hq) as Hj.
    rewrite Heq.
    destruct (tuple_getitem_cases trading_pairs
                (Z.of_nat (length trading_pairs) - Z.of_nat i - Z.of_nat j))
      as [(ac & Hac & _ & Hrange)|[Hac Hrange]]; rewrite Hac; simpl.
    + split; [discriminate|]. split; [discriminate|].
      intros (p0 & Hp0 & Hpp). exfalso.
      destruct Hfirst as [_ Hmin].
      destruct (decide (i = 0%nat ∧ j = 0%nat)) as [[-> ->]|Hne]; [lia|].
      apply (Hmin 0%nat 0%nat); [lia|]. exists p0, p0. auto.
    + split; [intros e [= <-]; reflexivity|]. split; [|reflexivity].
      intros _. assert (i = 0%nat ∧ j = 0%nat) as [-> ->] by lia.
      exists p. split; [exact Hp|]. congruence.
Qed.

(** ** The evaluation, completed *)

(** What a normal return of the evaluation implies. *)
Lemma calculate_ok_inv (book : gmap string ticker) (result result' : gmap string row)
    (tp : list capsule) :
  calculate_triangular_arbitrage book result tp = Ok result' →
  ∃ l t_AB t_BC t_AC condition1 condition2,
    search tp = Ok (Some l)
    ∧ book !! symbol (AB l) = Some t_AB
    ∧ book !! symbol (BC l) = Some t_BC
    ∧ book !! symbol (AC l) = Some t_AC
    ∧ condition (ticker_a t_AB) (ticker_a t_BC) (ticker_b t_AC) = Ok condition1
    ∧ condition (ticker_b t_AB) (ticker_b t_BC) (ticker_a t_AC) = Ok condition2
    ∧ result' = <[arbitrage_code (AB l) (BC l) :=
                    row_of l t_AB t_BC t_AC condition1 condition2]> result.
Proof.
  unfold calculate_triangular_arbitrage.
  destruct (search tp) as [[l|]|e]; simpl; try discriminate.
  unfold dict_getitem.
  destruct (book !! symbol (AB l)) as [t_AB|] eqn:HAB; simpl; [|discriminate].
  destruct (book !! symbol (BC l)) as [t_BC|] eqn:HBC; simpl; [|discriminate].
  destruct (book !! symbol (AC l)) as [t_AC|] eqn:HAC; simpl; [|discriminate].
  destruct (condition (ticker_a t_AB) _ _) as [c1|] eqn:H1; simpl;
    [|discriminate].
  destruct (condition (ticker_b t_AB) _ _) as [c2|] eqn:H2; simpl;
    [|discriminate].
  intros [= <-]. exists l, t_AB, t_BC, t_AC, c1, c2.
  repeat (split; [first [reflexivity|assumption]|]). reflexivity.
Qed.

(** X11: an evaluation that returns has found the legs and the tickers of
    their three symbols, and it changes [self.result] at one key only, the
    code of the triangle: the entry there holds the asks and bids of the
    book and the verdict "YES" or "NO", and every other entry is
    untouched. *)
Theorem evaluation_writes_one_entry
    (book : gmap string ticker) (result result' : gmap string row)
    (trading_pairs : list capsule) :
  calculate_triangular_arbitrage book result trading_pairs = Ok result' →
  ∃ l t_AB t_BC t_AC verdict,
    search trading_pairs = Ok (Some l)
    ∧ book !! symbol (AB l) = Some t_AB
    ∧ book !! symbol (BC l) = Some t_BC
    ∧ book !! symbol (AC l) = Some t_AC
    ∧ (verdict = "YES" ∨ verdict = "NO")
    ∧ result' !! arbitrage_code (AB l) (BC l)
      = Some (Row [(symbol (AB l), ticker_a t_AB);
                   (symbol (BC l), ticker_a t_BC);
                   (symbol (AC l), ticker_a t_AC)]
                  [(symbol (AB l), ticker_b t_AB);
                   (symbol (BC l), ticker_b t_BC);
                   (symbol (AC l), ticker_b t_AC)] verdict)
    ∧ ∀ k, k ≠ arbitrage_code (AB l) (BC l) → result' !! k = result !! k.
Proof.
  intros Hcalc.
  apply calculate_ok_inv in Hcalc
    as (l & t_AB & t_BC & t_AC & c1 & c2 & Hs & HAB & HBC & HAC & _ & _ & ->).
  exists l, t_AB, t_BC, t_AC, (verdict_of c1 c2).
  repeat (split; [assumption|]). split; [|split].
  - unfold verdict_of. destruct (_ || _); auto.
  - apply lookup_insert_eq.
  - intros k Hk. now apply lookup_insert_ne.
Qed.

Lemma evaluation_writes_one_entry_witness :
  ∃ l t_AB t_BC t_AC verdict,
    search [ETHBTC; BNBETH; BNBBTC] = Ok (Some l)
    ∧ scenario_book !! symbol (AB l) = Some t_AB
    ∧ scenario_book !! symbol (BC l) = Some t_BC
    ∧ scenario_book !! symbol (AC l) = Some t_AC
    ∧ (verdict = "YES" ∨ verdict = "NO")
    ∧ (<["BNB-ETH-BTC" :=
           Row [("BNBETH", dec 15 (-2)); ("ETHBTC", dec 5 (-2));
                ("BNBBTC", dec 76 (-4))]
               [("BNBETH", dec 149 (-3)); ("ETHBTC", dec 499 (-4));
                ("BNBBTC", dec 75 (-4))] "YES"]> (∅ : gmap string row))
      !! arbitrage_code (AB l) (BC l)
      = Some (Row [(symbol (AB l), ticker_a t_AB);
                   (symbol (BC l), ticker_a t_BC);
                   (symbol (AC l), ticker_a t_AC)]
                  [(symbol (AB l), ticker_b t_AB);
                   (symbol (BC l), ticker_b t_BC);
                   (symbol (AC l), ticker_b t_AC)] verdict)
    ∧ ∀ k, k ≠ arbitrage_code (AB l) (BC l) →
           (<["BNB-ETH-BTC" :=
                Row [("BNBETH", dec 15 (-2)); ("ETHBTC", dec 5 (-2));
                     ("BNBBTC", dec 76 (-4))]
                    [("BNBETH", dec 149 (-3)); ("ETHBTC", dec 499 (-4));
                     ("BNBBTC", dec 75 (-4))] "YES"]> (∅ : gmap string row))
           !! k = (∅ : gmap string row) !! k.
Proof.
  apply (evaluation_writes_one_entry scenario_book ∅ _
           [ETHBTC; BNBETH; BNBBTC]).
  vm_compute. reflexivity.
Defined.

(** X12: evaluating a triangle a second time against the same book changes
    nothing: the second call returns the result of the first. *)
Theorem evaluation_is_idempotent
    (book : gmap string ticker) (result result' : gmap string row)
    (trading_pairs : list capsule) :
  calculate_triangular_arbitrage book result trading_pairs = Ok result' →
  calculate_triangular_arbitrage book result' trading_pairs = Ok result'.
Proof.
  intros Hcalc.
  apply calculate_ok_inv in Hcalc
    as (l & t_AB & t_BC & t_AC & c1 & c2 & Hs & HAB & HBC & HAC & H1 & H2 & ->).
  rewrite (calculate_with_legs _ _ _ l t_AB t_BC t_AC) by assumption.
  rewrite H1. simpl. rewrite H2. simpl.
  fold (verdict_of c1 c2). fold (row_of l t_AB t_BC t_AC c1 c2).
  now rewrite insert_insert_eq.
Qed.

Lemma evaluation_is_idempotent_witness :
  calculate_triangular_arbitrage scenario_book
    (<["BNB-ETH-BTC" :=
         Row [("BNBETH", dec 15 (-2)); ("ETHBTC", dec 5 (-2));
              ("BNBBTC", dec 76 (-4))]
             [("BNBETH", dec 149 (-3)); ("ETHBTC", dec 499 (-4));
              ("BNBBTC", dec 75 (-4))] "YES"]> ∅)
    [ETHBTC; BNBETH; BNBBTC]
  = Ok (<["BNB-ETH-BTC" :=
            Row [("BNBETH", dec 15 (-2)); ("ETHBTC", dec 5 (-2));
                 ("BNBBTC", dec 76 (-4))]
                [("BNBETH", dec 149 (-3)); ("ETHBTC", dec 499 (-4));
                 ("BNBBTC", dec 75 (-4))] "YES"]> ∅).
Proof.
  apply (evaluation_is_idempotent scenario_book ∅ _ [ETHBTC; BNBETH; BNBBTC]).
  vm_compute. reflexivity.
Defined.

(** X13: the evaluation of a triangle reads the tickers of the symbols of
    its pairs only: two books that agree on these symbols give the same
    outcome, result or exception. *)
Theorem evaluation_reads_its_legs_only
    (book book' : gmap string ticker) (result : gmap string row)
    (trading_pairs : list capsule) :
  (∀ p, In p trading_pairs → book !! symbol p = book' !! symbol p) →
  calculate_triangular_arbitrage book result trading_pairs
  = calculate_triangular_arbitrage book' result trading_pairs.
Proof.
  intros Hagree. unfold calculate_triangular_arbitrage.
  destruct (search trading_pairs) as [[l|]|e] eqn:Hsearch; simpl;
    try reflexivity.
  destruct (search_cases trading_pairs)
    as [[Hnone _]|(i & j & p & q & _ & Hp & Hq & _ & Heq)]; [congruence|].
  rewrite Heq in Hsearch.
  destruct (tuple_getitem_cases trading_pairs
              (Z.of_nat (length trading_pairs) - Z.of_nat i - Z.of_nat j))
    as [(ac & Hac & Hin & _)|[Hac _]]; rewrite Hac in Hsearch;
    simpl in Hsearch; [|discriminate].
  injection Hsearch as <-. simpl. unfold dict_getitem.
  rewrite <- (Hagree p), <- (Hagree q), <- (Hagree ac); try assumption;
    try (apply list_elem_of_In; eapply list_elem_of_lookup_2; eassumption).
  reflexivity.
Qed.

Lemma evaluation_reads_its_legs_only_witness :
  calculate_triangular_arbitrage scenario_book ∅ [ETHBTC; BNBETH; BNBBTC]
  = calculate_triangular_arbitrage
      (<["XRPUSDT" := Ticker "XRPUSDT" (dec 52 (-2)) (dec 51 (-2))]>
         scenario_book) ∅ [ETHBTC; BNBETH; BNBBTC].
Proof.
  apply (evaluation_reads_its_legs_only scenario_book
           (<["XRPUSDT" := Ticker "XRPUSDT" (dec 52 (-2)) (dec 51 (-2))]>
              scenario_book) ∅ [ETHBTC; BNBETH; BNBBTC]).
  intros p [<-|[<-|[<-|[]]]]; reflexivity.
Defined.

Lemma inverse_division_by_zero (y : PyDecimal.t) :
  PyDecimal.truediv PyDecimal.one y = Raise DivisionByZero →
  PyDecimal._int y = 0%N.
Proof.
  unfold PyDecimal.truediv, PyDecimal.nonzero. cbv zeta.
  destruct (N.eqb_spec (PyDecimal._int y) 0) as [Hz|Hnz]; [auto|].
  simpl negb. cbv iota. change (negb (negb (PyDecimal._int PyDecimal.one =? 0)%N))
    with false. cbv iota.
  destruct (negb _).
  - intros H. apply PyDecimalFacts.fix_raise in H. discriminate.
  - destruct (PyDecimal.strip_zeros _ _ _ _). intros H.
    apply PyDecimalFacts.fix_raise in H. discriminate.
Qed.

Lemma condition_division_by_zero (x_AB x_BC y_AC : PyDecimal.t) :
  condition x_AB x_BC y_AC = Raise DivisionByZero → PyDecimal._int y_AC = 0%N.
Proof.
  unfold condition.
  destruct (PyDecimal.mul x_AB x_BC) as [p|e1] eqn:Hp; simpl.
  - destruct (PyDecimal.truediv PyDecimal.one y_AC) as [q|e2] eqn:Hq; simpl.
    + intros H. apply PyDecimalFacts.mul_raise in H. discriminate.
    + intros [= ->]. now apply inverse_division_by_zero.
  - intros [= ->]. apply PyDecimalFacts.mul_raise in Hp. discriminate.
Qed.

Lemma calculate_no_legs (book : gmap string ticker)
    (result : gmap string row) (tp : list capsule) :
  search tp = Ok None →
  calculate_triangular_arbitrage book result tp = Raise TypeError.
Proof. intros H. unfold calculate_triangular_arbitrage. now rewrite H. Qed.

Lemma calculate_search_raises (book : gmap string ticker)
    (result : gmap string row) (tp : list capsule) (e : exn) :
  search tp = Raise e →
  calculate_triangular_arbitrage book result tp = Raise e.
Proof. intros H. unfold calculate_triangular_arbitrage. now rewrite H. Qed.

Lemma calculate_missing_quote (book : gmap string ticker)
    (result : gmap string row) (tp : list capsule) (l : legs) :
  search tp = Ok (Some l) →
  book !! symbol (AB l) = None ∨ book !! symbol (BC l) = None
  ∨ book !! symbol (AC l) = None →
  calculate_triangular_arbitrage book result tp = Raise KeyError.
Proof.
  intros Hs Hmiss. unfold calculate_triangular_arbitrage. rewrite Hs. simpl.
  unfold dict_getitem.
  destruct (book !! symbol (AB l)); simpl; [|reflexivity].
  destruct (book !! symbol (BC l)); simpl; [|reflexivity].
  destruct (book !! symbol (AC l)); simpl; [|reflexivity].
  destruct Hmiss as [H|[H|H]]; discriminate.
Qed.

(** What an exception of the evaluation implies. *)
Lemma calculate_raise_inv (book : gmap string ticker)
    (result : gmap string row) (tp : list capsule) (e : exn) :
  calculate_triangular_arbitrage book result tp = Raise e →
  (e = TypeError ∧ search tp = Ok None)
  ∨ (e = IndexError ∧ search tp = Raise IndexError)
  ∨ (e = KeyError
     ∧ ∃ l, search tp = Ok (Some l)
            ∧ (book !! symbol (AB l) = None ∨ book !! symbol (BC l) = None
               ∨ book !! symbol (AC l) = None))
  ∨ ((e = DivisionByZero ∨ e = Overflow)
     ∧ ∃ l t_AB t_BC t_AC,
         search tp = Ok (Some l)
         ∧ book !! symbol (AB l) = Some t_AB
         ∧ book !! symbol (BC l) = Some t_BC
         ∧ book !! symbol (AC l) = Some t_AC
         ∧ (condition (ticker_a t_AB) (ticker_a t_BC) (ticker_b t_AC) = Raise e
            ∨ condition (ticker_b t_AB) (ticker_b t_BC) (ticker_a t_AC)
              = Raise e)).
Proof.
  unfold calculate_triangular_arbitrage.
  destruct (search tp) as [[l|]|e0] eqn:Hsearch; simpl.
  - unfold dict_getitem.
    destruct (book !! symbol (AB l)) as [t_AB|] eqn:HAB; simpl;
      [|intros [= <-]; right; right; left; split; [reflexivity|];
        exists l; auto].
    destruct (book !! symbol (BC l)) as [t_BC|] eqn:HBC; simpl;
      [|intros [= <-]; right; right; left; split; [reflexivity|];
        exists l; auto].
    destruct (book !! symbol (AC l)) as [t_AC|] eqn:HAC; simpl;
      [|intros [= <-]; right; right; left; split; [reflexivity|];
        exists l; auto].
    destruct (condition (ticker_a t_AB) _ _) as [c1|e1] eqn:H1; simpl.
    + destruct (condition (ticker_b t_AB) _ _) as [c2|e2] eqn:H2; simpl;
        [discriminate|].
      intros [= <-]. right. right. right.
      split; [eapply condition_raise, H2|].
      exists l, t_AB, t_BC, t_AC. auto 10.
    + intros [= <-]. right. right. right.
      split; [eapply condition_raise, H1|].
      exists l, t_AB, t_BC, t_AC. auto 10.
  - intros [= <-]. left. auto.
  - intros [= <-]. right. left.
    rewrite (search_raises_iff_first_pair_self_trading_aux tp e0 Hsearch).
    auto.
Qed.

(** X14: the exceptions of the evaluation and their causes, over a book
    whose asks and bids are finite decimals, as a [ticker] holds them: a
    price that [Decimal] does not convert, or converts to NaN or to an
    infinity, is outside this statement. There TypeError is raised exactly
    when the search assigns no legs, IndexError exactly when the search
    raises it, KeyError exactly when the legs are found and the symbol of
    one of them is not in the book; DivisionByZero is raised only when the
    ask or the bid of the leg AC is zero; any other exception is Overflow. *)
Theorem evaluation_exceptions
    (book : gmap string ticker) (result : gmap string row)
    (trading_pairs : list capsule) :
  (calculate_triangular_arbitrage book result trading_pairs = Raise TypeError
   ↔ search trading_pairs = Ok None)
  ∧ (calculate_triangular_arbitrage book result trading_pairs
     = Raise IndexError
     ↔ search trading_pairs = Raise IndexError)
  ∧ (calculate_triangular_arbitrage book result trading_pairs = Raise KeyError
     ↔ ∃ l, search trading_pairs = Ok (Some l)
            ∧ (book !! symbol (AB l) = None ∨ book !! symbol (BC l) = None
               ∨ book !! symbol (AC l) = None))
  ∧ (calculate_triangular_arbitrage book result trading_pairs
     = Raise DivisionByZero
     → ∃ l t_AC, search trading_pairs = Ok (Some l)
                 ∧ book !! symbol (AC l) = Some t_AC
                 ∧ (PyDecimal._int (ticker_a t_AC) = 0%N
                    ∨ PyDecimal._int (ticker_b t_AC) = 0%N))
  ∧ (∀ e, calculate_triangular_arbitrage book result trading_pairs = Raise e →
          e = TypeError ∨ e = IndexError ∨ e = KeyError
          ∨ e = DivisionByZero ∨ e = Overflow).
Proof.
  split; [|split; [|split; [|split]]].
  - split; [|apply calculate_no_legs].
    intros H. apply calculate_raise_inv in H
      as [[_ H]|[[? _]|[[? _]|[[?|?] _]]]]; [exact H|discriminate..].
  - split; [|apply calculate_search_raises].
    intros H. apply calculate_raise_inv in H
      as [[? _]|[[_ H]|[[? _]|[[?|?] _]]]]; [|exact H|..]; discriminate.
  - split.
    + intros H. apply calculate_raise_inv in H
        as [[? _]|[[? _]|[[_ H]|[[?|?] _]]]]; [| |exact H|..]; discriminate.
    + intros (l & Hs & Hmiss). eapply calculate_missing_quote; eassumption.
  - intros H. apply calculate_raise_inv in H
      as [[? _]|[[? _]|[[? _]|[_ (l & t_AB & t_BC & t_AC & Hs & _ & _ & HAC
                                    & [Hc|Hc])]]]]; try discriminate;
      exists l, t_AC; (split; [exact Hs|]); (split; [exact HAC|]);
      apply condition_division_by_zero in Hc; auto.
  - intros e H. apply calculate_raise_inv in H
      as [[-> _]|[[-> _]|[[-> _]|[[->| ->] _]]]]; auto 10.
Qed.

Lemma mul_zero (x y : PyDecimal.t) :
  PyDecimal._int x = 0%N ∨ PyDecimal._int y = 0%N →
  ∃ z, PyDecimal.mul x y = Ok z ∧ PyDecimal._int z = 0%N.
Proof.
  intros Hz. unfold PyDecimal.mul, PyDecimal._fix, PyDecimal.nonzero. simpl.
  assert (PyDecimal._int x * PyDecimal._int y = 0)%N as ->
    by (destruct Hz as [-> | ->]; lia).
  simpl. eexists. split; reflexivity.
Qed.

Lemma value_zero (d : PyDecimal.t) :
  PyDecimal._int d = 0%N → (PyDecimal.value d == 0)%Q.
Proof.
  intros Hz. unfold PyDecimal.value. rewrite Hz. simpl.
  destruct (PyDecimal._sign d); ring.
Qed.

Lemma zero_below_one (d : PyDecimal.t) :
  PyDecimal._int d = 0%N → PyDecimal.lt d PyDecimal.one = true.
Proof.
  intros Hz. apply PyDecimalFacts.lt_value.
  rewrite (value_zero d Hz), value_one. reflexivity.
Qed.

(** X15: a zero ask on the leg AB or on the leg BC is taken for an
    opportunity. When the other prices the two rates use are positive and
    within range, the evaluation returns normally, the forward rate is zero
    and the verdict stored is "YES", whatever the backward rate. *)
Theorem zero_ask_reports_arbitrage
    (book : gmap string ticker) (result : gmap string row)
    (trading_pairs : list capsule) (l : legs) (t_AB t_BC t_AC : ticker) :
  search trading_pairs = Ok (Some l) →
  book !! symbol (AB l) = Some t_AB →
  book !! symbol (BC l) = Some t_BC →
  book !! symbol (AC l) = Some t_AC →
  PyDecimal._int (ticker_a t_AB) = 0%N ∨ PyDecimal._int (ticker_a t_BC) = 0%N →
  Forall PyDecimal.in_range
    [ticker_b t_AB; ticker_b t_BC; ticker_a t_AC; ticker_b t_AC] →
  calculate_triangular_arbitrage book result trading_pairs
  = Ok (<[arbitrage_code (AB l) (BC l) :=
            Row [(symbol (AB l), ticker_a t_AB);
                 (symbol (BC l), ticker_a t_BC);
                 (symbol (AC l), ticker_a t_AC)]
                [(symbol (AB l), ticker_b t_AB);
                 (symbol (BC l), ticker_b t_BC);
                 (symbol (AC l), ticker_b t_AC)] "YES"]> result).
Proof.
  intros Hs HAB HBC HAC Hzero Hrange.
  repeat match goal with
         | H : Forall _ (_ :: _) |- _ => apply Forall_cons_1 in H as [? H]
         end.
  rewrite (calculate_with_legs _ _ _ l t_AB t_BC t_AC) by assumption.
  destruct (mul_zero (ticker_a t_AB) (ticker_a t_BC) Hzero) as (p & Hp & Hp0).
  destruct (PyDecimalFacts.inverse_small (ticker_b t_AC) (-300000))
    as (q & Hq & _); [now apply in_range_big|unfold PyDecimal.Emax; lia|].
  destruct (mul_zero p q (or_introl Hp0)) as (c1 & Hc1 & Hc10).
  destruct (condition_in_range (ticker_b t_AB) (ticker_b t_BC) (ticker_a t_AC))
    as [c2 Hc2]; try assumption.
  assert (condition (ticker_a t_AB) (ticker_a t_BC) (ticker_b t_AC) = Ok c1)
    as Hcond1.
  { unfold condition. rewrite Hp. simpl. rewrite Hq. simpl. exact Hc1. }
  rewrite Hcond1. simpl. rewrite Hc2. simpl.
  now rewrite (zero_below_one c1 Hc10).
Qed.

Lemma zero_ask_reports_arbitrage_witness :
  calculate_triangular_arbitrage zero_ask_book ∅ [ETHBTC; BNBETH; BNBBTC]
  = Ok (<["BNB-ETH-BTC" :=
            Row [("BNBETH", dec 0 0); ("ETHBTC", dec 5 (-2));
                 ("BNBBTC", dec 76 (-4))]
                [("BNBETH", dec 149 (-3)); ("ETHBTC", dec 499 (-4));
                 ("BNBBTC", dec 75 (-4))] "YES"]> ∅).
Proof.
  apply (zero_ask_reports_arbitrage zero_ask_book ∅ [ETHBTC; BNBETH; BNBBTC]
           (Legs 1 0 BNBETH ETHBTC BNBBTC)
           (Ticker "BNBETH" (dec 0 0) (dec 149 (-3)))
           (Ticker "ETHBTC" (dec 5 (-2)) (dec 499 (-4)))
           (Ticker "BNBBTC" (dec 76 (-4)) (dec 75 (-4)))).
  - reflexivity.
  - reflexivity.
  - reflexivity.
  - reflexivity.
  - left. reflexivity.
  - repeat (constructor;
            [split; [split; reflexivity|split; vm_compute; discriminate]|]).
    constructor.
Defined.

(** ** The dispatcher, completed *)

Lemma on_message_book (self : ArbitrageDetector) (data : ticker) :
  book_ticker_data (fst (on_message self data))
  = <[ticker_s data := data]> (book_ticker_data self).
Proof.
  destruct (on_message self data) as [self' out] eqn:Hmsg. simpl.
  unfold on_message in Hmsg.
  now apply on_message_loop_spec in Hmsg as (Hb & _).
Qed.

(** X16: the book keeps the latest ticker of every symbol. After a stream,
    the entry of a symbol is the last ticker of the stream with that symbol,
    or the entry from before the stream, absent or not, when the stream has
    none. *)
Theorem book_keeps_latest_ticker
    (self : ArbitrageDetector) (stream : list ticker) (s : string) :
  book_ticker_data (run self stream) !! s
  = latest s stream (book_ticker_data self !! s).
Proof.
  revert self. induction stream as [|data stream IH]; intros self;
    [reflexivity|].
  change (run self (data :: stream))
    with (run (fst (on_message self data)) stream).
  rewrite IH, on_message_book. simpl. f_equal.
  destruct (String.eqb_spec (ticker_s data) s) as [->|Hne].
  - apply lookup_insert_eq.
  - now apply lookup_insert_ne.
Qed.

Lemma count_quoted_all (book : gmap string ticker) (target : list capsule) :
  (∀ p, In p target → is_Some (book !! symbol p)) →
  count_quoted book target = length target.
Proof.
  unfold count_quoted. induction target as [|p target IH]; intros Hall;
    [reflexivity|].
  simpl. unfold dict_contains at 1.
  destruct (Hall p (or_introl eq_refl)) as [v ->]. simpl. f_equal.
  apply IH. intros q Hq. apply Hall. now right.
Qed.

(** A triangle of three pairs that is quoted stays quoted when a ticker is
    stored. *)
Lemma quoted_insert (book : gmap string ticker) (target : list capsule)
    (data : ticker) :
  length target = 3%nat → quoted book target = true →
  quoted (<[ticker_s data := data]> book) target = true.
Proof.
  intros Hlen Hq. unfold quoted. apply Nat.eqb_eq. rewrite <- Hlen.
  apply count_quoted_all. intros p Hp.
  destruct (quoted_all book target p Hlen Hq Hp) as [v Hv].
  destruct (decide (ticker_s data = symbol p)) as [Heq|Hne].
  - rewrite <- Heq, lookup_insert_eq. eauto.
  - rewrite lookup_insert_ne by exact Hne. eauto.
Qed.

(** X17: the test of the dispatcher protects the evaluator's look-ups. From
    the start-up on, whatever the catalog and the ticks, no call of
    [on_message] ends with KeyError. *)
Theorem on_message_never_raises_KeyError
    (symbols : list exchange_symbol) (stream : list ticker) (data : ticker) :
  snd (on_message (run (init symbols) stream) data) ≠ Some KeyError.
Proof.
  destruct (run_consistent stream (init symbols) [] (init_consistent symbols))
    as (Hlen & _).
  destruct (on_message (run (init symbols) stream) data) as [self' out] eqn:Hmsg.
  simpl. intros ->. unfold on_message in Hmsg.
  apply on_message_loop_spec in Hmsg as (Hb & _ & called & _ & Hout).
  simpl in Hb, Hout.
  destruct Hout as (before & target & after & Hready & _ & Hraise).
  assert (In target (List.filter
                       (quoted (<[ticker_s data := data]>
                                  (book_ticker_data (run (init symbols) stream))))
                       (correct_triangles (run (init symbols) stream))))
    as Hin.
  { rewrite Hready. apply in_app_iff. right. now left. }
  apply filter_In in Hin as [Htri Hq].
  apply calculate_raise_inv in Hraise
    as [[? _]|[[? _]|[[_ (l & Hs & Hmiss)]|[[?|?] _]]]]; try discriminate.
  destruct (search_some_inv target l Hs)
    as (_ & _ & _ & _ & _ & HinAB & HinBC & HinAC).
  pose proof (quoted_all _ target _ (Hlen target Htri) Hq HinAB) as [? HAB].
  pose proof (quoted_all _ target _ (Hlen target Htri) Hq HinBC) as [? HBC].
  pose proof (quoted_all _ target _ (Hlen target Htri) Hq HinAC) as [? HAC].
  destruct Hmiss as [H|[H|H]]; congruence.
Qed.

Lemma on_message_loop_keys (todo : list (list capsule))
    (self self' : ArbitrageDetector) (out : option exn) (k : string) :
  on_message_loop todo self = (self', out) →
  is_Some (result self' !! k) →
  is_Some (result self !! k)
  ∨ ∃ t l, In t todo ∧ quoted (book_ticker_data self) t = true
           ∧ search t = Ok (Some l) ∧ k = arbitrage_code (AB l) (BC l).
Proof.
  revert self. induction todo as [|target todo IH]; intros self; simpl.
  - intros [= <- <-]. auto.
  - change (Nat.eqb (count_quoted (book_ticker_data self) target) 3)
      with (quoted (book_ticker_data self) target).
    destruct (quoted (book_ticker_data self) target) eqn:Hq.
    + destruct (calculate_triangular_arbitrage _ _ target) as [result'|e] eqn:Hc.
      * intros Hloop Hk. destruct (IH _ Hloop Hk) as [Hold|(t & l & Ht & Hqt & Hs & ->)].
        -- simpl in Hold.
           apply calculate_ok_inv in Hc
             as (l & t_AB & t_BC & t_AC & c1 & c2 & Hs & _ & _ & _ & _ & _ & ->).
           destruct (decide (arbitrage_code (AB l) (BC l) = k)) as [<-|Hne].
           ++ right. exists target, l. auto.
           ++ left. now rewrite lookup_insert_ne in Hold.
        -- right. exists t, l. simpl in Hqt. auto.
      * intros [= <- <-]. simpl. auto.
    + intros Hloop Hk. destruct (IH _ Hloop Hk) as [Hold|(t & l & Ht & Hqt & Hs & ->)];
        [auto|]. right. exists t, l. auto.
Qed.

Lemma on_message_codes (self : ArbitrageDetector) (data : ticker) :
  (∀ t, In t (correct_triangles self) → length t = 3%nat) →
  (∀ k, is_Some (result self !! k) → code_of_quoted self k) →
  ∀ k, is_Some (result (fst (on_message self data)) !! k) →
       code_of_quoted (fst (on_message self data)) k.
Proof.
  intros Hlen Hinv k.
  pose proof (on_message_book self data) as Hbook.
  pose proof (on_message_triangles self data) as Htri.
  destruct (on_message self data) as [self' out] eqn:Hmsg. simpl in *.
  unfold on_message in Hmsg. intros Hk.
  destruct (on_message_loop_keys _ _ _ _ k Hmsg Hk)
    as [Hold|(t & l & Ht & Hq & Hs & ->)]; simpl in *.
  - destruct (Hinv k Hold) as (t & l & Ht & Hq & Hs & ->).
    exists t, l. rewrite Htri, Hbook. repeat split; try assumption.
    apply quoted_insert; [now apply Hlen|exact Hq].
  - exists t, l. rewrite Htri, Hbook. auto.
Qed.

Lemma run_codes (stream : list ticker) (self : ArbitrageDetector) :
  (∀ t, In t (correct_triangles self) → length t = 3%nat) →
  (∀ k, is_Some (result self !! k) → code_of_quoted self k) →
  ∀ k, is_Some (result (run self stream) !! k) →
       code_of_quoted (run self stream) k.
Proof.
  revert self. induction stream as [|data stream IH]; intros self Hlen Hinv;
    [exact Hinv|].
  change (run self (data :: stream))
    with (run (fst (on_message self data)) stream).
  apply IH.
  - now rewrite on_message_triangles.
  - now apply on_message_codes.
Qed.

Lemma init_triangles_length (symbols : list exchange_symbol) (t : list capsule) :
  In t (correct_triangles (init symbols)) → length t = 3%nat.
Proof. apply (init_consistent symbols). Qed.

Lemma result_keys_are_triangle_codes_aux
    (symbols : list exchange_symbol) (stream : list ticker) (k : string) :
  is_Some (result (run (init symbols) stream) !! k) →
  code_of_quoted (run (init symbols) stream) k.
Proof.
  apply run_codes.
  - apply init_triangles_length.
  - simpl. intros k' [v Hv]. rewrite lookup_empty in Hv. discriminate.
Qed.

(** X18: every key of [self.result] is the code of one of the detector's
    triangles, one whose three legs are quoted and whose legs the search
    finds. This holds from the start-up on, after any stream of ticks. *)
Theorem result_keys_are_triangle_codes
    (symbols : list exchange_symbol) (stream : list ticker) (k : string) :
  is_Some (result (run (init symbols) stream) !! k) →
  code_of_quoted (run (init symbols) stream) k.
Proof. apply result_keys_are_triangle_codes_aux. Qed.

Lemma result_keys_are_triangle_codes_witness :
  code_of_quoted (run (init scenario_symbols) three_quotes) "BNB-ETH-BTC".
Proof.
  apply (result_keys_are_triangle_codes scenario_symbols three_quotes
           "BNB-ETH-BTC").
  vm_compute. eexists. reflexivity.
Defined.

Lemma calculate_from_empty (book : gmap string ticker)
    (result result' : gmap string row) (tp : list capsule) :
  calculate_triangular_arbitrage book result tp = Ok result' →
  ∃ l k row, search tp = Ok (Some l) ∧ k = arbitrage_code (AB l) (BC l)
             ∧ result' = <[k := row]> result
             ∧ calculate_triangular_arbitrage book ∅ tp = Ok (<[k := row]> ∅).
Proof.
  intros Hc. apply calculate_ok_inv in Hc
    as (l & t_AB & t_BC & t_AC & c1 & c2 & Hs & HAB & HBC & HAC & H1 & H2 & ->).
  exists l, (arbitrage_code (AB l) (BC l)), (row_of l t_AB t_BC t_AC c1 c2).
  repeat (split; [first [reflexivity|assumption]|]).
  rewrite (calculate_with_legs _ _ _ l t_AB t_BC t_AC) by assumption.
  rewrite H1. simpl. rewrite H2. reflexivity.
Qed.

Lemma on_message_loop_fresh (todo : list (list capsule))
    (self self' : ArbitrageDetector) (k : string) (r : row) :
  on_message_loop todo self = (self', None) →
  result self' !! k = Some r →
  (∃ t, In t todo ∧ quoted (book_ticker_data self) t = true
        ∧ calculate_triangular_arbitrage (book_ticker_data self) ∅ t
          = Ok (<[k := r]> ∅))
  ∨ (result self !! k = Some r
     ∧ ∀ t l, In t todo → quoted (book_ticker_data self) t = true →
              search t = Ok (Some l) → arbitrage_code (AB l) (BC l) ≠ k).
Proof.
  revert self. induction todo as [|target todo IH]; intros self; simpl.
  - intros [= <-] Hk. right. split; [exact Hk|]. intros t l [].
  - change (Nat.eqb (count_quoted (book_ticker_data self) target) 3)
      with (quoted (book_ticker_data self) target).
    destruct (quoted (book_ticker_data self) target) eqn:Hq.
    + destruct (calculate_triangular_arbitrage _ _ target) as [result'|e] eqn:Hc;
        [|discriminate].
      intros Hloop Hk.
      destruct (IH _ Hloop Hk) as [(t & Ht & Hqt & Hcalc)|[Hold Hno]];
        simpl in *.
      * left. exists t. auto.
      * apply calculate_from_empty in Hc
          as (l & k0 & row0 & Hs & -> & -> & Hempty).
        destruct (decide (arbitrage_code (AB l) (BC l) = k)) as [<-|Hne].
        -- rewrite lookup_insert_eq in Hold. injection Hold as ->.
           left. exists target. auto.
        -- rewrite lookup_insert_ne in Hold by exact Hne.
           right. split; [exact Hold|].
           intros t l' [<-|Ht] Hqt Hs'; [congruence|]. eapply Hno; eassumption.
    + intros Hloop Hk.
      destruct (IH _ Hloop Hk) as [(t & Ht & Hqt & Hcalc)|[Hold Hno]].
      * left. exists t. auto.
      * right. split; [exact Hold|].
        intros t l [<-|Ht] Hqt Hs; [congruence|]. eapply Hno; eassumption.
Qed.

(** X19: after a tick handled without exception no entry of [self.result]
    is stale. From the start-up on, when [on_message] returns normally,
    every entry of the result map is the entry that the evaluation of one of
    the triangles against the book as it now stands produces. *)
Theorem completed_tick_refreshes_every_entry
    (symbols : list exchange_symbol) (stream : list ticker) (data : ticker)
    (self' : ArbitrageDetector) (k : string) (r : row) :
  on_message (run (init symbols) stream) data = (self', None) →
  result self' !! k = Some r →
  ∃ t, In t (correct_triangles self')
       ∧ quoted (book_ticker_data self') t = true
       ∧ calculate_triangular_arbitrage (book_ticker_data self') ∅ t
         = Ok (<[k := r]> ∅).
Proof.
  intros Hmsg Hk.
  pose proof (on_message_book (run (init symbols) stream) data) as Hbook.
  pose proof (on_message_triangles (run (init symbols) stream) data) as Htri.
  rewrite Hmsg in Hbook, Htri. simpl in Hbook, Htri.
  unfold on_message in Hmsg.
  destruct (on_message_loop_fresh _ _ _ k r Hmsg Hk)
    as [(t & Ht & Hq & Hcalc)|[Hold Hno]]; simpl in *.
  - exists t. rewrite Htri, Hbook. auto.
  - exfalso.
    destruct (result_keys_are_triangle_codes_aux symbols stream k
                (mk_is_Some _ _ Hold)) as (t & l & Ht & Hq & Hs & ->).
    apply (Hno t l Ht); [|exact Hs|reflexivity].
    apply quoted_insert; [|exact Hq].
    destruct (run_consistent stream (init symbols) []
                (init_consistent symbols)) as (Hlen & _).
    now apply Hlen.
Qed.

Lemma completed_tick_refreshes_every_entry_witness :
  ∃ t, In t (correct_triangles
               (fst (on_message (run (init scenario_symbols) three_quotes)
                       (Ticker "ETHBTC" (dec 51 (-3)) (dec 5 (-2))))))
       ∧ quoted
           (book_ticker_data
              (fst (on_message (run (init scenario_symbols) three_quotes)
                      (Ticker "ETHBTC" (dec 51 (-3)) (dec 5 (-2)))))) t = true
       ∧ calculate_triangular_arbitrage
           (book_ticker_data
              (fst (on_message (run (init scenario_symbols) three_quotes)
                      (Ticker "ETHBTC" (dec 51 (-3)) (dec 5 (-2)))))) ∅ t
         = Ok (<["BNB-ETH-BTC" :=
                   Row [("BNBETH", dec 15 (-2)); ("ETHBTC", dec 51 (-3));
                        ("BNBBTC", dec 76 (-4))]
                       [("BNBETH", dec 149 (-3)); ("ETHBTC", dec 5 (-2));
                        ("BNBBTC", dec 75 (-4))] "NO"]> ∅).
Proof.
  apply (completed_tick_refreshes_every_entry scenario_symbols three_quotes
           (Ticker "ETHBTC" (dec 51 (-3)) (dec 5 (-2)))).
  - vm_compute. reflexivity.
  - vm_compute. reflexivity.
Defined.

(** ** A run without exception *)

Lemma sublist_lookup_lt {A : Type} (t l : list A) (i j : nat) (p q : A) :
  sublist t l → (i < j)%nat → t !! i = Some p → t !! j = Some q →
  ∃ i' j', (i' < j')%nat ∧ l !! i' = Some p ∧ l !! j' = Some q.
Proof.
  intros Hsub. revert i j.
  induction Hsub as [|x t l Hsub IH|x t l Hsub IH]; intros i j Hlt Hp Hq.
  - discriminate.
  - destruct i as [|i]; destruct j as [|j]; try lia; simpl in Hp, Hq.
    + apply list_elem_of_lookup_2 in Hq.
      assert (q ∈ l) as Hin by (eapply sublist_subseteq; eassumption).
      apply list_elem_of_lookup in Hin as [j' Hj'].
      exists 0%nat, (S j'). simpl. split; [lia|]. auto.
    + destruct (IH i j ltac:(lia) Hp Hq) as (i' & j' & Hlt' & Hi' & Hj').
      exists (S i'), (S j'). simpl. split; [lia|]. auto.
  - destruct (IH i j Hlt Hp Hq) as (i' & j' & Hlt' & Hi' & Hj').
    exists (S i'), (S j'). simpl. split; [lia|]. auto.
Qed.

Lemma proper_catalog_sublist (t l : list capsule) :
  sublist t l → proper_catalog l → proper_catalog t.
Proof.
  intros Hsub [Hloop Hdup]. split.
  - intros p Hp. apply Hloop. apply list_elem_of_In.
    eapply sublist_subseteq; [exact Hsub|]. now apply list_elem_of_In.
  - intros i j p q Hij Hp Hq Hsame.
    destruct (Nat.lt_total i j) as [Hlt|[Heq|Hgt]]; [|contradiction|].
    + destruct (sublist_lookup_lt t l i j p q Hsub Hlt Hp Hq)
        as (i' & j' & Hlt' & Hi' & Hj').
      apply (Hdup i' j' p q); [lia|assumption..].
    + destruct (sublist_lookup_lt t l j i q p Hsub Hgt Hq Hp)
        as (j' & i' & Hlt' & Hj' & Hi').
      apply (Hdup j' i' q p); [lia|assumption..|].
      destruct Hsame as [H1 H2]. split; congruence.
Qed.

(** The search finds the legs of every accepted triangle of a proper
    catalog. *)
Lemma proper_triangle_has_legs (all_trading_pairs t : list capsule) :
  proper_catalog all_trading_pairs →
  In t (find_correct_triangles all_trading_pairs) →
  ∃ l, search t = Ok (Some l).
Proof.
  intros Hproper Hin.
  apply find_correct_triangles_spec in Hin as (Hcomb & Hsize & Hcirc).
  pose proof (combinations_length _ _ _ Hcomb) as Hlen.
  destruct (proper_catalog_sublist t all_trading_pairs
              (combinations_sublist _ _ _ Hcomb) Hproper) as [Hloop Hdup].
  unfold check_if_triangle in Hsize. rewrite <- assets_union in Hsize.
  assert (∀ i p, t !! i = Some p →
                 left p ∈ assets t ∧ right p ∈ assets t ∧ left p ≠ right p)
    as Hmem.
  { intros i p Hp. apply list_elem_of_lookup_2 in Hp.
    destruct (elem_of_assets _ _ Hp). split; [|split]; try assumption.
    apply Hloop. now apply list_elem_of_In. }
  destruct (first_chain_cases t) as [Hno|(i & j & Hfirst)].
  - exfalso.
    destruct t as [|p0 [|p1 [|p2 [|]]]]; try discriminate Hlen.
    assert (∀ i j p q, [p0; p1; p2] !! i = Some p → [p0; p1; p2] !! j = Some q →
                       right p ≠ left q) as Hne.
    { intros i j p q Hp Hq Heq. apply (Hno i j). exists p, q. auto. }
    destruct (Hmem 0%nat p0 eq_refl) as (? & ? & ?).
    destruct (Hmem 1%nat p1 eq_refl) as (? & ? & ?).
    destruct (Hmem 2%nat p2 eq_refl) as (? & ? & ?).
    apply (some_chain (assets [p0; p1; p2])
             (left p0) (right p0) (left p1) (right p1) (left p2) (right p2));
      try assumption.
    + apply (Hdup 0%nat 1%nat); [lia|reflexivity..].
    + apply (Hdup 0%nat 2%nat); [lia|reflexivity..].
    + apply (Hdup 1%nat 2%nat); [lia|reflexivity..].
    + apply (Hne 0%nat 1%nat); reflexivity.
    + apply (Hne 0%nat 2%nat); reflexivity.
    + apply (Hne 1%nat 0%nat); reflexivity.
    + apply (Hne 1%nat 1%nat); reflexivity.
    + apply (Hne 1%nat 2%nat); reflexivity.
    + apply (Hne 2%nat 0%nat); reflexivity.
    + apply (Hne 2%nat 1%nat); reflexivity.
    + apply (Hne 2%nat 2%nat); reflexivity.
  - assert (i ≠ j) as Hij.
    { intros ->. destruct Hfirst as [(p & q & Hp & Hq & Hpq) _].
      assert (q = p) as -> by congruence.
      destruct (Hmem j p Hp) as (_ & _ & Hl). congruence. }
    destruct (search_third t i j Hlen Hfirst Hij)
      as (k & p & q & r & _ & _ & _ & _ & _ & _ & _ & _ & Hsearch).
    eauto.
Qed.

(** With sane tickers under the symbols of a triangle whose legs the search
    finds, the evaluation returns. *)
Lemma calculate_returns (book : gmap string ticker) (result : gmap string row)
    (t : list capsule) (l : legs) :
  search t = Ok (Some l) →
  (∀ p, In p t → ∃ d, book !! symbol p = Some d ∧ sane_ticker d) →
  ∃ result', calculate_triangular_arbitrage book result t = Ok result'.
Proof.
  intros Hs Hbook.
  destruct (search_some_inv t l Hs)
    as (_ & _ & _ & _ & _ & HinAB & HinBC & HinAC).
  destruct (Hbook _ HinAB) as (t_AB & HAB & [? ?]).
  destruct (Hbook _ HinBC) as (t_BC & HBC & [? ?]).
  destruct (Hbook _ HinAC) as (t_AC & HAC & [? ?]).
  rewrite (calculate_with_legs _ _ _ l t_AB t_BC t_AC) by assumption.
  destruct (condition_in_range (ticker_a t_AB) (ticker_a t_BC) (ticker_b t_AC))
    as [c1 ->]; try assumption.
  destruct (condition_in_range (ticker_b t_AB) (ticker_b t_BC) (ticker_a t_AC))
    as [c2 ->]; try assumption.
  simpl. eauto.
Qed.

Lemma on_message_loop_returns (todo : list (list capsule))
    (self : ArbitrageDetector) :
  (∀ t result, In t todo → quoted (book_ticker_data self) t = true →
               ∃ result', calculate_triangular_arbitrage
                            (book_ticker_data self) result t = Ok result') →
  snd (on_message_loop todo self) = None.
Proof.
  revert self. induction todo as [|target todo IH]; intros self Hok;
    [reflexivity|].
  simpl.
  change (Nat.eqb (count_quoted (book_ticker_data self) target) 3)
    with (quoted (book_ticker_data self) target).
  destruct (quoted (book_ticker_data self) target) eqn:Hq.
  - destruct (Hok target (result self) (or_introl eq_refl) Hq) as [result' ->].
    apply IH. intros t r Ht. simpl. apply Hok. now right.
  - apply IH. intros t r Ht. apply Hok. now right.
Qed.

Lemma run_sane (stream : list ticker) (self : ArbitrageDetector) :
  (∀ k d, book_ticker_data self !! k = Some d → sane_ticker d) →
  (∀ data, In data stream → sane_ticker data) →
  ∀ k d, book_ticker_data (run self stream) !! k = Some d → sane_ticker d.
Proof.
  revert self. induction stream as [|data stream IH]; intros self Hbook Hsane;
    [exact Hbook|].
  change (run self (data :: stream))
    with (run (fst (on_message self data)) stream).
  apply IH.
  - rewrite on_message_book. intros k d.
    destruct (decide (ticker_s data = k)) as [<-|Hne].
    + rewrite lookup_insert_eq. intros [= <-]. apply Hsane. now left.
    + rewrite lookup_insert_ne by exact Hne. apply Hbook.
  - intros d Hd. apply Hsane. now right.
Qed.

(** X20: with a proper catalog and sane prices the handler never raises.
    When every pair of the catalog trades two different assets, no two pairs
    trade the same assets in the same direction, and every ticker received
    has a positive ask and bid within range, every call of [on_message],
    from the start-up on, returns normally. *)
Theorem on_message_returns_on_sane_input
    (symbols : list exchange_symbol) (stream : list ticker) (data : ticker) :
  proper_catalog
    (fetch_trading_pairs target_assets trading_pair_limit symbols) →
  (∀ d, In d (stream ++ [data]) → sane_ticker d) →
  snd (on_message (run (init symbols) stream) data) = None.
Proof.
  intros Hproper Hsane.
  destruct (run_consistent stream (init symbols) [] (init_consistent symbols))
    as (Hlen & _).
  pose proof (run_triangles stream (init symbols)) as Htri.
  unfold on_message. apply on_message_loop_returns. simpl.
  intros t r Ht Hq. rewrite Htri in Ht. simpl in Ht.
  destruct (proper_triangle_has_legs _ t Hproper Ht) as [l Hs].
  apply (calculate_returns _ _ t l Hs).
  intros p Hp.
  assert (length t = 3%nat) as Hlen3.
  { apply Hlen. now rewrite Htri. }
  destruct (quoted_all _ t p Hlen3 Hq Hp) as [d Hd].
  exists d. split; [exact Hd|].
  destruct (decide (ticker_s data = symbol p)) as [Heq|Hne].
  - rewrite <- Heq, lookup_insert_eq in Hd. injection Hd as <-.
    apply Hsane. apply in_app_iff. right. now left.
  - rewrite lookup_insert_ne in Hd by exact Hne.
    apply (run_sane stream (init symbols)) with (k := symbol p);
      [| |exact Hd].
    + simpl. intros k d'. rewrite lookup_empty. discriminate.
    + intros d' Hd'. apply Hsane. apply in_app_iff. now left.
Qed.

Lemma on_message_returns_on_sane_input_witness :
  snd (on_message (run (init scenario_symbols) three_quotes)
         (Ticker "ETHBTC" (dec 51 (-3)) (dec 5 (-2)))) = None.
Proof.
  apply (on_message_returns_on_sane_input scenario_symbols three_quotes
           (Ticker "ETHBTC" (dec 51 (-3)) (dec 5 (-2)))).
  - change (fetch_trading_pairs target_assets trading_pair_limit
              scenario_symbols) with [ETHBTC; BNBETH; BNBBTC].
    split.
    + intros p [<-|[<-|[<-|[]]]]; discriminate.
    + intros i j p q Hij Hp Hq [Hl Hr].
      apply lookup3 in Hp as [[-> ->]|[[-> ->]|[-> ->]]];
        apply lookup3 in Hq as [[-> ->]|[[-> ->]|[-> ->]]];
        try contradiction; discriminate.
  - intros d [<-|[<-|[<-|[<-|[]]]]];
      (split; (split; [split; reflexivity|split; vm_compute; discriminate])).
Defined.

(** ** The accuracy of the rates *)

Lemma Qmult_le_l_aux (c x y : Q) : (0 <= c)%Q → (x <= y)%Q → (c * x <= c * y)%Q.
Proof.
  intros Hc Hxy. rewrite !(Qmult_comm c). now apply Qmult_le_compat_r.
Qed.

#[global] Instance within_Proper :
  Proper (Qeq ==> Qeq ==> Qeq ==> iff) within.
Proof.
  intros δ δ' Hδ v v' Hv x x' Hx. unfold within.
  now rewrite Hδ, Hv, Hx.
Qed.

Lemma within_weaken (δ δ' v x : Q) :
  (δ <= δ')%Q → (0 <= x)%Q → within δ v x → within δ' v x.
Proof.
  unfold within. intros Hd Hx [Hlo Hhi].
  assert (0 <= (δ' - δ) * x)%Q as H
    by (apply Qmult_le_0_compat; [lra|assumption]).
  split.
  - apply Qle_trans with ((1 - δ) * x)%Q; [|exact Hlo].
    ring_simplify. ring_simplify in H. lra.
  - apply Qle_trans with ((1 + δ) * x)%Q; [exact Hhi|].
    ring_simplify. ring_simplify in H. lra.
Qed.

Lemma within_refl (δ x : Q) : (0 <= δ)%Q → (0 <= x)%Q → within δ x x.
Proof.
  intros Hd Hx. apply (within_weaken 0 δ); [exact Hd|exact Hx|].
  unfold within. split; ring_simplify; apply Qle_refl.
Qed.

Lemma within_trans (a b v' v x : Q) :
  (0 <= a)%Q → (0 <= b <= 1)%Q → (0 <= x)%Q →
  within a v x → within b v' v → within (a + b + a * b) v' x.
Proof.
  unfold within. intros Ha [Hb Hb1] Hx [Hlo Hhi] [Hlo' Hhi'].
  assert (0 <= a * x)%Q as Hax by (apply Qmult_le_0_compat; assumption).
  assert (0 <= b * (a * x))%Q as Hbax by (apply Qmult_le_0_compat; assumption).
  split.
  - apply Qle_trans with ((1 - b) * v)%Q; [|exact Hlo'].
    apply Qle_trans with ((1 - b) * ((1 - a) * x))%Q.
    + ring_simplify. ring_simplify in Hbax. lra.
    + apply Qmult_le_l_aux; [lra|exact Hlo].
  - apply Qle_trans with ((1 + b) * v)%Q; [exact Hhi'|].
    apply Qle_trans with ((1 + b) * ((1 + a) * x))%Q.
    + apply Qmult_le_l_aux; [lra|exact Hhi].
    + ring_simplify. lra.
Qed.

Lemma within_mul (a b v1 v2 x1 x2 : Q) :
  (0 <= a <= 1)%Q → (0 <= b <= 1)%Q → (0 <= x1)%Q → (0 <= x2)%Q →
  within a v1 x1 → within b v2 x2 →
  within (a + b + a * b) (v1 * v2) (x1 * x2).
Proof.
  unfold within. intros [Ha Ha1] [Hb Hb1] Hx1 Hx2 [Hlo1 Hhi1] [Hlo2 Hhi2].
  assert (0 <= (1 - a) * x1)%Q as H1
    by (apply Qmult_le_0_compat; [lra|assumption]).
  assert (0 <= (1 - b) * x2)%Q as H2
    by (apply Qmult_le_0_compat; [lra|assumption]).
  assert (0 <= x1 * x2)%Q as Hx by (apply Qmult_le_0_compat; assumption).
  assert (0 <= a * b)%Q as Hab by (apply Qmult_le_0_compat; assumption).
  assert (0 <= (a * b) * (x1 * x2))%Q as Habx
    by (apply Qmult_le_0_compat; assumption).
  split.
  - apply Qle_trans with (((1 - a) * x1) * ((1 - b) * x2))%Q.
    + ring_simplify. ring_simplify in Habx. lra.
    + apply Qmult_le_compat_nonneg; split; assumption.
  - apply Qle_trans with (((1 + a) * x1) * ((1 + b) * x2))%Q.
    + apply Qmult_le_compat_nonneg; split;
        [apply Qle_trans with ((1 - a) * x1)%Q|
         |apply Qle_trans with ((1 - b) * x2)%Q|]; assumption.
    + ring_simplify. apply Qle_refl.
Qed.

Lemma pow10_Q_pos (e : Z) : (0 < inject_Z 10 ^ e)%Q.
Proof. apply Qpower_0_lt. reflexivity. Qed.

Lemma qv_pos (n e : Z) : 0 < n → (0 < qv n e)%Q.
Proof.
  intros Hn. unfold qv. apply Qmult_lt_0_compat; [|apply pow10_Q_pos].
  change 0%Q with (inject_Z 0). now rewrite <- Zlt_Qlt.
Qed.

Lemma qv_shift (n e k : Z) : 0 ≤ k → (qv n (e + k) == qv (n * 10 ^ k) e)%Q.
Proof.
  intros Hk. unfold qv.
  rewrite inject_Z_mult, Zpower_Qpower by exact Hk.
  rewrite Qpower_plus by discriminate. ring.
Qed.

Lemma qv_mul (n m e f : Z) : (qv n e * qv m f == qv (n * m) (e + f))%Q.
Proof.
  unfold qv. rewrite inject_Z_mult, Qpower_plus by discriminate. ring.
Qed.

Lemma qv_one (s : Z) : 0 ≤ s → (qv (10 ^ s) (- s) == 1)%Q.
Proof.
  intros Hs. unfold qv. rewrite Zpower_Qpower by exact Hs.
  rewrite <- Qpower_plus by discriminate.
  replace (s + - s) with 0 by lia. reflexivity.
Qed.

Lemma value_qv (d : PyDecimal.t) :
  PyDecimal._sign d = false →
  (PyDecimal.value d == qv (Z.of_N (PyDecimal._int d)) (PyDecimal._exp d))%Q.
Proof. intros Hs. unfold PyDecimal.value, qv. now rewrite Hs. Qed.

(** A relative error on the integers gives the relative error on the
    rationals. *)
Lemma qv_within (D : Z) (δ : Q) (n' n e : Z) :
  0 < D → (δ * inject_Z D == 1)%Q → 0 ≤ n →
  D * n' ≤ D * n + n → D * n ≤ D * n' + n →
  within δ (qv n' e) (qv n e).
Proof.
  intros HD Hδ Hn Hup Hdown. unfold within, qv.
  set (P := (inject_Z 10 ^ e)%Q).
  assert (0 < P)%Q as HP by apply pow10_Q_pos.
  assert (0 < inject_Z D)%Q as HDq.
  { change 0%Q with (inject_Z 0). now rewrite <- Zlt_Qlt. }
  rewrite Zle_Qle in Hup, Hdown.
  rewrite inject_Z_plus, !inject_Z_mult in Hup, Hdown.
  set (a := inject_Z n') in *. set (b := inject_Z n) in *.
  set (Dq := inject_Z D) in *.
  assert ((1 - δ) * b <= a)%Q as Hlo.
  { apply (Qmult_le_r _ _ Dq HDq).
    assert ((1 - δ) * b * Dq == Dq * b - (δ * Dq) * b)%Q as -> by ring.
    rewrite Hδ. lra. }
  assert (a <= (1 + δ) * b)%Q as Hhi.
  { apply (Qmult_le_r _ _ Dq HDq).
    assert ((1 + δ) * b * Dq == Dq * b + (δ * Dq) * b)%Q as -> by ring.
    rewrite Hδ. lra. }
  split.
  - rewrite Qmult_assoc. apply Qmult_le_compat_r; [exact Hlo|lra].
  - rewrite Qmult_assoc. apply Qmult_le_compat_r; [exact Hhi|lra].
Qed.

Section Accuracy.
Import PyDecimal PyDecimalFacts.

Lemma rounding_error_inverse :
  (rounding_error * inject_Z 2000000000000000000000000000 == 1)%Q.
Proof. reflexivity. Qed.

Lemma rounding_error_range : (0 <= rounding_error <= 1)%Q.
Proof. split; discriminate. Qed.

Lemma value_pos (d : t) :
  _sign d = false → (0 < _int d)%N → (0 < value d)%Q.
Proof. intros Hs Hpos. rewrite (value_qv d Hs). apply qv_pos. lia. Qed.

(** Rounding a positive decimal that is neither above [Emax] nor subnormal
    changes it by at most half a unit of the 28th digit. *)
Lemma fix_accurate (d : t) :
  _sign d = false → (0 < _int d)%N →
  Emin ≤ adjusted d → adjusted d < Emax →
  ∃ d', _fix d = Ok d' ∧ _sign d' = false ∧ (0 < _int d')%N
        ∧ big d' (adjusted d)
        ∧ within rounding_error (value d') (value d).
Proof.
  intros Hsign Hpos Hlo Hhi.
  pose proof (value_pos d Hsign Hpos) as Hvpos.
  destruct (len_spec _ Hpos) as (Hlen1 & Hnlo & Hnhi).
  unfold adjusted in *. unfold _fix, nonzero.
  destruct (N.eqb_spec (_int d) 0) as [?|_]; [lia|]. simpl negb. cbv iota.
  unfold Etop, Etiny, Emin, Emax, prec in *. cbv zeta.
  destruct (Z.ltb_spec (999999 - 28 + 1) (len (_int d) + _exp d - 28))
    as [?|_]; [lia|].
  destruct (Z.ltb_spec (len (_int d) + _exp d - 28) (-999999 - 28 + 1))
    as [?|_]; [lia|].
  destruct (Z.ltb_spec (_exp d) (len (_int d) + _exp d - 28)) as [Hround|Hkeep].
  2:{ exists d. split; [reflexivity|]. split; [exact Hsign|].
      split; [exact Hpos|]. split.
      - apply adjusted_big; [exact Hpos|]. unfold adjusted. lia.
      - apply within_refl; [apply rounding_error_range|]. lra. }
  set (k := len (_int d) - 28) in *.
  replace (len (_int d) + _exp d - 28 - _exp d) with k by (subst k; lia).
  assert (0 < k) as Hk by (subst k; lia).
  set (unit := (10 ^ Z.to_N k)%N).
  assert (Z.of_N unit = 10 ^ k) as Hunit.
  { subst unit. rewrite N2Z.inj_pow, Z2N.id by lia. reflexivity. }
  pose proof (pow10_pos k ltac:(lia)) as Hupos.
  set (kept := (_int d / unit)%N).
  set (dropped := (_int d mod unit)%N).
  assert (Z.of_N (_int d) = Z.of_N kept * 10 ^ k + Z.of_N dropped
          ∧ 0 ≤ Z.of_N dropped < 10 ^ k) as [Hdiv Hrem].
  { subst kept dropped. rewrite N2Z.inj_div, N2Z.inj_mod, Hunit.
    pose proof (Z.div_mod (Z.of_N (_int d)) (10 ^ k) ltac:(lia)).
    pose proof (Z.mod_pos_bound (Z.of_N (_int d)) (10 ^ k) ltac:(lia)).
    lia. }
  clearbody kept dropped.
  assert (10 ^ (len (_int d) - 1) = 10 ^ 27 * 10 ^ k) as Hp27.
  { rewrite <- Z.pow_add_r by lia. f_equal. subst k. lia. }
  assert (10 ^ len (_int d) = 10 ^ 28 * 10 ^ k) as Hp28.
  { rewrite <- Z.pow_add_r by lia. f_equal. subst k. lia. }
  assert (10 ^ 27 ≤ Z.of_N kept < 10 ^ 28) as [Hk27 Hk28].
  { split.
    - destruct (Z.le_gt_cases (10 ^ 27) (Z.of_N kept)) as [?|Hlt];
        [assumption|exfalso].
      assert (Z.of_N kept + 1 ≤ 10 ^ 27) as Hle by lia.
      apply (Z.mul_le_mono_nonneg_r _ _ (10 ^ k)) in Hle; lia.
    - apply (Z.mul_lt_mono_pos_r (10 ^ k)); lia. }
  set (round_up := (unit <? 2 * dropped)%N
                   || (2 * dropped =? unit)%N && N.odd kept).
  assert ((round_up = true → 10 ^ k ≤ 2 * Z.of_N dropped)
          ∧ (round_up = false → 2 * Z.of_N dropped ≤ 10 ^ k)) as [Hup Hdown].
  { subst round_up. split.
    - rewrite orb_true_iff, andb_true_iff, N.ltb_lt, N.eqb_eq. lia.
    - rewrite orb_false_iff, N.ltb_ge. lia. }
  clearbody round_up.
  change (10 ^ 27) with 1000000000000000000000000000 in *.
  change (10 ^ 28) with 10000000000000000000000000000 in *.
  assert (∀ c e', (value (mk (_sign d) c e') == qv (Z.of_N c) e')%Q) as Hval.
  { intros c e'. apply value_qv. exact Hsign. }
  assert (∀ c, 2 * (Z.of_N c * 10 ^ k) ≤ 2 * Z.of_N (_int d) + 10 ^ k →
               2 * Z.of_N (_int d) ≤ 2 * (Z.of_N c * 10 ^ k) + 10 ^ k →
               within rounding_error (qv (Z.of_N c * 10 ^ k) (_exp d))
                 (value d)) as Hwithin.
  { intros c H1 H2. rewrite (value_qv d Hsign).
    apply (qv_within 2000000000000000000000000000);
      [lia|apply rounding_error_inverse|lia|lia|lia]. }
  destruct round_up; simpl.
  - specialize (Hup eq_refl).
    destruct (Z.ltb_spec 28 (len (kept + 1))) as [Hcarry|Hnocarry].
    + destruct (len_spec (kept + 1)%N ltac:(lia)) as (_ & Hclo & _).
      pose proof (pow10_le 28 (len (kept + 1) - 1) ltac:(lia)) as Hc28.
      change (10 ^ 28) with 10000000000000000000000000000 in Hc28.
      assert (Z.of_N (kept + 1) = 10000000000000000000000000000) as Hc
        by lia.
      assert ((kept + 1) / 10 = 1000000000000000000000000000)%N as Hc10.
      { apply N2Z.inj. rewrite N2Z.inj_div, Hc. reflexivity. }
      rewrite Hc10.
      destruct (Z.ltb_spec (999999 - 28 + 1)
                  (len (_int d) + _exp d - 28 + 1)) as [?|_]; [lia|].
      eexists. split; [reflexivity|]. split; [exact Hsign|].
      split; [reflexivity|]. split.
      * split; [reflexivity|]. simpl.
        replace (len (_int d) + _exp d - 1 - (len (_int d) + _exp d - 28 + 1))
          with 26 by lia. vm_compute. discriminate.
      * rewrite Hval.
        replace (len (_int d) + _exp d - 28 + 1) with (_exp d + (k + 1))
          by (subst k; lia).
        rewrite qv_shift by lia. rewrite pow10_succ by lia.
        replace (Z.of_N 1000000000000000000000000000 * (10 * 10 ^ k))
          with (Z.of_N (kept + 1) * 10 ^ k) by (rewrite Hc; lia).
        apply Hwithin; lia.
    + destruct (Z.ltb_spec (999999 - 28 + 1) (len (_int d) + _exp d - 28))
        as [?|_]; [lia|].
      eexists. split; [reflexivity|]. split; [exact Hsign|].
      split; [simpl; lia|]. split.
      * split; [simpl; lia|]. simpl.
        replace (len (_int d) + _exp d - 1 - (len (_int d) + _exp d - 28))
          with 27 by lia.
        change (10 ^ 27) with 1000000000000000000000000000. lia.
      * rewrite Hval.
        replace (len (_int d) + _exp d - 28) with (_exp d + k)
          by (subst k; lia).
        rewrite qv_shift by lia. apply Hwithin; lia.
  - specialize (Hdown eq_refl).
    destruct (Z.ltb_spec (999999 - 28 + 1) (len (_int d) + _exp d - 28))
      as [?|_]; [lia|].
    eexists. split; [reflexivity|]. split; [exact Hsign|].
    split; [simpl; lia|]. split.
    + split; [simpl; lia|]. simpl.
      replace (len (_int d) + _exp d - 1 - (len (_int d) + _exp d - 28))
        with 27 by lia.
      change (10 ^ 27) with 1000000000000000000000000000. lia.
    + rewrite Hval.
      replace (len (_int d) + _exp d - 28) with (_exp d + k)
        by (subst k; lia).
      rewrite qv_shift by lia. apply Hwithin; lia.
Qed.

Lemma big_mono (d : t) (b b' : Z) : b' ≤ b → big d b → big d b'.
Proof.
  intros Hb [Hpos Hbig]. split; [exact Hpos|].
  destruct (Z.lt_ge_cases (b' - _exp d) 0) as [Hneg|Hnn].
  - rewrite Z.pow_neg_r by lia. lia.
  - pose proof (pow10_le (b' - _exp d) (b - _exp d) ltac:(lia)). lia.
Qed.

Lemma big_adjusted (d : t) (b : Z) : big d b → b ≤ adjusted d.
Proof.
  intros [Hpos Hbig]. unfold adjusted.
  destruct (len_spec _ Hpos) as (Hlen1 & _ & Hhi).
  destruct (Z.lt_ge_cases (b - _exp d) (len (_int d))) as [?|Hge]; [lia|].
  pose proof (pow10_le (len (_int d)) (b - _exp d) ltac:(lia)). lia.
Qed.

Lemma small_adjusted (d : t) (b : Z) :
  (0 < _int d)%N → small d b → adjusted d ≤ b.
Proof.
  intros Hpos [Hz|Hlt]; [lia|]. unfold adjusted.
  pose proof (len_le _ _ Hpos Hlt). lia.
Qed.

Lemma big_mul (s : bool) (x y : t) (lx ly : Z) :
  big x lx → big y ly →
  big (mk s (_int x * _int y) (_exp x + _exp y)) (lx + ly).
Proof.
  intros [Hxpos Hx] [Hypos Hy]. split; [simpl; lia|]. simpl.
  rewrite N2Z.inj_mul.
  set (a := lx - _exp x) in *. set (b := ly - _exp y) in *.
  replace (lx + ly - (_exp x + _exp y)) with (a + b) by (subst a b; lia).
  destruct (Z.lt_ge_cases a 0) as [Ha|Ha];
    destruct (Z.lt_ge_cases b 0) as [Hb|Hb].
  - rewrite Z.pow_neg_r by lia. lia.
  - destruct (Z.lt_ge_cases (a + b) 0) as [Hab|Hab].
    + rewrite Z.pow_neg_r by lia. lia.
    + pose proof (pow10_le (a + b) b ltac:(lia)). nia.
  - destruct (Z.lt_ge_cases (a + b) 0) as [Hab|Hab].
    + rewrite Z.pow_neg_r by lia. lia.
    + pose proof (pow10_le (a + b) a ltac:(lia)). nia.
  - rewrite Z.pow_add_r by lia.
    pose proof (pow10_pos a Ha). pose proof (pow10_pos b Hb).
    apply Z.mul_le_mono_nonneg; lia.
Qed.

Lemma value_mul (x y : t) :
  _sign x = false → _sign y = false →
  (value (mk (xorb (_sign x) (_sign y)) (_int x * _int y) (_exp x + _exp y))
   == value x * value y)%Q.
Proof.
  intros Hx Hy. rewrite (value_qv x Hx), (value_qv y Hy), qv_mul.
  rewrite value_qv by (simpl; now rewrite Hx, Hy). simpl.
  now rewrite N2Z.inj_mul.
Qed.

(** A product of two positive decimals that stays within the exponent range
    is the exact product up to one rounding. *)
Lemma mul_accurate (x y : t) (lx ly bx by_ : Z) :
  positive x → positive y → big x lx → big y ly → small x bx → small y by_ →
  Emin ≤ lx + ly → bx + by_ + 1 < Emax →
  ∃ z, mul x y = Ok z ∧ positive z ∧ big z (lx + ly)
       ∧ small z (bx + by_ + 2)
       ∧ within rounding_error (value z) (value x * value y).
Proof.
  intros [Hsx Hpx] [Hsy Hpy] Hbx Hby Hsmx Hsmy Hlo Hhi.
  destruct (mul_small x y bx by_ Hsmx Hsmy Hhi) as (z' & Hz' & Hsmall & _).
  unfold mul in *.
  set (raw := mk (xorb (_sign x) (_sign y)) (_int x * _int y)
                (_exp x + _exp y)) in *.
  assert (_sign raw = false) as Hsr by (simpl; now rewrite Hsx, Hsy).
  assert (0 < _int raw)%N as Hpr by (simpl; lia).
  pose proof (big_mul (xorb (_sign x) (_sign y)) x y lx ly Hbx Hby) as Hbig.
  fold raw in Hbig.
  assert (small raw (bx + by_ + 1)) as Hsmr.
  { right. simpl. destruct Hsmx as [?|Hsmx]; [lia|].
    destruct Hsmy as [?|Hsmy]; [lia|].
    pose proof (pow10_gt_exponent (Z.of_N (_int x)) _ ltac:(lia) Hsmx).
    pose proof (pow10_gt_exponent (Z.of_N (_int y)) _ ltac:(lia) Hsmy).
    replace (bx + by_ + 1 + 1 - (_exp x + _exp y))
      with ((bx + 1 - _exp x) + (by_ + 1 - _exp y)) by lia.
    rewrite Z.pow_add_r, N2Z.inj_mul by lia.
    apply Z.mul_lt_mono_nonneg; lia. }
  destruct (fix_accurate raw Hsr Hpr) as (z & Hz & Hsz & Hpz & Hbz & Hwz).
  - pose proof (big_adjusted raw _ Hbig). lia.
  - pose proof (small_adjusted raw _ Hpr Hsmr). lia.
  - exists z. split; [exact Hz|]. split; [split; assumption|].
    split; [|split].
    + eapply big_mono; [|exact Hbz]. now apply big_adjusted.
    + assert (z = z') as -> by congruence. exact Hsmall.
    + rewrite <- (value_mul x y Hsx Hsy). exact Hwz.
Qed.

Lemma strip_zeros_step (coeff : N) :
  (coeff mod 10 = 0)%N → Z.of_N (coeff / 10) * 10 = Z.of_N coeff.
Proof.
  intros Hmod. pose proof (N.div_mod coeff 10 ltac:(lia)) as Hdiv.
  rewrite Hmod in Hdiv. lia.
Qed.

Lemma strip_zeros_value (ideal_exp : Z) (fuel : nat) (coeff : N) (exp : Z) :
  (qv (Z.of_N (fst (strip_zeros ideal_exp fuel coeff exp)))
      (snd (strip_zeros ideal_exp fuel coeff exp))
   == qv (Z.of_N coeff) exp)%Q.
Proof.
  revert coeff exp. induction fuel as [|fuel IH]; intros coeff exp;
    simpl; [reflexivity|].
  destruct (Z.ltb_spec exp ideal_exp) as [_|_]; simpl; [|reflexivity].
  destruct (N.eqb_spec (coeff mod 10) 0) as [Hmod|_]; [|reflexivity].
  rewrite IH, (qv_shift _ exp 1) by lia.
  change (10 ^ 1) with 10. now rewrite strip_zeros_step.
Qed.

Lemma strip_zeros_big (sign : bool) (ideal_exp : Z) (fuel : nat)
    (coeff : N) (exp : Z) (b : Z) :
  big (mk sign coeff exp) b →
  big (mk sign (fst (strip_zeros ideal_exp fuel coeff exp))
          (snd (strip_zeros ideal_exp fuel coeff exp))) b.
Proof.
  revert coeff exp. induction fuel as [|fuel IH]; intros coeff exp Hbig;
    simpl; [exact Hbig|].
  destruct (Z.ltb_spec exp ideal_exp) as [_|_]; simpl; [|exact Hbig].
  destruct (N.eqb_spec (coeff mod 10) 0) as [Hmod|_]; [|exact Hbig].
  apply IH. destruct Hbig as [Hpos Hbig]. unfold big.
  cbn [_int _exp] in *.
  pose proof (strip_zeros_step coeff Hmod) as Hstep.
  split; [apply N2Z.inj_lt; change (Z.of_N 0) with 0; lia|].
  destruct (Z.lt_ge_cases (b - (exp + 1)) 0) as [Hneg|Hnn].
  - rewrite Z.pow_neg_r by lia. lia.
  - replace (b - exp) with (b - (exp + 1) + 1) in Hbig by lia.
    rewrite pow10_succ in Hbig by lia. lia.
Qed.

Lemma division_error_inverse :
  (division_error * inject_Z 10000000000000000000000000000 == 1)%Q.
Proof. reflexivity. Qed.

Lemma division_error_range : (0 <= division_error <= 1)%Q.
Proof. split; discriminate. Qed.

(** A 29-digit quotient [C] of [10 ^ shift] by the coefficient of [w], off
    by less than one unit, is the inverse of [w] up to [division_error]. *)
Lemma quotient_accurate (w raw : t) (C shift : Z) :
  _sign w = false → 0 ≤ shift →
  C * Z.of_N (_int w) ≤ 10 ^ shift + Z.of_N (_int w) →
  10 ^ shift ≤ C * Z.of_N (_int w) + Z.of_N (_int w) →
  Z.of_N (_int w) * 10 ^ 28 ≤ 10 ^ shift →
  (value raw == qv C (0 - _exp w - shift))%Q →
  within division_error (value raw * value w) 1.
Proof.
  intros Hs Hshift Hup Hdown Hn Hraw.
  rewrite Hraw, (value_qv w Hs), qv_mul.
  replace (0 - _exp w - shift + _exp w) with (- shift) by lia.
  rewrite <- (qv_one shift Hshift).
  pose proof (pow10_pos shift Hshift).
  apply (qv_within 10000000000000000000000000000).
  - reflexivity.
  - exact division_error_inverse.
  - lia.
  - change (10 ^ 28) with 10000000000000000000000000000 in Hn. lia.
  - change (10 ^ 28) with 10000000000000000000000000000 in Hn. lia.
Qed.

(** The quotient [1 / w] before its final rounding. *)
Lemma inverse_raw (w : t) (lw bw : Z) :
  positive w → big w lw → small w bw →
  ∃ raw, truediv one w = _fix raw ∧ positive raw
         ∧ big raw (- bw - 1) ∧ small raw (- lw)
         ∧ within division_error (value raw * value w) 1.
Proof.
  intros [Hs Hpos] [_ Hbig] Hsm. unfold truediv, nonzero.
  destruct (N.eqb_spec (_int w) 0) as [?|_]; [lia|].
  change (_int one) with 1%N. change (_exp one) with 0.
  change (_sign one) with false. rewrite len_one, Hs. simpl negb. cbv iota.
  simpl xorb.
  destruct (len_spec _ Hpos) as (Hlen1 & Hlo & Hhi).
  unfold prec.
  set (shift := len (_int w) - 1 + 28 + 1).
  assert (29 ≤ shift ∧ shift = len (_int w) + 28) as [Hshift Hshift'].
  { subst shift. lia. }
  destruct (Z.leb_spec 0 shift) as [_|?]; [|lia].
  set (num := (1 * 10 ^ Z.to_N shift)%N).
  assert (Z.of_N num = 10 ^ shift) as Hnum.
  { subst num. rewrite N.mul_1_l, N2Z.inj_pow, Z2N.id by lia. reflexivity. }
  set (coeff := (num / _int w)%N).
  set (n := Z.of_N (_int w)) in *.
  assert (0 < n) as Hn by (subst n; lia).
  pose proof (pow10_pos shift ltac:(lia)) as Hspos.
  assert (n * 10 ^ 28 ≤ 10 ^ shift) as Hn28.
  { rewrite Hshift', Z.pow_add_r by lia.
    apply Z.mul_le_mono_nonneg_r; [apply Z.pow_nonneg|]; lia. }
  assert (Z.of_N coeff * n ≤ 10 ^ shift < (Z.of_N coeff + 1) * n) as Hdiv.
  { subst coeff. rewrite N2Z.inj_div, Hnum. fold n.
    pose proof (Z.mul_div_le (10 ^ shift) n Hn).
    pose proof (Z.mul_succ_div_gt (10 ^ shift) n Hn). lia. }
  assert (10 ^ 28 ≤ Z.of_N coeff) as Hc28.
  { subst coeff. rewrite N2Z.inj_div, Hnum. fold n.
    apply Z.div_le_lower_bound; lia. }
  (* the quotient is at most [10 ^ (shift - m)] when [w ≥ 10 ^ m] *)
  set (m := Z.max (lw - _exp w) 0).
  assert (10 ^ m ≤ n) as Hm.
  { subst m. destruct (Z.max_spec (lw - _exp w) 0) as [[_ ->]|[_ ->]].
    - change (10 ^ 0) with 1. lia.
    - exact Hbig. }
  assert (0 ≤ m < len (_int w)) as Hmlen.
  { split; [subst m; lia|].
    destruct (Z.lt_ge_cases m (len (_int w))) as [?|Hge]; [assumption|].
    pose proof (pow10_le (len (_int w)) m ltac:(lia)). lia. }
  assert (Z.of_N coeff ≤ 10 ^ (shift - m)) as Hcoeff.
  { pose proof (pow10_pos m ltac:(lia)) as Hmpos.
    apply (Z.mul_le_mono_pos_r _ _ (10 ^ m)); [exact Hmpos|].
    rewrite <- Z.pow_add_r by lia. replace (shift - m + m) with shift by lia.
    nia. }
  assert (Z.of_N coeff + 1 < 10 ^ (- lw + 1 - (0 - _exp w - shift))) as Hraw.
  { pose proof (pow10_pos (shift - m) ltac:(lia)).
    pose proof (pow10_le (shift - m + 1) (- lw + 1 - (0 - _exp w - shift))
                  ltac:(subst m; lia)) as Hle.
    rewrite pow10_succ in Hle by lia. lia. }
  assert (10 ^ (- bw - 1 - (0 - _exp w - shift)) ≤ Z.of_N coeff) as Hlow.
  { destruct Hsm as [?|Hsm]; [lia|].
    pose proof (len_le _ _ Hpos Hsm) as Hlen.
    destruct (Z.lt_ge_cases (- bw - 1 - (0 - _exp w - shift)) 0) as [Hneg|Hnn].
    - rewrite Z.pow_neg_r by lia. lia.
    - pose proof (pow10_le (- bw - 1 - (0 - _exp w - shift)) 28 ltac:(lia)).
      lia. }
  assert (0 < coeff)%N as Hcpos.
  { change (10 ^ 28) with 10000000000000000000000000000 in Hc28. lia. }
  clearbody coeff.
  destruct (N.eqb_spec (num mod _int w) 0) as [_|_]; simpl negb; cbv iota.
  - destruct (strip_zeros (0 - _exp w)
                (Z.to_nat (0 - _exp w - (0 - _exp w - shift)))
                coeff (0 - _exp w - shift)) as [coeff' exp'] eqn:Hstrip.
    pose proof (strip_zeros_small false (0 - _exp w)
                  (Z.to_nat (0 - _exp w - (0 - _exp w - shift)))
                  coeff (0 - _exp w - shift) (- lw)) as Hs1.
    pose proof (strip_zeros_big false (0 - _exp w)
                  (Z.to_nat (0 - _exp w - (0 - _exp w - shift)))
                  coeff (0 - _exp w - shift) (- bw - 1)) as Hs2.
    pose proof (strip_zeros_value (0 - _exp w)
                  (Z.to_nat (0 - _exp w - (0 - _exp w - shift)))
                  coeff (0 - _exp w - shift)) as Hs3.
    rewrite Hstrip in Hs1, Hs2, Hs3. simpl fst in *. simpl snd in *.
    assert (big (mk false coeff' exp') (- bw - 1)) as Hb'
      by (apply Hs2; split; [exact Hcpos|exact Hlow]).
    exists (mk false coeff' exp'). split; [reflexivity|].
    split; [split; [reflexivity|exact (proj1 Hb')]|].
    split; [exact Hb'|].
    split; [apply Hs1; right; simpl; lia|].
    apply (quotient_accurate w _ (Z.of_N coeff) shift);
      [exact Hs|lia|fold n; lia|fold n; lia|exact Hn28|].
    rewrite value_qv by reflexivity. exact Hs3.
  - set (C := if (coeff mod 5 =? 0)%N then (coeff + 1)%N else coeff).
    assert (coeff ≤ C ≤ coeff + 1)%N as HC
      by (subst C; destruct (coeff mod 5 =? 0)%N; lia).
    clearbody C.
    exists (mk false C (0 - _exp w - shift)). split; [reflexivity|].
    split; [split; [reflexivity|simpl; lia]|].
    split; [split; simpl; lia|].
    split; [right; simpl; lia|].
    apply (quotient_accurate w _ (Z.of_N C) shift);
      [exact Hs|lia|fold n; nia|fold n; nia|exact Hn28|].
    rewrite value_qv by reflexivity. reflexivity.
Qed.

Lemma within_scale (δ v x c : Q) :
  (0 <= c)%Q → within δ v x → within δ (v * c) (x * c).
Proof.
  unfold within. intros Hc [Hlo Hhi]. split.
  - rewrite Qmult_assoc. now apply Qmult_le_compat_r.
  - rewrite Qmult_assoc. now apply Qmult_le_compat_r.
Qed.

Lemma within_div (δ v x w : Q) :
  (0 < w)%Q → within δ (v * w) x → within δ v (x / w).
Proof.
  unfold within. intros Hw [Hlo Hhi].
  assert (¬ w == 0)%Q as Hnz by (intros Hz; rewrite Hz in Hw; discriminate).
  split.
  - assert ((1 - δ) * (x / w) == (1 - δ) * x / w)%Q as -> by (now field).
    now apply Qle_shift_div_r.
  - assert ((1 + δ) * (x / w) == (1 + δ) * x / w)%Q as -> by (now field).
    now apply Qle_shift_div_l.
Qed.

Lemma inverse_error_range : (0 <= inverse_error <= 1)%Q.
Proof. split; vm_compute; discriminate. Qed.

(** The inverse of a positive decimal that stays within the exponent range
    is exact up to a truncation and a rounding. *)
Lemma inverse_accurate (w : t) (lw bw : Z) :
  positive w → big w lw → small w bw → Emin ≤ - bw - 1 → - lw < Emax →
  ∃ q, truediv one w = Ok q ∧ positive q ∧ big q (- bw - 1)
       ∧ small q (- lw + 1)
       ∧ within inverse_error (value q * value w) 1.
Proof.
  intros Hw Hbig Hsmall Hlo Hhi.
  destruct (inverse_raw w lw bw Hw Hbig Hsmall)
    as (raw & -> & [Hsr Hpr] & Hbr & Hsmr & Hwr).
  destruct (fix_small raw (- lw) Hsmr Hhi) as (q' & Hq' & Hsq' & _).
  destruct (fix_accurate raw Hsr Hpr) as (q & Hq & Hsq & Hpq & Hbq & Hwq).
  - pose proof (big_adjusted raw _ Hbr). lia.
  - pose proof (small_adjusted raw _ Hpr Hsmr). lia.
  - exists q. split; [exact Hq|]. split; [split; assumption|].
    split; [|split].
    + eapply big_mono; [|exact Hbq]. now apply big_adjusted.
    + assert (q = q') as -> by congruence. exact Hsq'.
    + destruct Hw as [Hsw Hpw].
      pose proof (value_pos w Hsw Hpw) as Hvw.
      apply (within_trans division_error rounding_error _
               (value raw * value w)).
      * apply division_error_range.
      * apply rounding_error_range.
      * discriminate.
      * exact Hwr.
      * apply within_scale; [now apply Qlt_le_weak|exact Hwq].
Qed.

Lemma rate_error_covers :
  (let a := rounding_error + inverse_error + rounding_error * inverse_error in
   a + rounding_error + a * rounding_error <= rate_error)%Q.
Proof. vm_compute. discriminate. Qed.

(** The three operations of a rate, each within the exponent range, give
    the exact rate up to [rate_error]. *)
Lemma condition_accurate (x_AB x_BC y_AC : t) :
  in_range x_AB → in_range x_BC → in_range y_AC →
  ∃ rate, condition x_AB x_BC y_AC = Ok rate ∧ positive rate
          ∧ within rate_error (value rate) (exact_rate x_AB x_BC y_AC).
Proof.
  intros Hx Hy Hw. unfold condition.
  destruct (mul_accurate x_AB x_BC (-300000) (-300000) 300000 300000)
    as (p & -> & Hpp & Hbp & Hsp & Hwp);
    try (now apply in_range_big); try (now apply in_range_small);
    try (unfold Emin, Emax; lia); try (now destruct Hx); try (now destruct Hy).
  destruct (inverse_accurate y_AC (-300000) 300000)
    as (q & Hq & Hpq & Hbq & Hsq & Hwq);
    try (now apply in_range_big); try (now apply in_range_small);
    try (unfold Emin, Emax; lia); try (now destruct Hw).
  simpl. rewrite Hq. simpl.
  destruct (mul_accurate p q (-300000 + -300000) (- 300000 - 1)
              (300000 + 300000 + 2) (- -300000 + 1))
    as (rate & Hrate & Hpr & _ & _ & Hwr);
    try assumption; try (unfold Emin, Emax; lia).
  exists rate. split; [exact Hrate|]. split; [exact Hpr|].
  destruct Hx as [[Hsx Hpx] _], Hy as [[Hsy Hpy] _], Hw as [[Hsw Hpw] _].
  pose proof (value_pos _ Hsx Hpx) as Hvx.
  pose proof (value_pos _ Hsy Hpy) as Hvy.
  pose proof (value_pos _ Hsw Hpw) as Hvw.
  assert (0 <= value x_AB * value x_BC)%Q as Hxy
    by (apply Qmult_le_0_compat; now apply Qlt_le_weak).
  pose proof rounding_error_range as Hr.
  pose proof inverse_error_range as Hi.
  unfold exact_rate. apply within_div; [exact Hvw|].
  apply (within_weaken _ _ _ _ rate_error_covers Hxy). cbv zeta.
  assert (value x_AB * value x_BC == value x_AB * value x_BC * 1)%Q as Hone
    by ring.
  match goal with
  | |- within ?e ?v _ =>
      cut (within e v (value x_AB * value x_BC * 1));
        [intros Hgoal; now rewrite <- Hone in Hgoal|]
  end.
  apply (within_trans _ rounding_error _
           (value p * (value q * value y_AC))).
  - destruct Hr, Hi.
    assert (0 <= rounding_error * inverse_error)%Q
      by (now apply Qmult_le_0_compat).
    lra.
  - exact Hr.
  - rewrite <- Hone. exact Hxy.
  - apply within_mul; try assumption. discriminate.
  - assert (value p * (value q * value y_AC)
            == value p * value q * value y_AC)%Q as -> by ring.
    apply within_scale; [now apply Qlt_le_weak|exact Hwr].
Qed.

Lemma condition_ok_inv (x_AB x_BC y_AC rate : t) :
  condition x_AB x_BC y_AC = Ok rate →
  ∃ p q, mul x_AB x_BC = Ok p ∧ truediv one y_AC = Ok q ∧ mul p q = Ok rate.
Proof.
  unfold condition.
  destruct (mul x_AB x_BC) as [p|e] eqn:Hp; simpl; [|discriminate].
  destruct (truediv one y_AC) as [q|e] eqn:Hq; simpl; [|discriminate].
  intros Hrate. exists p, q. auto.
Qed.

Lemma exact_rate_formula (x_AB x_BC y_AC : t) :
  (exact_rate x_AB x_BC y_AC
   == value x_AB * value x_BC * (1 / value y_AC))%Q.
Proof. unfold exact_rate, Qdiv. ring. Qed.

(** C2, as the code has it: when the search has found the legs AB, BC and
    AC and the asks and bids of their three tickers are positive and within
    1E-300000 and 1E+300001, the evaluation computes in the decimal
    arithmetic of the context the forward rate, the product of ask AB and
    ask BC times the quotient of 1 by bid AC, and the backward rate, the
    product of bid AB and bid BC times the quotient of 1 by ask AC, every
    product and quotient rounded to the precision of the context. Each
    computed rate is within a relative error of 2E-27 of the rational number
    ask AB × ask BC × (1 / bid AC), respectively bid AB × bid BC × (1 / ask
    AC). The evaluation stores under the code of the triangle the asks, the
    bids and a verdict that is "YES" exactly when the value of the computed
    forward rate is below 1 or the value of the computed backward rate is
    above 1, and "NO" otherwise. *)
Theorem evaluation_publishes_verdict
    (book : gmap string ticker) (result : gmap string row)
    (trading_pairs : list capsule) (l : legs) (t_AB t_BC t_AC : ticker) :
  search trading_pairs = Ok (Some l) →
  book !! symbol (AB l) = Some t_AB →
  book !! symbol (BC l) = Some t_BC →
  book !! symbol (AC l) = Some t_AC →
  Forall PyDecimal.in_range
    [ticker_a t_AB; ticker_b t_AB; ticker_a t_BC; ticker_b t_BC;
     ticker_a t_AC; ticker_b t_AC] →
  ∃ forwardRate backwardRate verdict,
    (∃ product quotient,
       PyDecimal.mul (ticker_a t_AB) (ticker_a t_BC) = Ok product
       ∧ PyDecimal.truediv PyDecimal.one (ticker_b t_AC) = Ok quotient
       ∧ PyDecimal.mul product quotient = Ok forwardRate)
    ∧ (∃ product quotient,
         PyDecimal.mul (ticker_b t_AB) (ticker_b t_BC) = Ok product
         ∧ PyDecimal.truediv PyDecimal.one (ticker_a t_AC) = Ok quotient
         ∧ PyDecimal.mul product quotient = Ok backwardRate)
    ∧ within rate_error (PyDecimal.value forwardRate)
        (PyDecimal.value (ticker_a t_AB) * PyDecimal.value (ticker_a t_BC)
         * (1 / PyDecimal.value (ticker_b t_AC)))
    ∧ within rate_error (PyDecimal.value backwardRate)
        (PyDecimal.value (ticker_b t_AB) * PyDecimal.value (ticker_b t_BC)
         * (1 / PyDecimal.value (ticker_a t_AC)))
    ∧ calculate_triangular_arbitrage book result trading_pairs
      = Ok (<[arbitrage_code (AB l) (BC l) :=
                Row [(symbol (AB l), ticker_a t_AB);
                     (symbol (BC l), ticker_a t_BC);
                     (symbol (AC l), ticker_a t_AC)]
                    [(symbol (AB l), ticker_b t_AB);
                     (symbol (BC l), ticker_b t_BC);
                     (symbol (AC l), ticker_b t_AC)]
                    verdict]> result)
    ∧ (verdict = "YES" ∨ verdict = "NO")
    ∧ (verdict = "YES" ↔
       (PyDecimal.value forwardRate < 1)%Q
       ∨ (1 < PyDecimal.value backwardRate)%Q).
Proof.
  intros Hsearch HAB HBC HAC Hrange.
  repeat match goal with
         | H : Forall _ (_ :: _) |- _ => apply Forall_cons_1 in H as [? H]
         end.
  destruct (condition_accurate (ticker_a t_AB) (ticker_a t_BC) (ticker_b t_AC))
    as (forwardRate & Hf & _ & Hwf); try assumption.
  destruct (condition_accurate (ticker_b t_AB) (ticker_b t_BC) (ticker_a t_AC))
    as (backwardRate & Hb & _ & Hwb); try assumption.
  exists forwardRate, backwardRate,
    (if PyDecimal.lt forwardRate PyDecimal.one
        || PyDecimal.lt PyDecimal.one backwardRate then "YES" else "NO").
  split; [exact (condition_ok_inv _ _ _ _ Hf)|].
  split; [exact (condition_ok_inv _ _ _ _ Hb)|].
  split; [now rewrite <- exact_rate_formula|].
  split; [now rewrite <- exact_rate_formula|].
  split; [|split].
  - rewrite (calculate_with_legs book result trading_pairs l t_AB t_BC t_AC)
      by assumption.
    rewrite Hf. simpl. rewrite Hb. reflexivity.
  - destruct (_ || _); auto.
  - rewrite <- value_one, <- !PyDecimalFacts.lt_value, <- orb_true_iff.
    destruct (_ || _); split; auto; discriminate.
Qed.

Lemma evaluation_publishes_verdict_witness :
  ∃ forwardRate backwardRate verdict,
    (∃ product quotient,
       PyDecimal.mul (dec 15 (-2)) (dec 5 (-2)) = Ok product
       ∧ PyDecimal.truediv PyDecimal.one (dec 75 (-4)) = Ok quotient
       ∧ PyDecimal.mul product quotient = Ok forwardRate)
    ∧ (∃ product quotient,
         PyDecimal.mul (dec 149 (-3)) (dec 499 (-4)) = Ok product
         ∧ PyDecimal.truediv PyDecimal.one (dec 76 (-4)) = Ok quotient
         ∧ PyDecimal.mul product quotient = Ok backwardRate)
    ∧ within rate_error (PyDecimal.value forwardRate)
        (PyDecimal.value (dec 15 (-2)) * PyDecimal.value (dec 5 (-2))
         * (1 / PyDecimal.value (dec 75 (-4))))
    ∧ within rate_error (PyDecimal.value backwardRate)
        (PyDecimal.value (dec 149 (-3)) * PyDecimal.value (dec 499 (-4))
         * (1 / PyDecimal.value (dec 76 (-4))))
    ∧ calculate_triangular_arbitrage scenario_book ∅ [ETHBTC; BNBETH; BNBBTC]
      = Ok (<["BNB-ETH-BTC" :=
                Row [("BNBETH", dec 15 (-2)); ("ETHBTC", dec 5 (-2));
                     ("BNBBTC", dec 76 (-4))]
                    [("BNBETH", dec 149 (-3)); ("ETHBTC", dec 499 (-4));
                     ("BNBBTC", dec 75 (-4))]
                    verdict]> ∅)
    ∧ (verdict = "YES" ∨ verdict = "NO")
    ∧ (verdict = "YES" ↔
       (PyDecimal.value forwardRate < 1)%Q
       ∨ (1 < PyDecimal.value backwardRate)%Q).
Proof.
  apply (evaluation_publishes_verdict scenario_book ∅ [ETHBTC; BNBETH; BNBBTC]
           (Legs 1 0 BNBETH ETHBTC BNBBTC)
           (Ticker "BNBETH" (dec 15 (-2)) (dec 149 (-3)))
           (Ticker "ETHBTC" (dec 5 (-2)) (dec 499 (-4)))
           (Ticker "BNBBTC" (dec 76 (-4)) (dec 75 (-4)))).
  - reflexivity.
  - reflexivity.
  - reflexivity.
  - reflexivity.
  - repeat (constructor;
            [split; [split; reflexivity|split; vm_compute; discriminate]|]).
    constructor.
Defined.

(** X21: a rate of prices that are positive and within range is computed,
    and the two roundings of its products and the truncation and rounding
    of its quotient keep it within a relative error of 2E-27 of the exact
    rate [x_AB * x_BC / y_AC]. *)
Theorem computed_rate_is_accurate (x_AB x_BC y_AC : t) :
  in_range x_AB → in_range x_BC → in_range y_AC →
  ∃ rate, condition x_AB x_BC y_AC = Ok rate ∧ positive rate
          ∧ within rate_error (value rate) (exact_rate x_AB x_BC y_AC).
Proof. apply condition_accurate. Qed.

Lemma computed_rate_is_accurate_witness :
  ∃ rate, condition (dec 15 (-2)) (dec 5 (-2)) (dec 75 (-4)) = Ok rate
          ∧ positive rate
          ∧ within rate_error (value rate)
              (exact_rate (dec 15 (-2)) (dec 5 (-2)) (dec 75 (-4))).
Proof.
  apply (computed_rate_is_accurate (dec 15 (-2)) (dec 5 (-2)) (dec 75 (-4)));
    (split; [split; reflexivity|split; vm_compute; discriminate]).
Defined.

(** X22: the verdict is the exact one whenever the exact rates are not
    within 2E-27 of 1. With the legs found and their three tickers positive
    and within range, the evaluation returns; it stores "YES" when the exact
    forward rate is below 1 or the exact backward rate above 1 by more than
    the relative error, and it stores "YES" only when the exact forward rate
    is below 1 or the exact backward rate above 1 up to that error. *)
Theorem verdict_is_exact_away_from_one
    (book : gmap string ticker) (result : gmap string row)
    (trading_pairs : list capsule) (l : legs) (t_AB t_BC t_AC : ticker) :
  search trading_pairs = Ok (Some l) →
  book !! symbol (AB l) = Some t_AB →
  book !! symbol (BC l) = Some t_BC →
  book !! symbol (AC l) = Some t_AC →
  sane_ticker t_AB → sane_ticker t_BC → sane_ticker t_AC →
  ∃ verdict,
    calculate_triangular_arbitrage book result trading_pairs
    = Ok (<[arbitrage_code (AB l) (BC l) :=
              Row [(symbol (AB l), ticker_a t_AB);
                   (symbol (BC l), ticker_a t_BC);
                   (symbol (AC l), ticker_a t_AC)]
                  [(symbol (AB l), ticker_b t_AB);
                   (symbol (BC l), ticker_b t_BC);
                   (symbol (AC l), ticker_b t_AC)] verdict]> result)
    ∧ (((1 + rate_error)
        * exact_rate (ticker_a t_AB) (ticker_a t_BC) (ticker_b t_AC) < 1
        ∨ 1 < (1 - rate_error)
              * exact_rate (ticker_b t_AB) (ticker_b t_BC) (ticker_a t_AC))%Q
       → verdict = "YES")
    ∧ (verdict = "YES" →
       ((1 - rate_error)
        * exact_rate (ticker_a t_AB) (ticker_a t_BC) (ticker_b t_AC) < 1
        ∨ 1 < (1 + rate_error)
              * exact_rate (ticker_b t_AB) (ticker_b t_BC) (ticker_a t_AC))%Q).
Proof.
  intros Hs HAB HBC HAC [HaAB HbAB] [HaBC HbBC] [HaAC HbAC].
  rewrite (calculate_with_legs _ _ _ l t_AB t_BC t_AC) by assumption.
  destruct (condition_accurate (ticker_a t_AB) (ticker_a t_BC) (ticker_b t_AC))
    as (c1 & -> & _ & [Hlo1 Hhi1]); try assumption.
  destruct (condition_accurate (ticker_b t_AB) (ticker_b t_BC) (ticker_a t_AC))
    as (c2 & -> & _ & [Hlo2 Hhi2]); try assumption.
  simpl. eexists. split; [reflexivity|]. split.
  - intros [H|H].
    + assert (lt c1 one = true) as ->; [|reflexivity].
      apply lt_value. rewrite value_one.
      eapply Qle_lt_trans; [exact Hhi1|exact H].
    + assert (lt one c2 = true) as ->; [|now rewrite orb_true_r].
      apply lt_value. rewrite value_one.
      eapply Qlt_le_trans; [exact H|exact Hlo2].
  - destruct (lt c1 one) eqn:E1; [|destruct (lt one c2) eqn:E2].
    + intros _. left. apply lt_value in E1. rewrite value_one in E1.
      eapply Qle_lt_trans; [exact Hlo1|exact E1].
    + intros _. right. apply lt_value in E2. rewrite value_one in E2.
      eapply Qlt_le_trans; [exact E2|exact Hhi2].
    + simpl. discriminate.
Qed.

Lemma verdict_is_exact_away_from_one_witness :
  ∃ verdict,
    calculate_triangular_arbitrage scenario_book ∅ [ETHBTC; BNBETH; BNBBTC]
    = Ok (<["BNB-ETH-BTC" :=
              Row [("BNBETH", dec 15 (-2)); ("ETHBTC", dec 5 (-2));
                   ("BNBBTC", dec 76 (-4))]
                  [("BNBETH", dec 149 (-3)); ("ETHBTC", dec 499 (-4));
                   ("BNBBTC", dec 75 (-4))] verdict]> ∅)
    ∧ (((1 + rate_error)
        * exact_rate (dec 15 (-2)) (dec 5 (-2)) (dec 75 (-4)) < 1
        ∨ 1 < (1 - rate_error)
              * exact_rate (dec 149 (-3)) (dec 499 (-4)) (dec 76 (-4)))%Q
       → verdict = "YES")
    ∧ (verdict = "YES" →
       ((1 - rate_error)
        * exact_rate (dec 15 (-2)) (dec 5 (-2)) (dec 75 (-4)) < 1
        ∨ 1 < (1 + rate_error)
              * exact_rate (dec 149 (-3)) (dec 499 (-4)) (dec 76 (-4)))%Q).
Proof.
  apply (verdict_is_exact_away_from_one scenario_book ∅
           [ETHBTC; BNBETH; BNBBTC] (Legs 1 0 BNBETH ETHBTC BNBBTC)
           (Ticker "BNBETH" (dec 15 (-2)) (dec 149 (-3)))
           (Ticker "ETHBTC" (dec 5 (-2)) (dec 499 (-4)))
           (Ticker "BNBBTC" (dec 76 (-4)) (dec 75 (-4))));
    try reflexivity;
    (split; (split; [split; reflexivity|split; vm_compute; discriminate])).
Defined.

End Accuracy.
